(** * The participant session of the media routing server (package rtc)

    A shallow embedding of [Participant] and its methods: the state setter,
    [Answer], [Close], the subscriber fan-out, the publication handlers, the
    down-track registry and the three RTCP routines.

    How the Go code is read here.
    - The transport ([PeerConnection]) and the signaling channel
      ([SignalConnection]) are Go interfaces: they are type classes over an
      abstract state, so every theorem holds for every implementation.
    - A method is a computation in [Go]: it reads and updates the participant
      and appends to the trace of the calls it makes on its collaborators
      (transport calls, signaling writes, observer calls, lock operations,
      sleeps, log lines), in program order.
    - A goroutine body is read on its own, from the participant it finds when
      it runs; [go f()] leaves an event in the trace of the spawner.
    - Observers ([OnStateChange], [OnClose], [OnTrackPublished]) are external:
      the participant only records whether one is registered, and calling one
      is an event.
    - [range] over a Go map visits the keys in an order the runtime chooses:
      a routine that ranges takes that order, and the theorems hold for every
      permutation of the keys.
    - Loops that Go bounds with a counter or a condition take a number of
      turns they may use; a routine that has turns left when it needs them is
      [Done], and the theorems give the number that is enough. *)

From Stdlib Require Import ZArith Lia.
From stdpp Require Import base option list gmap strings fin_maps.


(** ** Values exchanged with the collaborators *)

Module livekit.
(** [livekit.ParticipantInfo_State], in the order of the enum. *)
Inductive ParticipantInfo_State :=
| ParticipantInfo_JOINING
| ParticipantInfo_JOINED
| ParticipantInfo_ACTIVE
| ParticipantInfo_DISCONNECTED.

#[export] Instance state_eq_dec : EqDecision ParticipantInfo_State.
Proof. solve_decision. Defined.

End livekit.
Export livekit.

(** Go [error] values: the sentinels the code compares with [==], other
    errors, and [errors.Wrap]. *)
Inductive error :=
| context_Canceled
| io_EOF
| io_ErrClosedPipe
| errors_New (msg : string)
| errors_Wrap (cause : error) (msg : string).

(** [err == io.EOF || err == io.ErrClosedPipe] *)
Definition is_transport_closed (e : error) : bool :=
  match e with
  | io_EOF | io_ErrClosedPipe => true
  | _ => false
  end.

Module webrtc.
Inductive SDPType := SDPTypeUnset | SDPTypeOffer | SDPTypePranswer | SDPTypeAnswer | SDPTypeRollback.

Record SessionDescription := { sd_Type : SDPType; sd_SDP : string }.

(** The zero value of the struct: what a named result holds before it is assigned. *)
Definition zeroSessionDescription : SessionDescription :=
  {| sd_Type := SDPTypeUnset; sd_SDP := "" |}.

Inductive ICEConnectionState :=
| ICEConnectionStateNew
| ICEConnectionStateChecking
| ICEConnectionStateConnected
| ICEConnectionStateCompleted
| ICEConnectionStateDisconnected
| ICEConnectionStateFailed
| ICEConnectionStateClosed.

#[export] Instance ice_eq_dec : EqDecision ICEConnectionState.
Proof. solve_decision. Defined.

Record DataChannel := { dc_Label : string }.
End webrtc.
Export webrtc.

Module rtcp.
Record SourceDescriptionChunk := { Source : N; Text : string }.

(** What identifies a [rtcp.SenderReport] here. *)
Record SenderReportFields := { SSRC : N }.

(** The packets that travel: sender reports, source descriptions, and the
    receivers' feedback (picture loss, NACK and the like). *)
Inductive Packet :=
| SenderReport (fields : SenderReportFields)
| SourceDescription (Chunks : list SourceDescriptionChunk)
| Feedback (ssrc : N).
End rtcp.
Export rtcp.

(** ** Constants *)

Definition placeholderDataChannel : string := "_private".
Definition sdBatchSize : nat := 20.

(** ** Down tracks

    [*sfu.DownTrack] is compared by pointer in [removeDownTrack], so a handle
    is an address. The objects live outside the participant and change under
    other goroutines; a routine that reads them takes the heap it sees. *)

Definition DownTrackPtr := positive.

Module sfu.
(** Modelled from the spec: package sfu is not among the sources. A down
    track "exposes whether its media binding has completed, and on-demand
    generation of a sender report and of source-description chunks";
    [None] is the nil slice that the callers test for. *)
Record DownTrack := {
  IsBound : bool;
  CreateSenderReport : SenderReportFields;
  CreateSourceDescriptionChunks : option (list SourceDescriptionChunk)
}.
End sfu.
Export sfu.

Definition Heap := DownTrackPtr → DownTrack.

(** ** Published tracks *)

Inductive TrackKind := MediaTrackKind | DataTrackKind.

(** Modelled from the spec: the implementations of the [PublishedTrack]
    interface (MediaTrack, DataTrack) are not among the sources. A track has
    an "identity (track id)" and the "capability to accept/remove a subscriber
    session": it holds the ids of the sessions it accepted, and
    [track_refuses] is the error its [AddSubscriber] returns for a session
    ([None] when it accepts). *)
Record PublishedTrack := {
  track_ID : string;
  track_kind : TrackKind;
  track_subscribers : list string;
  track_refuses : string → option error
}.

(** The track once it has accepted the session [op]. *)
Definition subscribed (op : string) (t : PublishedTrack) : PublishedTrack :=
  {| track_ID := track_ID t; track_kind := track_kind t;
     track_subscribers := track_subscribers t ++ [op];
     track_refuses := track_refuses t |}.

(** [track.AddSubscriber(op)]: the track after the call and the error. *)
Definition track_AddSubscriber (t : PublishedTrack) (op : string) : PublishedTrack * option error :=
  match track_refuses t op with
  | Some e => (t, Some e)
  | None => (subscribed op t, None)
  end.

(** [NewDataTrack(p.id, dc)] and [NewMediaTrack(...)]: a track nobody is
    subscribed to yet; its id is generated, so it is given. *)
Definition NewDataTrack (trackId : string) (refuses : string → option error) : PublishedTrack :=
  {| track_ID := trackId; track_kind := DataTrackKind;
     track_subscribers := []; track_refuses := refuses |}.

Definition NewMediaTrack (trackId : string) (refuses : string → option error) : PublishedTrack :=
  {| track_ID := trackId; track_kind := MediaTrackKind;
     track_subscribers := []; track_refuses := refuses |}.

(** ** Signaling messages and the trace *)

Inductive SignalResponse :=
| SignalResponse_Answer (sd : SessionDescription)
| SignalResponse_Negotiate (sd : SessionDescription)
| SignalResponse_TrackPublished (trackId : string) (kind : TrackKind).

Inductive LogLevel := Debugw | Errorw.

Inductive Event :=
| EvLog (level : LogLevel) (msg : string) (err : option error)
| EvLock
| EvUnlock
| EvRLock
| EvRUnlock
| EvSetRemoteDescription (sd : SessionDescription)
| EvCreateAnswer
| EvSetLocalDescription (sd : SessionDescription)
| EvOnNegotiationNeeded
| EvWriteRTCP (pkts : list Packet)
| EvPeerConnClose
| EvWriteResponse (msg : SignalResponse)
| EvCloseChan
| EvCancel
| EvGoOnStateChange (oldState : ParticipantInfo_State)
| EvOnClose
| EvGoOnTrackPublished (trackId : string)
| EvTracksStore (trackId : string)
| EvTrackStart (trackId : string)
| EvTrackAddSubscriber (trackId : string) (op : string)
| EvOnBind (dt : DownTrackPtr)
| EvGo (routine : string)
| EvSleep (ms : Z).

(** The transport writes of a trace, in order. *)
Fixpoint writes (evs : list Event) : list (list Packet) :=
  match evs with
  | [] => []
  | EvWriteRTCP pkts :: rest => pkts :: writes rest
  | _ :: rest => writes rest
  end.

(** The sleeps of a trace, in order. *)
Fixpoint sleeps (evs : list Event) : list Z :=
  match evs with
  | [] => []
  | EvSleep ms :: rest => ms :: sleeps rest
  | _ :: rest => sleeps rest
  end.

(** The writes and the sleeps of a trace, as they alternate. *)
Fixpoint timeline (evs : list Event) : list Event :=
  match evs with
  | [] => []
  | EvWriteRTCP pkts :: rest => EvWriteRTCP pkts :: timeline rest
  | EvSleep ms :: rest => EvSleep ms :: timeline rest
  | _ :: rest => timeline rest
  end.

(** The errors among the results of a series of calls. *)
Definition errors_of (results : list (option error)) : list error :=
  omap (λ r, r) results.

(** The errors a trace logs. *)
Fixpoint logged (evs : list Event) : list error :=
  match evs with
  | [] => []
  | EvLog _ _ (Some e) :: rest => e :: logged rest
  | _ :: rest => logged rest
  end.

(** The registry keys of the tracks asked to accept a subscriber, in order. *)
Fixpoint attempts (evs : list Event) : list string :=
  match evs with
  | [] => []
  | EvTrackAddSubscriber tid _ :: rest => tid :: attempts rest
  | _ :: rest => attempts rest
  end.

(** How often [Start] is called on the track [tid] in a trace. *)
Fixpoint starts (tid : string) (evs : list Event) : nat :=
  match evs with
  | [] => 0
  | EvTrackStart t :: rest => (if decide (t = tid) then 1 else 0) + starts tid rest
  | _ :: rest => starts tid rest
  end.

(** ** The collaborators' interfaces *)

Class PeerConnection (T : Type) := {
  pc_SetRemoteDescription : SessionDescription → T → option error * T;
  pc_CreateAnswer : T → (SessionDescription * option error) * T;
  pc_SetLocalDescription : SessionDescription → T → option error * T;
  pc_OnNegotiationNeeded : T → T;
  pc_WriteRTCP : list Packet → T → option error * T;
  pc_Close : T → option error * T
}.

Class SignalConnection (S : Type) := {
  sc_WriteResponse : SignalResponse → S → option error * S
}.

(** ** The outbound RTCP queue: [chan []rtcp.Packet] *)

Record Chan := {
  chan_buf : list (list Packet);
  chan_closed : bool;
  chan_cap : nat
}.

Definition make_chan (capacity : nat) : Chan :=
  {| chan_buf := []; chan_closed := false; chan_cap := capacity |}.

(** ** Outcomes of a routine

    [Done]: it returned. [Panic]: the goroutine panicked. [Blocked]: it waits
    on the queue. [OutOfFuel]: it is still running when the bound on loop
    iterations given to the model is used up. *)

Inductive Outcome (A : Type) :=
| Done (a : A)
| Panic (msg : string)
| Blocked
| OutOfFuel.
Arguments Done {A} a.
Arguments Panic {A} msg.
Arguments Blocked {A}.
Arguments OutOfFuel {A}.

Section Session.
Context {T S : Type} `{!PeerConnection T} `{!SignalConnection S}.

Record Participant := {
  id : string;
  name : string;
  peerConn : T;
  sigConn : S;
  ctxErr : option error;                        (* ctx.Err() *)
  state : ParticipantInfo_State;
  rtcpCh : Chan;
  downTracks : gmap string (list DownTrackPtr);
  tracks : gmap string PublishedTrack;
  once : bool;                                  (* once.Do has run *)
  OnTrackPublished : bool;                      (* != nil *)
  OnStateChange : bool;
  OnClose : bool
}.

Definition set_peerConn (t : T) (p : Participant) : Participant :=
  {| id := id p; name := name p; peerConn := t; sigConn := sigConn p;
     ctxErr := ctxErr p; state := state p; rtcpCh := rtcpCh p;
     downTracks := downTracks p; tracks := tracks p; once := once p;
     OnTrackPublished := OnTrackPublished p; OnStateChange := OnStateChange p;
     OnClose := OnClose p |}.

Definition set_sigConn (s : S) (p : Participant) : Participant :=
  {| id := id p; name := name p; peerConn := peerConn p; sigConn := s;
     ctxErr := ctxErr p; state := state p; rtcpCh := rtcpCh p;
     downTracks := downTracks p; tracks := tracks p; once := once p;
     OnTrackPublished := OnTrackPublished p; OnStateChange := OnStateChange p;
     OnClose := OnClose p |}.

Definition set_ctxErr (e : option error) (p : Participant) : Participant :=
  {| id := id p; name := name p; peerConn := peerConn p; sigConn := sigConn p;
     ctxErr := e; state := state p; rtcpCh := rtcpCh p;
     downTracks := downTracks p; tracks := tracks p; once := once p;
     OnTrackPublished := OnTrackPublished p; OnStateChange := OnStateChange p;
     OnClose := OnClose p |}.

Definition set_state (s : ParticipantInfo_State) (p : Participant) : Participant :=
  {| id := id p; name := name p; peerConn := peerConn p; sigConn := sigConn p;
     ctxErr := ctxErr p; state := s; rtcpCh := rtcpCh p;
     downTracks := downTracks p; tracks := tracks p; once := once p;
     OnTrackPublished := OnTrackPublished p; OnStateChange := OnStateChange p;
     OnClose := OnClose p |}.

Definition set_rtcpCh (c : Chan) (p : Participant) : Participant :=
  {| id := id p; name := name p; peerConn := peerConn p; sigConn := sigConn p;
     ctxErr := ctxErr p; state := state p; rtcpCh := c;
     downTracks := downTracks p; tracks := tracks p; once := once p;
     OnTrackPublished := OnTrackPublished p; OnStateChange := OnStateChange p;
     OnClose := OnClose p |}.

Definition set_downTracks (d : gmap string (list DownTrackPtr)) (p : Participant) : Participant :=
  {| id := id p; name := name p; peerConn := peerConn p; sigConn := sigConn p;
     ctxErr := ctxErr p; state := state p; rtcpCh := rtcpCh p;
     downTracks := d; tracks := tracks p; once := once p;
     OnTrackPublished := OnTrackPublished p; OnStateChange := OnStateChange p;
     OnClose := OnClose p |}.

Definition set_tracks (m : gmap string PublishedTrack) (p : Participant) : Participant :=
  {| id := id p; name := name p; peerConn := peerConn p; sigConn := sigConn p;
     ctxErr := ctxErr p; state := state p; rtcpCh := rtcpCh p;
     downTracks := downTracks p; tracks := m; once := once p;
     OnTrackPublished := OnTrackPublished p; OnStateChange := OnStateChange p;
     OnClose := OnClose p |}.

Definition set_once (b : bool) (p : Participant) : Participant :=
  {| id := id p; name := name p; peerConn := peerConn p; sigConn := sigConn p;
     ctxErr := ctxErr p; state := state p; rtcpCh := rtcpCh p;
     downTracks := downTracks p; tracks := tracks p; once := b;
     OnTrackPublished := OnTrackPublished p; OnStateChange := OnStateChange p;
     OnClose := OnClose p |}.

(** The three observers registered, as an embedding application does after
    [NewParticipant]. *)
Definition with_observers (p : Participant) : Participant :=
  {| id := id p; name := name p; peerConn := peerConn p; sigConn := sigConn p;
     ctxErr := ctxErr p; state := state p; rtcpCh := rtcpCh p;
     downTracks := downTracks p; tracks := tracks p; once := once p;
     OnTrackPublished := true; OnStateChange := true; OnClose := true |}.

(** ** The monad of a method: participant in, outcome, participant and trace out *)

Definition Go (A : Type) : Type := Participant → Outcome A * Participant * list Event.

(** The result, the participant and the trace of a run. *)
Definition outcome {A} (r : Outcome A * Participant * list Event) : Outcome A := r.1.1.
Definition after {A} (r : Outcome A * Participant * list Event) : Participant := r.1.2.
Definition trace {A} (r : Outcome A * Participant * list Event) : list Event := r.2.

Definition ret {A} (a : A) : Go A := λ p, (Done a, p, []).

(** Sequencing: what follows a call runs only when the call returned. *)
Definition bind {A B} (m : Go A) (k : A → Go B) : Go B :=
  λ p,
    match m p with
    | (Done a, p1, e1) =>
        match k a p1 with
        | (o, p2, e2) => (o, p2, e1 ++ e2)
        end
    | (Panic msg, p1, e1) => (Panic msg, p1, e1)
    | (Blocked, p1, e1) => (Blocked, p1, e1)
    | (OutOfFuel, p1, e1) => (OutOfFuel, p1, e1)
    end.

Definition emit (e : Event) : Go unit := λ p, (Done tt, p, [e]).
Definition get : Go Participant := λ p, (Done p, p, []).
Definition modify (f : Participant → Participant) : Go unit := λ p, (Done tt, f p, []).
Definition panic {A} (msg : string) : Go A := λ p, (Panic msg, p, []).
Definition blocked {A} : Go A := λ p, (Blocked, p, []).
Definition out_of_fuel {A} : Go A := λ p, (OutOfFuel, p, []).

End Session.

Arguments Participant T S : clear implicits.

Notation "x <~ m ;;; k" := (bind m (λ x, k))
  (at level 100, m at next level, right associativity, only parsing).
Notation "m ;;; k" := (bind m (λ _, k))
  (at level 100, right associativity, only parsing).

Section Methods.
Context {T S : Type} `{!PeerConnection T} `{!SignalConnection S}.

Abbreviation Participant := (Participant T S).
Abbreviation Go := (@Go T S).

(** *** Calls on the collaborators *)

Definition peerConn_SetRemoteDescription (sd : SessionDescription) : Go (option error) :=
  λ p, let r := pc_SetRemoteDescription sd (peerConn p) in
       (Done r.1, set_peerConn r.2 p, [EvSetRemoteDescription sd]).

Definition peerConn_CreateAnswer : Go (SessionDescription * option error) :=
  λ p, let r := pc_CreateAnswer (peerConn p) in
       (Done r.1, set_peerConn r.2 p, [EvCreateAnswer]).

Definition peerConn_SetLocalDescription (sd : SessionDescription) : Go (option error) :=
  λ p, let r := pc_SetLocalDescription sd (peerConn p) in
       (Done r.1, set_peerConn r.2 p, [EvSetLocalDescription sd]).

Definition peerConn_OnNegotiationNeeded : Go unit :=
  λ p, (Done tt, set_peerConn (pc_OnNegotiationNeeded (peerConn p)) p, [EvOnNegotiationNeeded]).

Definition peerConn_WriteRTCP (pkts : list Packet) : Go (option error) :=
  λ p, let r := pc_WriteRTCP pkts (peerConn p) in
       (Done r.1, set_peerConn r.2 p, [EvWriteRTCP pkts]).

Definition peerConn_Close : Go (option error) :=
  λ p, let r := pc_Close (peerConn p) in
       (Done r.1, set_peerConn r.2 p, [EvPeerConnClose]).

Definition sigConn_WriteResponse (msg : SignalResponse) : Go (option error) :=
  λ p, let r := sc_WriteResponse msg (sigConn p) in
       (Done r.1, set_sigConn r.2 p, [EvWriteResponse msg]).

Definition logw (level : LogLevel) (msg : string) (err : option error) : Go unit :=
  emit (EvLog level msg err).

Definition when (b : bool) (m : Go unit) : Go unit := if b then m else ret tt.

(** *** The queue *)

(** [close(p.rtcpCh)] *)
Definition close_rtcpCh : Go unit :=
  p <~ get ;;;
  if chan_closed (rtcpCh p) then panic "close of closed channel"
  else
    modify (set_rtcpCh {| chan_buf := chan_buf (rtcpCh p); chan_closed := true;
                          chan_cap := chan_cap (rtcpCh p) |}) ;;;
    emit EvCloseChan.

(** [p.rtcpCh <- pkts], what the producers of feedback do. *)
Definition send_rtcpCh (pkts : list Packet) : Go unit :=
  p <~ get ;;;
  if chan_closed (rtcpCh p) then panic "send on closed channel"
  else if decide (length (chan_buf (rtcpCh p)) < chan_cap (rtcpCh p)) then
    modify (set_rtcpCh {| chan_buf := chan_buf (rtcpCh p) ++ [pkts]; chan_closed := false;
                          chan_cap := chan_cap (rtcpCh p) |})
  else blocked.

(** *** NewParticipant *)

Definition NewParticipant (pc : T) (sc : S) (name guid : string) : Participant :=
  {| id := guid; name := name; peerConn := pc; sigConn := sc;
     ctxErr := None; state := ParticipantInfo_JOINING;
     rtcpCh := make_chan 10;
     downTracks := ∅; tracks := ∅; once := false;
     OnTrackPublished := false; OnStateChange := false; OnClose := false |}.

(** *** updateState *)

Definition updateState (st : ParticipantInfo_State) : Go unit :=
  p <~ get ;;;
  if decide (st = state p) then ret tt
  else
    let oldState := state p in
    modify (set_state st) ;;;
    when (OnStateChange p) (emit (EvGoOnStateChange oldState)).


(** The handler given to [pc.OnICEConnectionStateChange]. *)
Definition onICEConnectionStateChange (st : ICEConnectionState) : Go unit :=
  logw Debugw "ICE connection state changed" None ;;;
  if decide (st = ICEConnectionStateConnected)
  then updateState ParticipantInfo_ACTIVE
  else ret tt.

(** *** Answer *)

(** What the collaborators answer to the calls of [Answer], each from the
    state the call before left. *)
Definition Answer_SetRemoteDescription (p : Participant) (sdp : SessionDescription)
    : option error * T :=
  pc_SetRemoteDescription sdp (peerConn p).

Definition Answer_CreateAnswer (p : Participant) (sdp : SessionDescription)
    : (SessionDescription * option error) * T :=
  pc_CreateAnswer (Answer_SetRemoteDescription p sdp).2.

Definition Answer_SetLocalDescription (p : Participant) (sdp : SessionDescription)
    : option error * T :=
  pc_SetLocalDescription (Answer_CreateAnswer p sdp).1.1 (Answer_CreateAnswer p sdp).2.

Definition Answer_WriteResponse (p : Participant) (sdp : SessionDescription)
    : option error * S :=
  sc_WriteResponse (SignalResponse_Answer (Answer_CreateAnswer p sdp).1.1) (sigConn p).

Definition Answer (sdp : SessionDescription) : Go (SessionDescription * option error) :=
  err <~ peerConn_SetRemoteDescription sdp ;;;
  match err with
  | Some e => ret (zeroSessionDescription, Some e)
  | None =>
      r <~ peerConn_CreateAnswer ;;;
      let answer := r.1 in
      match r.2 with
      | Some e => ret (answer, Some (errors_Wrap e "could not create answer"))
      | None =>
          err <~ peerConn_SetLocalDescription answer ;;;
          match err with
          | Some e => ret (answer, Some (errors_Wrap e "could not set local description"))
          | None =>
              peerConn_OnNegotiationNeeded ;;;
              err <~ sigConn_WriteResponse (SignalResponse_Answer answer) ;;;
              p <~ get ;;;
              (if decide (state p = ParticipantInfo_JOINING)
               then updateState ParticipantInfo_JOINED
               else ret tt) ;;;
              ret (answer, err)
          end
      end
  end.

(** *** Start and Close *)

Definition Start : Go unit :=
  p <~ get ;;;
  if once p then ret tt
  else
    modify (set_once true) ;;;
    emit (EvGo "rtcpSendWorker") ;;;
    emit (EvGo "downTracksRTCPWorker").

(** [p.cancel()] *)
Definition cancel : Go unit :=
  p <~ get ;;;
  (match ctxErr p with
   | Some _ => ret tt
   | None => modify (set_ctxErr (Some context_Canceled))
   end) ;;;
  emit EvCancel.

Definition Close : Go (option error) :=
  p <~ get ;;;
  match ctxErr p with
  | Some e => ret (Some e)
  | None =>
      close_rtcpCh ;;;
      updateState ParticipantInfo_DISCONNECTED ;;;
      when (OnClose p) (emit EvOnClose) ;;;
      cancel ;;;
      peerConn_Close
  end.

(** Only [Close] closes the queue, and it cancels the context in the same
    call: a queue that is closed belongs to a cancelled session. *)
Definition queue_guarded (p : Participant) : Prop :=
  chan_closed (rtcpCh p) = true → ctxErr p ≠ None.

(** The participant a successful [Close] leaves behind. *)
Definition closed (p : Participant) : Participant :=
  set_peerConn (pc_Close (peerConn p)).2
    (set_ctxErr (Some context_Canceled)
       (set_state ParticipantInfo_DISCONNECTED
          (set_rtcpCh {| chan_buf := chan_buf (rtcpCh p); chan_closed := true;
                         chan_cap := chan_cap (rtcpCh p) |} p))).

(** The notification of a change of state from [old] to [st]. *)
Definition notification (p : Participant) (st : ParticipantInfo_State) : list Event :=
  if decide (st = state p) then []
  else if OnStateChange p then [EvGoOnStateChange (state p)] else [].

(** *** AddSubscriber

    [for _, track := range p.tracks] visits the entries of the map in an
    order the runtime chooses: [order] lists the keys as they are visited. *)

Definition range_of {V} (m : gmap string V) (order : list string) : Prop :=
  order ≡ₚ (map_to_list m).*1.

(** The track stored under [tid] accepts [op], if there is one. *)
Definition accepts (p : Participant) (op tid : string) : Prop :=
  ∀ track, tracks p !! tid = Some track → track_refuses track op = None.

(** The loop: the tracks are objects behind the map, so a call changes the
    track where it is stored; a key the map does not hold is not visited. *)
Fixpoint AddSubscriber_range (op : string) (order : list string) : Go (option error) :=
  match order with
  | [] => ret None
  | tid :: rest =>
      p <~ get ;;;
      match tracks p !! tid with
      | None => AddSubscriber_range op rest
      | Some track =>
          logw Debugw "subscribing to remoteTrack" None ;;;
          emit (EvTrackAddSubscriber tid op) ;;;
          let r := track_AddSubscriber track op in
          modify (set_tracks (<[tid := r.1]> (tracks p))) ;;;
          match r.2 with
          | Some e => ret (Some e)
          | None => AddSubscriber_range op rest
          end
      end
  end.

Definition AddSubscriber (op : string) (order : list string) : Go (option error) :=
  emit EvRLock ;;;
  r <~ AddSubscriber_range op order ;;;
  emit EvRUnlock ;;;
  ret r.

(** *** Publication *)

(** [p.tracks[id] = track] *)
Definition tracks_store (tid : string) (track : PublishedTrack) : Go unit :=
  p <~ get ;;;
  modify (set_tracks (<[tid := track]> (tracks p))) ;;;
  emit (EvTracksStore tid).

(** [track.Start()] *)
Definition track_Start (track : PublishedTrack) : Go unit :=
  emit (EvTrackStart (track_ID track)).

Definition handleTrackPublished (track : PublishedTrack) : Go unit :=
  emit EvLock ;;;
  tracks_store (track_ID track) track ;;;
  emit EvUnlock ;;;
  track_Start track ;;;
  _ <~ sigConn_WriteResponse (SignalResponse_TrackPublished (track_ID track) (track_kind track)) ;;;
  p <~ get ;;;
  when (OnTrackPublished p) (emit (EvGoOnTrackPublished (track_ID track))).

(** The new track's id and its subscription policy come from
    [NewMediaTrack], so they are given. *)
Definition onMediaTrack (trackId : string) (refuses : string → option error) : Go unit :=
  logw Debugw "remoteTrack added" None ;;;
  let mt := NewMediaTrack trackId refuses in
  handleTrackPublished mt.

Definition onDataChannel (dc : DataChannel) (trackId : string)
    (refuses : string → option error) : Go unit :=
  if decide (dc_Label dc = placeholderDataChannel) then ret tt
  else
    logw Debugw "dataChannel added" None ;;;
    let dt := NewDataTrack trackId refuses in
    emit EvLock ;;;
    tracks_store (track_ID dt) dt ;;;
    emit EvUnlock ;;;
    track_Start dt ;;;
    handleTrackPublished dt.

(** *** The down-track registry *)

Definition addDownTrack (streamId : string) (dt : DownTrackPtr) : Go unit :=
  emit EvLock ;;;
  p <~ get ;;;
  modify (set_downTracks (<[streamId := (downTracks p !!! streamId) ++ [dt]]> (downTracks p))) ;;;
  emit EvUnlock ;;;
  emit (EvOnBind dt).

(** The loop of [removeDownTrack]: [newTracks] grows by the handles that
    differ from [dt]. *)
Definition removeDownTrack_loop (dt : DownTrackPtr) (tracks : list DownTrackPtr) : list DownTrackPtr :=
  fold_left (λ newTracks track,
               if decide (track ≠ dt) then newTracks ++ [track] else newTracks)
            tracks [].

Definition removeDownTrack (streamId : string) (dt : DownTrackPtr) : Go unit :=
  emit EvLock ;;;
  p <~ get ;;;
  let tracks := downTracks p !!! streamId in
  let newTracks := removeDownTrack_loop dt tracks in
  modify (set_downTracks (<[streamId := newTracks]> (downTracks p))) ;;;
  emit EvUnlock.

(** *** The binding burst *)

(** One turn of the loops over down tracks: an unbound one is skipped, a nil
    slice of chunks adds nothing. *)
Definition add_chunks (h : Heap) (sd : list SourceDescriptionChunk) (dt : DownTrackPtr)
    : list SourceDescriptionChunk :=
  if negb (IsBound (h dt)) then sd
  else match CreateSourceDescriptionChunks (h dt) with
       | Some chunks => sd ++ chunks
       | None => sd
       end.

(** What the loops over down tracks gather, said without a loop: the
    chunks of the bound down tracks, in the order of the sequence. *)
Definition bound (h : Heap) (dts : list DownTrackPtr) : list DownTrackPtr :=
  filter (λ dt, IsBound (h dt) = true) dts.

Definition chunks_of (h : Heap) (dt : DownTrackPtr) : list SourceDescriptionChunk :=
  default [] (CreateSourceDescriptionChunks (h dt)).

Definition bound_chunks (h : Heap) (dts : list DownTrackPtr) : list SourceDescriptionChunk :=
  concat (map (chunks_of h) (bound h dts)).

(** What the transport answers to [n] writes of the same packets in a row. *)
Fixpoint write_results (n : nat) (pkts : list Packet) (t : T) : list (option error) :=
  match n with
  | O => []
  | Datatypes.S n' =>
      let r := pc_WriteRTCP pkts t in
      r.1 :: write_results n' pkts r.2
  end.

(** The goroutine of the burst; [i] stays below 7, far from the bounds of
    Go's int. *)
Fixpoint bindingReports_loop (fuel : nat) (batch : list Packet) (i : Z) : Go unit :=
  match fuel with
  | O => out_of_fuel
  | Datatypes.S fuel' =>
      err <~ peerConn_WriteRTCP batch ;;;
      match err with
      | Some e => logw Debugw "Sending track binding reports" (Some e)
      | None => ret tt
      end ;;;
      if (i >? 5)%Z then ret tt
      else
        emit (EvSleep 20) ;;;
        bindingReports_loop fuel' batch (i + 1)%Z
  end.

Definition scheduleDownTrackBindingReports (h : Heap) (streamId : string) (fuel : nat) : Go unit :=
  emit EvRLock ;;;
  p <~ get ;;;
  let dts := downTracks p !!! streamId in
  let sd := fold_left (add_chunks h) dts [] in
  emit EvRUnlock ;;;
  let pkts := [SourceDescription sd] in
  emit (EvGo "bindingReports") ;;;
  bindingReports_loop fuel pkts 0%Z.

(** *** The periodic report worker *)

Definition add_reports (h : Heap) (acc : list Packet * list SourceDescriptionChunk)
    (dt : DownTrackPtr) : list Packet * list SourceDescriptionChunk :=
  if negb (IsBound (h dt)) then acc
  else (acc.1 ++ [SenderReport (CreateSenderReport (h dt))],
        match CreateSourceDescriptionChunks (h dt) with
        | Some chunks => acc.2 ++ chunks
        | None => acc.2
        end).

(** The two nested loops under the read lock; [order] is the order in which
    [range p.downTracks] visits the stream ids. *)
Definition collect_reports (h : Heap) (m : gmap string (list DownTrackPtr)) (order : list string)
    : list Packet * list SourceDescriptionChunk :=
  fold_left (λ acc streamId, fold_left (add_reports h) (m !!! streamId) acc) order ([], []).

(** The same, said without loops. [visited] are the down tracks in the order
    the two loops meet them. *)
Definition visited (m : gmap string (list DownTrackPtr)) (order : list string)
    : list DownTrackPtr :=
  concat (map (λ streamId, m !!! streamId) order).

Definition sender_reports (h : Heap) (dts : list DownTrackPtr) : list Packet :=
  map (λ dt, SenderReport (CreateSenderReport (h dt))) (bound h dts).

(** All the down tracks of the registry, stream after stream. *)
Definition all_downTracks (m : gmap string (list DownTrackPtr)) : list DownTrackPtr :=
  concat (map_to_list m).*2.

(** The chunks cut into batches of [sdBatchSize], the last one shorter when
    the count is not a multiple. *)
Fixpoint sd_batches (fuel : nat) (sd : list SourceDescriptionChunk)
    : list (list SourceDescriptionChunk) :=
  match fuel, sd with
  | O, _ | _, [] => []
  | Datatypes.S fuel', _ => take sdBatchSize sd :: sd_batches fuel' (drop sdBatchSize sd)
  end.

Definition batches (sd : list SourceDescriptionChunk) : list (list SourceDescriptionChunk) :=
  sd_batches (length sd) sd.

(** The compound packets of a tick: the first carries [pkts] and the first
    batch, the others one batch each. *)
Definition compound (pkts : list Packet) (bs : list (list SourceDescriptionChunk))
    : list (list Packet) :=
  match bs with
  | [] => []
  | b :: rest => (pkts ++ [SourceDescription b]) :: map (λ b, [SourceDescription b]) rest
  end.

(** [a / b] rounded up. *)
Definition ceil_div (a b : nat) : nat := (a + (b - 1)) / b.

(** A set [I] of transport states that writes do not leave, and in which no
    write is answered with [io.EOF] or [io.ErrClosedPipe]. *)
Definition stays_open (I : T → Prop) : Prop :=
  ∀ (out : list Packet) (t : T), I t →
    I (pc_WriteRTCP out t).2
    ∧ ∀ e, (pc_WriteRTCP out t).1 = Some e → is_transport_closed e = false.

(** How a turn of the worker ends: it goes on to the next tick, or the
    worker returns. *)
Inductive Flow := NextTick | Returned.

(** [for len(sd) > 0 { ... }] *)
Fixpoint sendBatches (fuel : nat) (pkts : list Packet) (sd : list SourceDescriptionChunk) : Go Flow :=
  match fuel with
  | O => out_of_fuel
  | Datatypes.S fuel' =>
      if decide (0 < length sd) then
        let size := length sd in
        let size := if decide (sdBatchSize < size) then sdBatchSize else size in
        let batch := take size sd in
        let sd := drop size sd in
        let pkts := pkts ++ [SourceDescription batch] in
        err <~ peerConn_WriteRTCP pkts ;;;
        match err with
        | Some e =>
            if is_transport_closed e then ret Returned
            else
              logw Errorw "could not send downtrack reports" (Some e) ;;;
              sendBatches fuel' [] sd
        | None => sendBatches fuel' [] sd
        end
      else ret NextTick
  end.

Definition downTracksRTCPWorker_tick (h : Heap) (order : list string) (fuel : nat) : Go Flow :=
  emit (EvSleep 5000) ;;;
  emit EvRLock ;;;
  p <~ get ;;;
  let r := collect_reports h (downTracks p) order in
  emit EvRUnlock ;;;
  sendBatches fuel r.1 r.2.

(** The worker over the ticks it gets to run: every tick sees its own heap
    and map order. It is [Done] when the worker returned. *)
Fixpoint downTracksRTCPWorker (ticks : list (Heap * list string)) (fuel : nat) : Go unit :=
  match ticks with
  | [] => out_of_fuel
  | (h, order) :: rest =>
      flow <~ downTracksRTCPWorker_tick h order fuel ;;;
      match flow with
      | Returned => ret tt
      | NextTick => downTracksRTCPWorker rest fuel
      end
  end.

(** *** The immediate relay worker: [for pkts := range p.rtcpCh] *)

Fixpoint emit_all (evs : list Event) : Go unit :=
  match evs with
  | [] => ret tt
  | e :: rest => emit e ;;; emit_all rest
  end.

Fixpoint rtcpSendWorker (fuel : nat) : Go unit :=
  match fuel with
  | O => out_of_fuel
  | Datatypes.S fuel' =>
      p <~ get ;;;
      match chan_buf (rtcpCh p) with
      | pkts :: rest =>
          modify (set_rtcpCh {| chan_buf := rest; chan_closed := chan_closed (rtcpCh p);
                                chan_cap := chan_cap (rtcpCh p) |}) ;;;
          emit_all (map (λ _, EvLog Debugw "writing RTCP" None) pkts) ;;;
          err <~ peerConn_WriteRTCP pkts ;;;
          match err with
          | Some e => logw Errorw "could not write RTCP to participant" (Some e)
          | None => ret tt
          end ;;;
          rtcpSendWorker fuel'
      | [] => if chan_closed (rtcpCh p) then ret tt else blocked
      end
  end.

(** *** The callers of the state setter

    [updateState] has three callers: the end of [Answer], the handler of
    ICE connection changes and [Close]. *)



End Methods.

(** ** The rest of the session

    The methods the sections above leave out, as far as the trace and the
    messages above can tell them: [SetRemoteDescription], [HandleNegotiate],
    [RemoveSubscriber] and [ToProto]. The handlers that trickle ICE candidates
    and send renegotiation offers are left out with [AddICECandidate],
    [SendJoinResponse] and [SendParticipantUpdate]. *)

#[global] Instance SDPType_eq_dec : EqDecision SDPType.
Proof. solve_decision. Defined.

(** Modelled from the spec: the implementations of [PublishedTrack] are not
    among the sources. A track has the "capability to accept/remove a
    subscriber session": removing drops the session's id from the ids the
    track holds, and returns nothing. *)
Definition unsubscribed (peerId : string) (t : PublishedTrack) : PublishedTrack :=
  {| track_ID := track_ID t; track_kind := track_kind t;
     track_subscribers := filter (λ s, s ≠ peerId) (track_subscribers t);
     track_refuses := track_refuses t |}.

(** [track.RemoveSubscriber(peerId)] *)
Definition track_RemoveSubscriber (t : PublishedTrack) (peerId : string) : PublishedTrack :=
  unsubscribed peerId t.

(** [livekit.ParticipantInfo], over the wire descriptor of a track. *)
Record ParticipantInfo (TrackInfo : Type) := {
  Sid : string;
  Name : string;
  State : ParticipantInfo_State;
  Tracks : list TrackInfo
}.
Arguments Sid {TrackInfo} _.
Arguments Name {TrackInfo} _.
Arguments State {TrackInfo} _.
Arguments Tracks {TrackInfo} _.

(** *** The session lock

    Who holds [p.lock] along a trace, and what may happen meanwhile: a store
    in the registry of tracks needs the write lock, and no call on the
    transport or on the signaling channel and no sleep happens under the
    lock. *)





Section MoreMethods.
Context {T S : Type} `{!PeerConnection T} `{!SignalConnection S}.

Abbreviation Participant := (Participant T S).
Abbreviation Go := (@Go T S).

(** *** SetRemoteDescription and HandleNegotiate *)

Definition SetRemoteDescription (sdp : SessionDescription) : Go (option error) :=
  logw Debugw "setting remote description" None ;;;
  err <~ peerConn_SetRemoteDescription sdp ;;;
  match err with
  | Some e => ret (Some (errors_Wrap e "could not set remote description"))
  | None => ret None
  end.

Definition HandleNegotiate (sd : SessionDescription) : Go (option error) :=
  err <~ peerConn_SetRemoteDescription sd ;;;
  match err with
  | Some e => ret (Some (errors_Wrap e "could not set remote description"))
  | None =>
      if decide (sd_Type sd = SDPTypeOffer) then
        r <~ peerConn_CreateAnswer ;;;
        let answer := r.1 in
        match r.2 with
        | Some e => ret (Some (errors_Wrap e "could not create answer"))
        | None =>
            err <~ peerConn_SetLocalDescription answer ;;;
            match err with
            | Some e => ret (Some (errors_Wrap e "could not set local description"))
            | None => sigConn_WriteResponse (SignalResponse_Negotiate answer)
            end
        end
      else ret None
  end.

(** The signaling messages of a trace, in order. *)
Fixpoint responses (evs : list Event) : list SignalResponse :=
  match evs with
  | [] => []
  | EvWriteResponse msg :: rest => msg :: responses rest
  | _ :: rest => responses rest
  end.

(** *** RemoveSubscriber *)

(** The loop: as in [AddSubscriber_range], the call changes the track where
    it is stored. No call returns an error, so the loop sees every track. *)
Fixpoint RemoveSubscriber_range (peerId : string) (order : list string) : Go unit :=
  match order with
  | [] => ret tt
  | tid :: rest =>
      p <~ get ;;;
      match tracks p !! tid with
      | None => RemoveSubscriber_range peerId rest
      | Some track =>
          modify (set_tracks (<[tid := track_RemoveSubscriber track peerId]> (tracks p))) ;;;
          RemoveSubscriber_range peerId rest
      end
  end.

Definition RemoveSubscriber (peerId : string) (order : list string) : Go unit :=
  emit EvRLock ;;;
  RemoveSubscriber_range peerId order ;;;
  emit EvRUnlock.

(** Nobody holds [peerId] in the registry. *)
Definition nobody_holds (peerId : string) (p : Participant) : Prop :=
  ∀ tid track, tracks p !! tid = Some track → peerId ∉ track_subscribers track.

(** *** ToProto

    [TrackToProto] is not among the sources: it is given. [order] is the
    order in which [range p.tracks] visits the keys. *)

Definition ToProto {TrackInfo : Type} (TrackToProto : PublishedTrack → TrackInfo)
    (order : list string) (p : Participant) : ParticipantInfo TrackInfo :=
  {| Sid := id p; Name := name p; State := state p;
     Tracks := fold_left (λ tracks_ tid,
                            match tracks p !! tid with
                            | Some t => tracks_ ++ [TrackToProto t]
                            | None => tracks_
                            end) order [] |}.

(** *** Publications in a row *)

Inductive Publication :=
| MediaPublication (trackId : string) (refuses : string → option error)
| DataPublication (dc : DataChannel) (trackId : string) (refuses : string → option error).

Definition publish (pub : Publication) : Go unit :=
  match pub with
  | MediaPublication tid refuses => onMediaTrack tid refuses
  | DataPublication dc tid refuses => onDataChannel dc tid refuses
  end.

Fixpoint publish_all (pubs : list Publication) : Go unit :=
  match pubs with
  | [] => ret tt
  | pub :: rest => publish pub ;;; publish_all rest
  end.

(** The track a publication registers, if it registers one. *)
Definition published (pub : Publication) : option PublishedTrack :=
  match pub with
  | MediaPublication tid refuses => Some (NewMediaTrack tid refuses)
  | DataPublication dc tid refuses =>
      if decide (dc_Label dc = placeholderDataChannel) then None
      else Some (NewDataTrack tid refuses)
  end.

(** The confirmation the publisher gets for a track. *)
Definition confirmation (t : PublishedTrack) : SignalResponse :=
  SignalResponse_TrackPublished (track_ID t) (track_kind t).

(** *** The relay worker's writes

    What the transport answers to the writes of the batches of [buf], one
    after another. *)
Fixpoint relay_results (buf : list (list Packet)) (t : T) : list (option error) :=
  match buf with
  | [] => []
  | pkts :: rest =>
      let r := pc_WriteRTCP pkts t in
      r.1 :: relay_results rest r.2
  end.

(** The transport after the writes of the batches of [buf]. *)
Fixpoint relay_transport (buf : list (list Packet)) (t : T) : T :=
  match buf with
  | [] => t
  | pkts :: rest => relay_transport rest (pc_WriteRTCP pkts t).2
  end.

(** The place of the first answer that says the transport is closed
    ([io.EOF] or [io.ErrClosedPipe]), if there is one. *)
Fixpoint closed_at (answers : list (option error)) : option nat :=
  match answers with
  | [] => None
  | Some e :: rest =>
      if is_transport_closed e then Some 0 else Datatypes.S <$> closed_at rest
  | None :: rest => Datatypes.S <$> closed_at rest
  end.



(** *** Every routine, and runs of them *)

Inductive Operation :=
| OpAnswer (sdp : SessionDescription)
| OpHandleNegotiate (sd : SessionDescription)
| OpSetRemoteDescription (sdp : SessionDescription)
| OpICEConnectionStateChange (st : ICEConnectionState)
| OpStart
| OpClose
| OpAddSubscriber (op : string) (order : list string)
| OpRemoveSubscriber (peerId : string) (order : list string)
| OpPublish (pub : Publication)
| OpAddDownTrack (streamId : string) (dt : DownTrackPtr)
| OpRemoveDownTrack (streamId : string) (dt : DownTrackPtr)
| OpBindingReports (h : Heap) (streamId : string) (fuel : nat)
| OpReportTick (h : Heap) (order : list string) (fuel : nat)
| OpRelay (fuel : nat)
| OpSendRTCP (pkts : list Packet).

Definition exec (o : Operation) : Go unit :=
  match o with
  | OpAnswer sdp => _ <~ Answer sdp ;;; ret tt
  | OpHandleNegotiate sd => _ <~ HandleNegotiate sd ;;; ret tt
  | OpSetRemoteDescription sdp => _ <~ SetRemoteDescription sdp ;;; ret tt
  | OpICEConnectionStateChange st => onICEConnectionStateChange st
  | OpStart => Start
  | OpClose => _ <~ Close ;;; ret tt
  | OpAddSubscriber op order => _ <~ AddSubscriber op order ;;; ret tt
  | OpRemoveSubscriber peerId order => RemoveSubscriber peerId order
  | OpPublish pub => publish pub
  | OpAddDownTrack streamId dt => addDownTrack streamId dt
  | OpRemoveDownTrack streamId dt => removeDownTrack streamId dt
  | OpBindingReports h streamId fuel => scheduleDownTrackBindingReports h streamId fuel
  | OpReportTick h order fuel => _ <~ downTracksRTCPWorker_tick h order fuel ;;; ret tt
  | OpRelay fuel => rtcpSendWorker fuel
  | OpSendRTCP pkts => send_rtcpCh pkts
  end.


(** The session after a run of routines, each left as it ended. *)
Fixpoint exec_all (ops : list Operation) (p : Participant) : Participant :=
  match ops with
  | [] => p
  | o :: rest => exec_all rest (after (exec o p))
  end.

(** Every track of the registry is stored under its own id. *)
Definition keyed (p : Participant) : Prop :=
  ∀ tid track, tracks p !! tid = Some track → track_ID track = tid.

(** What a session keeps through its life. *)
Record invariant (p : Participant) : Prop := {
  inv_queue : chan_closed (rtcpCh p) = true ↔ ctxErr p ≠ None;
  inv_cancel : ctxErr p = None ∨ ctxErr p = Some context_Canceled;
  inv_disconnected : state p = ParticipantInfo_DISCONNECTED → ctxErr p ≠ None;
  inv_capacity : length (chan_buf (rtcpCh p)) ≤ chan_cap (rtcpCh p);
  inv_keys : keyed p
}.

(** *** What a routine leaves alone, what it emits *)

(** [m] leaves [f] of the participant as it was, however it ends. *)
Definition keeps {A X} (f : Participant → X) (m : Go A) : Prop :=
  ∀ p, f (after (m p)) = f p.

(** [f] does not read what the setter [set] writes. *)
Definition ignores {V X} (f : Participant → X) (set : V → Participant → Participant) : Prop :=
  ∀ v p, f (set v p) = f p.


(** All of the participant but the two collaborators. *)
Definition core (p : Participant) :=
  (id p, name p, ctxErr p, state p, rtcpCh p, downTracks p, tracks p, once p,
   OnTrackPublished p, OnStateChange p, OnClose p).

(** Identity, context, state and queue. *)
Definition lifecycle (p : Participant) :=
  (id p, name p, ctxErr p, state p, rtcpCh p).

End MoreMethods.

(** ** Scripted collaborators

    A transport and a signaling channel that answer from a script, as the
    generated fakes of the test suite do: each call consumes the next scripted
    result, and answers nil once the script is used up. *)

Module rtcfakes.
Record FakePeerConnection := {
  SetRemoteDescriptionReturns : option error;
  CreateAnswerReturns : SessionDescription * option error;
  SetLocalDescriptionReturns : option error;
  WriteRTCPReturns : list (option error);
  CloseReturns : option error
}.

Definition WriteRTCP (pkts : list Packet) (t : FakePeerConnection) : option error * FakePeerConnection :=
  match WriteRTCPReturns t with
  | [] => (None, t)
  | r :: rest =>
      (r, {| SetRemoteDescriptionReturns := SetRemoteDescriptionReturns t;
             CreateAnswerReturns := CreateAnswerReturns t;
             SetLocalDescriptionReturns := SetLocalDescriptionReturns t;
             WriteRTCPReturns := rest;
             CloseReturns := CloseReturns t |})
  end.

#[global] Instance peerConnection : PeerConnection FakePeerConnection := {|
  pc_SetRemoteDescription := λ _ t, (SetRemoteDescriptionReturns t, t);
  pc_CreateAnswer := λ t, (CreateAnswerReturns t, t);
  pc_SetLocalDescription := λ _ t, (SetLocalDescriptionReturns t, t);
  pc_OnNegotiationNeeded := λ t, t;
  pc_WriteRTCP := WriteRTCP;
  pc_Close := λ t, (CloseReturns t, t)
|}.

Record FakeSignalConnection := { WriteResponseReturns : option error }.

#[global] Instance signalConnection : SignalConnection FakeSignalConnection := {|
  sc_WriteResponse := λ _ s, (WriteResponseReturns s, s)
|}.

Definition answer : SessionDescription := {| sd_Type := SDPTypeAnswer; sd_SDP := "v=0 answer" |}.
Definition offer : SessionDescription := {| sd_Type := SDPTypeOffer; sd_SDP := "v=0 offer" |}.

(** A transport on which every call succeeds, but for the scripted writes. *)
Definition pc (writeReturns : list (option error)) : FakePeerConnection :=
  {| SetRemoteDescriptionReturns := None;
     CreateAnswerReturns := (answer, None);
     SetLocalDescriptionReturns := None;
     WriteRTCPReturns := writeReturns;
     CloseReturns := None |}.

Definition sc : FakeSignalConnection := {| WriteResponseReturns := None |}.

Abbreviation Session := (Participant FakePeerConnection FakeSignalConnection).

Definition participant (writeReturns : list (option error)) : Session :=
  NewParticipant (pc writeReturns) sc "alice" "PA_alice".

(** A routine run against the scripted collaborators. *)
Definition run {A} (m : Go (T:=FakePeerConnection) (S:=FakeSignalConnection) A) (p : Session) :
    Outcome A * Session * list Event := m p.

(** A new session with its observers registered, and the same after [Close]. *)
Definition fresh : Session := with_observers (participant []).
Definition disconnected : Session := after (run Close fresh).

(** Sessions whose transport fails one step of the negotiation. *)
Definition rejecting_offer : Session :=
  NewParticipant
    {| SetRemoteDescriptionReturns := Some (errors_New "invalid offer");
       CreateAnswerReturns := (answer, None);
       SetLocalDescriptionReturns := None;
       WriteRTCPReturns := []; CloseReturns := None |} sc "alice" "PA_alice".

Definition failing_CreateAnswer : Session :=
  NewParticipant
    {| SetRemoteDescriptionReturns := None;
       CreateAnswerReturns := (zeroSessionDescription, Some (errors_New "no codecs"));
       SetLocalDescriptionReturns := None;
       WriteRTCPReturns := []; CloseReturns := None |} sc "alice" "PA_alice".

Definition failing_SetLocalDescription : Session :=
  NewParticipant
    {| SetRemoteDescriptionReturns := None;
       CreateAnswerReturns := (answer, None);
       SetLocalDescriptionReturns := Some (errors_New "wrong state");
       WriteRTCPReturns := []; CloseReturns := None |} sc "alice" "PA_alice".

(** A session that publishes three tracks; the second refuses "PA_bob". *)
Definition open_to_all : string → option error := λ _, None.
Definition closed_to_bob : string → option error :=
  λ op, if decide (op = "PA_bob") then Some (errors_New "no transceiver") else None.

Definition publishing : Session :=
  after (run (onMediaTrack "TR_audio" open_to_all ;;;
              onMediaTrack "TR_video" closed_to_bob ;;;
              onDataChannel {| dc_Label := "chat" |} "TR_chat" open_to_all) fresh).

(** Down tracks: all bound, each with its sender report; [chunks] per track. *)
Definition chunk (dt : DownTrackPtr) : SourceDescriptionChunk :=
  {| Source := Npos dt; Text := "cname" |}.

Definition heap (chunks : nat) : Heap :=
  λ dt, {| IsBound := true; CreateSenderReport := {| SSRC := Npos dt |};
           CreateSourceDescriptionChunks := Some (replicate chunks (chunk dt)) |}.

(** A heap where only the down tracks below [limit] are bound. *)
Definition heap_bound_below (limit : positive) : Heap :=
  λ dt, {| IsBound := bool_decide (dt < limit)%positive;
           CreateSenderReport := {| SSRC := Npos dt |};
           CreateSourceDescriptionChunks := Some [chunk dt] |}.

Fixpoint addDownTracks (streamId : string) (first : positive) (n : nat)
    : Go (T:=FakePeerConnection) (S:=FakeSignalConnection) unit :=
  match n with
  | O => ret tt
  | Datatypes.S n' => addDownTrack streamId first ;;; addDownTracks streamId (Pos.succ first) n'
  end.

(** A session subscribed to [n] down tracks of the stream "cam" and one of
    the stream "mic", on a transport that answers the writes from a script. *)
Definition subscribed_to (n : nat) (writeReturns : list (option error)) : Session :=
  after (run (addDownTracks "cam" 1%positive n ;;; addDownTrack "mic" 100%positive) (participant writeReturns)).

(** A registry of down tracks in which a handle occurs twice. *)
Definition with_repeated_handle : Session :=
  after (run (addDownTrack "cam" 1%positive ;;; addDownTrack "cam" 2%positive ;;;
              addDownTrack "cam" 1%positive ;;; addDownTrack "cam" 3%positive ;;;
              addDownTrack "mic" 1%positive) publishing).

(** The scripts that hold no transport-closed error. *)
Definition open_script (t : FakePeerConnection) : Prop :=
  Forall (λ r, ∀ e, r = Some e → is_transport_closed e = false) (WriteRTCPReturns t).

(** A session with one batch of feedback waiting in its queue. *)
Definition with_feedback : Session :=
  after (run (send_rtcpCh [Feedback 7]) (subscribed_to 2 [])).

(** A session whose signaling channel fails every write. *)
Definition with_broken_signaling : Session :=
  NewParticipant (pc []) {| WriteResponseReturns := Some (errors_New "broken pipe") |}
    "alice" "PA_alice".

(** The publishing session once "PA_carol" has subscribed to its tracks. *)
Definition watched_by_carol : Session :=
  after (run (AddSubscriber "PA_carol" ["TR_audio"; "TR_video"; "TR_chat"]) publishing).
End rtcfakes.

(** * Theorems *)

Arguments updateState : simpl never.

(** Closes [e ∉ l] for an explicit trace [l] that holds no event of [e]'s kind. *)
Ltac not_in_trace :=
  let H := fresh "Hin" in
  intros H;
  repeat (apply elem_of_cons in H; destruct H as [H|H]; [discriminate H|]);
  by apply elem_of_nil in H.

Section Properties.
Context {T S : Type} `{!PeerConnection T} `{!SignalConnection S}.

Abbreviation Participant := (Participant T S).
Abbreviation Go := (@Go T S).

Implicit Types (p : Participant) (st : ParticipantInfo_State).

(** ** updateState *)

Lemma updateState_same p : updateState (state p) p = (Done tt, p, []).
Proof. unfold updateState, bind, get; simpl. by rewrite decide_True. Qed.

Lemma updateState_other p st :
  st ≠ state p →
  updateState st p =
    (Done tt, set_state st p,
     if OnStateChange p then [EvGoOnStateChange (state p)] else []).
Proof.
  intros Hne. unfold updateState, bind, get; simpl.
  rewrite decide_False by done. simpl. by destruct (OnStateChange p).
Qed.

Lemma updateState_run p st :
  updateState st p = (Done tt, set_state st p, notification p st).
Proof.
  unfold notification. destruct (decide (st = state p)) as [->|Hne].
  - rewrite updateState_same. by destruct p.
  - by rewrite updateState_other.
Qed.

(** ** Close *)

Lemma Close_cancelled p e :
  ctxErr p = Some e → Close p = (Done (Some e), p, []).
Proof. intros He. unfold Close, bind, get; simpl. by rewrite He. Qed.

Lemma Close_run p :
  ctxErr p = None → chan_closed (rtcpCh p) = false →
  Close p =
    (Done (pc_Close (peerConn p)).1, closed p,
     [EvCloseChan] ++ notification p ParticipantInfo_DISCONNECTED
       ++ (if OnClose p then [EvOnClose] else []) ++ [EvCancel; EvPeerConnClose]).
Proof.
  intros Hctx Hch. unfold Close, bind, get; simpl. rewrite Hctx.
  unfold close_rtcpCh, bind, get; simpl. rewrite Hch; simpl.
  rewrite updateState_run; simpl.
  unfold when, cancel, bind, get, closed, notification; simpl.
  destruct (OnClose p); simpl; rewrite Hctx; simpl; rewrite ?app_nil_r; reflexivity.
Qed.

(** ** Answer *)

Lemma Answer_SetRemoteDescription_fails p (sdp : SessionDescription) e :
  (Answer_SetRemoteDescription p sdp).1 = Some e →
  Answer sdp p =
    (Done (zeroSessionDescription, Some e),
     set_peerConn (Answer_SetRemoteDescription p sdp).2 p,
     [EvSetRemoteDescription sdp]).
Proof.
  unfold Answer_SetRemoteDescription. intros He.
  unfold Answer, bind, peerConn_SetRemoteDescription; simpl. by rewrite He.
Qed.

Lemma Answer_CreateAnswer_fails p (sdp : SessionDescription) e :
  (Answer_SetRemoteDescription p sdp).1 = None →
  (Answer_CreateAnswer p sdp).1.2 = Some e →
  Answer sdp p =
    (Done ((Answer_CreateAnswer p sdp).1.1, Some (errors_Wrap e "could not create answer")),
     set_peerConn (Answer_CreateAnswer p sdp).2 p,
     [EvSetRemoteDescription sdp; EvCreateAnswer]).
Proof.
  unfold Answer_CreateAnswer, Answer_SetRemoteDescription. intros H1 H2.
  unfold Answer, bind, peerConn_SetRemoteDescription, peerConn_CreateAnswer; simpl.
  rewrite H1; simpl. by rewrite H2.
Qed.

Lemma Answer_SetLocalDescription_fails p (sdp : SessionDescription) e :
  (Answer_SetRemoteDescription p sdp).1 = None →
  (Answer_CreateAnswer p sdp).1.2 = None →
  (Answer_SetLocalDescription p sdp).1 = Some e →
  Answer sdp p =
    (Done ((Answer_CreateAnswer p sdp).1.1,
           Some (errors_Wrap e "could not set local description")),
     set_peerConn (Answer_SetLocalDescription p sdp).2 p,
     [EvSetRemoteDescription sdp; EvCreateAnswer;
      EvSetLocalDescription (Answer_CreateAnswer p sdp).1.1]).
Proof.
  unfold Answer_SetLocalDescription, Answer_CreateAnswer, Answer_SetRemoteDescription.
  intros H1 H2 H3.
  unfold Answer, bind, peerConn_SetRemoteDescription, peerConn_CreateAnswer,
    peerConn_SetLocalDescription; simpl.
  rewrite H1; simpl. rewrite H2; simpl. by rewrite H3.
Qed.

(** When the three calls succeed the answer goes out, and the state moves
    to Joined if it was Joining, whatever the signaling write returns. *)
Lemma Answer_answered p (sdp : SessionDescription) :
  (Answer_SetRemoteDescription p sdp).1 = None →
  (Answer_CreateAnswer p sdp).1.2 = None →
  (Answer_SetLocalDescription p sdp).1 = None →
  outcome (Answer sdp p)
    = Done ((Answer_CreateAnswer p sdp).1.1, (Answer_WriteResponse p sdp).1)
  ∧ state (after (Answer sdp p)) =
      (if decide (state p = ParticipantInfo_JOINING) then ParticipantInfo_JOINED
       else state p).
Proof.
  unfold Answer_WriteResponse, Answer_SetLocalDescription, Answer_CreateAnswer,
    Answer_SetRemoteDescription.
  intros H1 H2 H3.
  unfold Answer, bind, get, peerConn_SetRemoteDescription, peerConn_CreateAnswer,
    peerConn_SetLocalDescription, peerConn_OnNegotiationNeeded, sigConn_WriteResponse; simpl.
  rewrite H1; simpl. rewrite H2; simpl. rewrite H3; simpl.
  destruct (decide (state p = ParticipantInfo_JOINING)) as [Hj|Hj]; simpl; [|done].
  rewrite updateState_run. done.
Qed.

Lemma Answer_cases p (sdp : SessionDescription) :
  (∃ e, (Answer_SetRemoteDescription p sdp).1 = Some e)
  ∨ ((Answer_SetRemoteDescription p sdp).1 = None
     ∧ ∃ e, (Answer_CreateAnswer p sdp).1.2 = Some e)
  ∨ ((Answer_SetRemoteDescription p sdp).1 = None
     ∧ (Answer_CreateAnswer p sdp).1.2 = None
     ∧ ∃ e, (Answer_SetLocalDescription p sdp).1 = Some e)
  ∨ ((Answer_SetRemoteDescription p sdp).1 = None
     ∧ (Answer_CreateAnswer p sdp).1.2 = None
     ∧ (Answer_SetLocalDescription p sdp).1 = None).
Proof.
  destruct (Answer_SetRemoteDescription p sdp).1; [eauto|].
  destruct (Answer_CreateAnswer p sdp).1.2; [eauto|].
  destruct (Answer_SetLocalDescription p sdp).1; eauto 10.
Qed.

Lemma Answer_state p (sdp : SessionDescription) :
  state (after (Answer sdp p)) = state p
  ∨ (state p = ParticipantInfo_JOINING
     ∧ state (after (Answer sdp p)) = ParticipantInfo_JOINED).
Proof.
  destruct (Answer_cases p sdp)
    as [[e H1]|[[H1 [e H2]]|[(H1 & H2 & e & H3)|(H1 & H2 & H3)]]].
  - left. by rewrite (Answer_SetRemoteDescription_fails p sdp e).
  - left. by rewrite (Answer_CreateAnswer_fails p sdp e).
  - left. by rewrite (Answer_SetLocalDescription_fails p sdp e).
  - destruct (Answer_answered p sdp H1 H2 H3) as [_ Hst]. rewrite Hst.
    case_decide; [by right | by left].
Qed.

(** C6. A failure of [Answer] in one of its three transport calls
    (SetRemoteDescription, CreateAnswer, SetLocalDescription) is returned to
    the caller, the latter two wrapped with their message, and leaves the
    session state as it was, with no state-change notification; and when
    [Answer] returns no error on a session whose state is Joining, the state
    is Joined afterwards. *)
Theorem Answer_failure_keeps_state_success_joins (p : Participant) (sdp : SessionDescription) :
  (∀ e, (Answer_SetRemoteDescription p sdp).1 = Some e →
     outcome (Answer sdp p) = Done (zeroSessionDescription, Some e)
     ∧ state (after (Answer sdp p)) = state p
     ∧ ∀ old, EvGoOnStateChange old ∉ trace (Answer sdp p))
  ∧ (∀ e, (Answer_SetRemoteDescription p sdp).1 = None →
     (Answer_CreateAnswer p sdp).1.2 = Some e →
     outcome (Answer sdp p)
       = Done ((Answer_CreateAnswer p sdp).1.1,
               Some (errors_Wrap e "could not create answer"))
     ∧ state (after (Answer sdp p)) = state p
     ∧ ∀ old, EvGoOnStateChange old ∉ trace (Answer sdp p))
  ∧ (∀ e, (Answer_SetRemoteDescription p sdp).1 = None →
     (Answer_CreateAnswer p sdp).1.2 = None →
     (Answer_SetLocalDescription p sdp).1 = Some e →
     outcome (Answer sdp p)
       = Done ((Answer_CreateAnswer p sdp).1.1,
               Some (errors_Wrap e "could not set local description"))
     ∧ state (after (Answer sdp p)) = state p
     ∧ ∀ old, EvGoOnStateChange old ∉ trace (Answer sdp p))
  ∧ (∀ answer, outcome (Answer sdp p) = Done (answer, None) →
     state p = ParticipantInfo_JOINING →
     state (after (Answer sdp p)) = ParticipantInfo_JOINED).
Proof.
  split_and!.
  - intros e He. rewrite (Answer_SetRemoteDescription_fails p sdp e He); simpl.
    split_and!; [done..|]. intros old. not_in_trace.
  - intros e H1 He. rewrite (Answer_CreateAnswer_fails p sdp e H1 He); simpl.
    split_and!; [done..|]. intros old. not_in_trace.
  - intros e H1 H2 He. rewrite (Answer_SetLocalDescription_fails p sdp e H1 H2 He); simpl.
    split_and!; [done..|]. intros old. not_in_trace.
  - intros answer Hout Hj.
    destruct (Answer_cases p sdp)
      as [[e H1]|[[H1 [e H2]]|[(H1 & H2 & e & H3)|(H1 & H2 & H3)]]].
    + by rewrite (Answer_SetRemoteDescription_fails p sdp e) in Hout.
    + by rewrite (Answer_CreateAnswer_fails p sdp e) in Hout.
    + by rewrite (Answer_SetLocalDescription_fails p sdp e) in Hout.
    + destruct (Answer_answered p sdp H1 H2 H3) as [_ ->]. by rewrite decide_True.
Qed.

(** ** The callers of updateState *)



Lemma onICEConnectionStateChange_state p ice :
  state (after (onICEConnectionStateChange ice p)) =
    (if decide (ice = ICEConnectionStateConnected) then ParticipantInfo_ACTIVE else state p).
Proof.
  unfold onICEConnectionStateChange, bind, logw, emit; simpl.
  case_decide; [|done]. by rewrite updateState_run.
Qed.




Lemma NewParticipant_queue_guarded (pc : T) (sc : S) (name guid : string) :
  queue_guarded (NewParticipant pc sc name guid).
Proof. intros Hclosed. discriminate Hclosed. Qed.

Lemma Close_queue_guarded p : queue_guarded p → queue_guarded (after (Close p)).
Proof.
  unfold queue_guarded. intros Hguard. destruct (ctxErr p) as [e|] eqn:Hctx.
  - rewrite (Close_cancelled p e) by done. unfold after; simpl. by rewrite Hctx.
  - destruct (chan_closed (rtcpCh p)) eqn:Hch.
    + by destruct (Hguard eq_refl).
    + rewrite Close_run by done. intros _. discriminate.
Qed.

Lemma queue_guarded_open p : queue_guarded p → ctxErr p = None → chan_closed (rtcpCh p) = false.
Proof.
  unfold queue_guarded. intros Hguard Hctx.
  destruct (chan_closed (rtcpCh p)); [|done]. by destruct (Hguard eq_refl).
Qed.

(** C5. [Close] on a session whose context is already cancelled returns the
    context's error and does nothing else. Otherwise it closes the outbound
    RTCP queue, sets the state to Disconnected (notifying the state
    observer), calls the close observer when one is registered, cancels the
    context and closes the transport, in this order, and returns what the
    transport's Close returns; a second [Close] then fails with
    [context.Canceled] and no effect. *)
Theorem Close_guarded_then_tears_down p :
  (∀ e, ctxErr p = Some e → Close p = (Done (Some e), p, []))
  ∧ (ctxErr p = None → chan_closed (rtcpCh p) = false →
     Close p =
       (Done (pc_Close (peerConn p)).1, closed p,
        [EvCloseChan] ++ notification p ParticipantInfo_DISCONNECTED
          ++ (if OnClose p then [EvOnClose] else []) ++ [EvCancel; EvPeerConnClose])
     ∧ chan_closed (rtcpCh (closed p)) = true
     ∧ state (closed p) = ParticipantInfo_DISCONNECTED
     ∧ ctxErr (closed p) = Some context_Canceled
     ∧ peerConn (closed p) = (pc_Close (peerConn p)).2
     ∧ Close (closed p) = (Done (Some context_Canceled), closed p, [])).
Proof.
  split.
  - apply Close_cancelled.
  - intros Hctx Hch. split_and!; [by apply Close_run|done..|].
    by apply Close_cancelled.
Qed.

(** ** removeDownTrack *)

Lemma removeDownTrack_loop_acc (dt : DownTrackPtr) (l acc : list DownTrackPtr) :
  fold_left (λ newTracks track,
               if decide (track ≠ dt) then newTracks ++ [track] else newTracks) l acc
  = acc ++ filter (λ t, t ≠ dt) l.
Proof.
  revert acc. induction l as [|t l IH]; intros acc; simpl.
  - by rewrite app_nil_r.
  - rewrite IH. destruct (decide (t ≠ dt)) as [Hne|Heq].
    + rewrite filter_cons_True by done. by rewrite <- app_assoc.
    + by rewrite filter_cons_False.
Qed.

Lemma removeDownTrack_loop_filter (dt : DownTrackPtr) (l : list DownTrackPtr) :
  removeDownTrack_loop dt l = filter (λ t, t ≠ dt) l.
Proof. unfold removeDownTrack_loop. by rewrite removeDownTrack_loop_acc. Qed.

Lemma filter_absent (dt : DownTrackPtr) (l : list DownTrackPtr) :
  dt ∉ l → filter (λ t, t ≠ dt) l = l.
Proof.
  induction l as [|t l IH]; intros Hnot; [done|].
  apply not_elem_of_cons in Hnot as [Hne Hnot].
  rewrite filter_cons_True by done. by rewrite IH.
Qed.

Lemma removeDownTrack_run p (streamId : string) (dt : DownTrackPtr) :
  removeDownTrack streamId dt p =
    (Done tt,
     set_downTracks (<[streamId := filter (λ t, t ≠ dt) (downTracks p !!! streamId)]> (downTracks p)) p,
     [EvLock; EvUnlock]).
Proof.
  unfold removeDownTrack, bind, get, modify, emit; simpl.
  by rewrite removeDownTrack_loop_filter.
Qed.

(** C10. [removeDownTrack(streamId, dt)] replaces the stream's sequence by
    the same sequence without the occurrences of the handle [dt]: the other
    handles stay, as often and in the order they were; the sequences of the
    other stream ids and the published tracks are untouched; and when [dt]
    is not in the sequence, the sequence is as before. A stream id that has
    no entry reads as the empty sequence, before and after. *)
Theorem removeDownTrack_filters_one_stream p (streamId : string) (dt : DownTrackPtr) :
  let r := removeDownTrack streamId dt p in
  let old := downTracks p !!! streamId in
  let new := downTracks (after r) !!! streamId in
  outcome r = Done tt
  ∧ new = filter (λ t, t ≠ dt) old
  ∧ (dt ∉ new)
  ∧ sublist new old
  ∧ (∀ t, t ≠ dt → filter (λ x, x = t) new = filter (λ x, x = t) old)
  ∧ (∀ s, s ≠ streamId → downTracks (after r) !! s = downTracks p !! s)
  ∧ tracks (after r) = tracks p
  ∧ (dt ∉ old → new = old).
Proof.
  intros r old new. subst r new. rewrite removeDownTrack_run.
  unfold outcome, after; simpl. rewrite lookup_total_insert_eq. fold old.
  split_and!.
  - done.
  - done.
  - rewrite list_elem_of_filter. by intros [Hne _].
  - apply sublist_filter.
  - intros t Hne. rewrite list_filter_filter. apply list_filter_iff.
    intros x. split; [by intros [-> _] | by intros ->].
  - intros s Hne. by rewrite lookup_insert_ne.
  - done.
  - apply filter_absent.
Qed.

(** ** Publication *)

Lemma handleTrackPublished_run p (track : PublishedTrack) :
  let msg := SignalResponse_TrackPublished (track_ID track) (track_kind track) in
  handleTrackPublished track p =
    (Done tt,
     set_sigConn (sc_WriteResponse msg (sigConn p)).2
       (set_tracks (<[track_ID track := track]> (tracks p)) p),
     [EvLock; EvTracksStore (track_ID track); EvUnlock; EvTrackStart (track_ID track);
      EvWriteResponse msg]
       ++ (if OnTrackPublished p then [EvGoOnTrackPublished (track_ID track)] else [])).
Proof.
  unfold handleTrackPublished, bind, tracks_store, track_Start, sigConn_WriteResponse,
    get, modify, emit, when, bind; simpl.
  by destruct (OnTrackPublished p).
Qed.

Lemma onDataChannel_private p (dc : DataChannel) (tid : string) refuses :
  dc_Label dc = placeholderDataChannel →
  onDataChannel dc tid refuses p = (Done tt, p, []).
Proof. intros Hl. unfold onDataChannel. by rewrite decide_True. Qed.

Lemma onDataChannel_run p (dc : DataChannel) (tid : string) refuses :
  dc_Label dc ≠ placeholderDataChannel →
  let dt := NewDataTrack tid refuses in
  let msg := SignalResponse_TrackPublished tid DataTrackKind in
  onDataChannel dc tid refuses p =
    (Done tt,
     set_sigConn (sc_WriteResponse msg (sigConn p)).2
       (set_tracks (<[tid := dt]> (tracks p)) p),
     [EvLog Debugw "dataChannel added" None;
      EvLock; EvTracksStore tid; EvUnlock; EvTrackStart tid;
      EvLock; EvTracksStore tid; EvUnlock; EvTrackStart tid;
      EvWriteResponse msg]
       ++ (if OnTrackPublished p then [EvGoOnTrackPublished tid] else [])).
Proof.
  intros Hl dt msg. unfold onDataChannel. rewrite decide_False by done.
  unfold bind at 1 2 3 4 5. unfold logw, tracks_store, track_Start, bind, get, modify, emit.
  simpl. rewrite handleTrackPublished_run. simpl.
  rewrite insert_insert_eq. done.
Qed.

Lemma onMediaTrack_run p (tid : string) refuses :
  let mt := NewMediaTrack tid refuses in
  let msg := SignalResponse_TrackPublished tid MediaTrackKind in
  onMediaTrack tid refuses p =
    (Done tt,
     set_sigConn (sc_WriteResponse msg (sigConn p)).2
       (set_tracks (<[tid := mt]> (tracks p)) p),
     [EvLog Debugw "remoteTrack added" None;
      EvLock; EvTracksStore tid; EvUnlock; EvTrackStart tid;
      EvWriteResponse msg]
       ++ (if OnTrackPublished p then [EvGoOnTrackPublished tid] else [])).
Proof.
  intros mt msg. unfold onMediaTrack, bind, logw, emit.
  rewrite handleTrackPublished_run. done.
Qed.

(** C8. A data channel labelled "_private" is ignored: the handler returns
    at once, the participant (its registry included) is as before and the
    trace is empty, so no track, no confirmation, no notification. For any
    other label a DataTrack is made, stored in the registry between Lock
    and Unlock, started, confirmed to the peer with a track-published
    message, and the publish observer, when one is registered, is notified
    in a goroutine. *)
Theorem onDataChannel_ignores_private_publishes_others
    p (dc : DataChannel) (tid : string) (refuses : string → option error) :
  let r := onDataChannel dc tid refuses p in
  (dc_Label dc = placeholderDataChannel → r = (Done tt, p, []))
  ∧ (dc_Label dc ≠ placeholderDataChannel →
     outcome r = Done tt
     ∧ tracks (after r) = <[tid := NewDataTrack tid refuses]> (tracks p)
     ∧ trace r =
         [EvLog Debugw "dataChannel added" None;
          EvLock; EvTracksStore tid; EvUnlock; EvTrackStart tid;
          EvLock; EvTracksStore tid; EvUnlock; EvTrackStart tid;
          EvWriteResponse (SignalResponse_TrackPublished tid DataTrackKind)]
         ++ (if OnTrackPublished p then [EvGoOnTrackPublished tid] else [])).
Proof.
  intros r. subst r. split.
  - apply onDataChannel_private.
  - intros Hl. by rewrite onDataChannel_run.
Qed.

(** C9, on the code. [Start] is called twice on the track made for a data
    channel (here one labelled "chat"): once by [onDataChannel] itself and
    once more by [handleTrackPublished], each time after a store in the
    registry; on the track made for a media stream it is called once. *)
Theorem onDataChannel_starts_twice_onMediaTrack_once
    p (tid : string) (refuses : string → option error) :
  starts tid (trace (onDataChannel {| dc_Label := "chat" |} tid refuses p)) = 2
  ∧ starts tid (trace (onMediaTrack tid refuses p)) = 1.
Proof.
  rewrite onDataChannel_run by done. rewrite onMediaTrack_run.
  unfold trace; simpl.
  destruct (OnTrackPublished p); simpl; by rewrite !decide_True.
Qed.

(** ** AddSubscriber *)

Lemma insert_as_alter {V} (f : V → V) (m : gmap string V) (i : string) (x : V) :
  m !! i = Some x → <[i := f x]> m = alter f i m.
Proof.
  intros Hx. apply map_eq. intros j. destruct (decide (i = j)) as [<-|Hne].
  - by rewrite lookup_insert_eq, lookup_alter_eq, Hx.
  - by rewrite lookup_insert_ne, lookup_alter_ne.
Qed.

Lemma alter_absent {V} (f : V → V) (m : gmap string V) (i : string) :
  m !! i = None → alter f i m = m.
Proof.
  intros Hx. apply map_eq. intros j. destruct (decide (i = j)) as [<-|Hne].
  - by rewrite lookup_alter_eq, Hx.
  - by rewrite lookup_alter_ne.
Qed.

Lemma lookup_foldl_alter {V} (f : V → V) (keys : list string) (m : gmap string V) (t : string) :
  NoDup keys →
  foldl (λ m k, alter f k m) m keys !! t =
    (if decide (t ∈ keys) then f <$> m !! t else m !! t).
Proof.
  revert m. induction keys as [|a keys IH]; intros m Hnd; cbn [foldl].
  - by rewrite decide_False by apply not_elem_of_nil.
  - apply NoDup_cons in Hnd as [Ha Hnd]. rewrite IH by done.
    destruct (decide (t = a)) as [->|Hne].
    + rewrite decide_False by done. rewrite decide_True by apply list_elem_of_here.
      by rewrite lookup_alter_eq.
    + rewrite lookup_alter_ne by done.
      destruct (decide (t ∈ keys)) as [Hin|Hin].
      * rewrite decide_True; [done|]. by apply list_elem_of_further.
      * rewrite decide_False; [done|]. rewrite elem_of_cons. by intros [?|?].
Qed.

Lemma filter_iff_on {A} (P1 P2 : A → Prop)
    `{!∀ x, Decision (P1 x), !∀ x, Decision (P2 x)} (l : list A) :
  (∀ x, x ∈ l → P1 x ↔ P2 x) → filter P1 l = filter P2 l.
Proof.
  induction l as [|a l IH]; intros Hiff; [done|].
  assert (filter P1 l = filter P2 l) as Hl.
  { apply IH. intros x Hx. apply Hiff. by apply list_elem_of_further. }
  destruct (decide (P1 a)) as [Ha|Ha].
  - rewrite !filter_cons_True; [by rewrite Hl|by apply Hiff; [apply list_elem_of_here|]|done].
  - rewrite !filter_cons_False; [done| |done].
    intros Ha2. apply Ha. by apply Hiff; [apply list_elem_of_here|].
Qed.

Lemma filter_all {A} (P : A → Prop) `{!∀ x, Decision (P x)} (l : list A) :
  (∀ x, x ∈ l → P x) → filter P l = l.
Proof.
  induction l as [|a l IH]; intros HP; [done|].
  rewrite filter_cons_True by apply HP, list_elem_of_here.
  f_equal. apply IH. intros x Hx. by apply HP, list_elem_of_further.
Qed.

Lemma set_tracks_same p : set_tracks (tracks p) p = p.
Proof. by destruct p. Qed.

(** The loop over a run of accepting tracks: each is asked, each is
    subscribed, and the loop goes on with what follows. *)
Lemma AddSubscriber_range_accepting (op : string) (pre rest : list string) p :
  NoDup pre →
  (∀ tid, tid ∈ pre → accepts p op tid) →
  let p' := set_tracks (foldl (λ m k, alter (subscribed op) k m) (tracks p) pre) p in
  ∃ evs,
    AddSubscriber_range op (pre ++ rest) p =
      (outcome (AddSubscriber_range op rest p'), after (AddSubscriber_range op rest p'),
       evs ++ trace (AddSubscriber_range op rest p'))
    ∧ attempts evs = filter (λ tid, is_Some (tracks p !! tid)) pre.
Proof.
  revert p. induction pre as [|tid pre IH]; intros p Hnd Hacc p'.
  - exists []. subst p'. simpl. rewrite set_tracks_same. split; [|done].
    by destruct (AddSubscriber_range op rest p) as [[? ?] ?].
  - apply NoDup_cons in Hnd as [Htid Hnd]. subst p'.
    cbn [app AddSubscriber_range foldl]. unfold bind at 1, get at 1.
    destruct (tracks p !! tid) as [track|] eqn:Hlook.
    + assert (track_refuses track op = None) as Hok
        by (apply (Hacc tid); [apply list_elem_of_here | done]).
      unfold bind, logw, emit, modify, track_AddSubscriber; simpl. rewrite Hok; simpl.
      set (p1 := set_tracks (<[tid:=subscribed op track]> (tracks p)) p).
      destruct (IH p1 Hnd) as (evs & Hrun & Hatt).
      { intros t Ht track' Hlook'. apply (Hacc t); [by apply list_elem_of_further|].
        subst p1; simpl in Hlook'. rewrite lookup_insert_ne in Hlook'; [done|].
        by intros ->. }
      rewrite Hrun. subst p1; simpl.
      rewrite <- (insert_as_alter (subscribed op) (tracks p) tid track) by done.
      exists (EvLog Debugw "subscribing to remoteTrack" None
                :: EvTrackAddSubscriber tid op :: evs).
      split; [reflexivity|]. simpl.
      rewrite filter_cons_True by (by rewrite Hlook). rewrite Hatt. f_equal.
      apply filter_iff_on. intros t Ht. simpl.
      rewrite lookup_insert_ne; [done|]. by intros ->.
    + destruct (IH p Hnd) as (evs & Hrun & Hatt).
      { intros t Ht. apply Hacc. by apply list_elem_of_further. }
      rewrite Hrun. rewrite alter_absent by done.
      exists evs. split; [done|].
      rewrite filter_cons_False; [done|]. rewrite Hlook. by intros [? ?].
Qed.

Lemma range_of_spec {V} (m : gmap string V) (order : list string) :
  range_of m order → NoDup order ∧ ∀ k, k ∈ order ↔ is_Some (m !! k).
Proof.
  unfold range_of. intros Hperm. split.
  - rewrite Hperm. apply NoDup_fst_map_to_list.
  - intros k. rewrite Hperm, list_elem_of_fmap. split.
    + intros [[k' v] [-> Hin]]. apply elem_of_map_to_list in Hin. by exists v.
    + intros [v Hv]. exists (k, v). split; [done|]. by apply elem_of_map_to_list.
Qed.

Lemma attempts_app (l1 l2 : list Event) :
  attempts (l1 ++ l2) = attempts l1 ++ attempts l2.
Proof.
  induction l1 as [|e l1 IH]; [done|]. destruct e; simpl; by rewrite ?IH.
Qed.

Lemma AddSubscriber_wrap (op : string) (order : list string) p o p' evs :
  AddSubscriber_range op order p = (Done o, p', evs) →
  AddSubscriber op order p = (Done o, p', [EvRLock] ++ evs ++ [EvRUnlock])
  ∧ attempts (trace (AddSubscriber op order p)) = attempts evs.
Proof.
  intros Hrun. unfold AddSubscriber, bind, emit, ret. rewrite Hrun. simpl.
  split; [done|]. unfold trace; simpl.
  rewrite attempts_app. simpl. by rewrite app_nil_r.
Qed.

Lemma first_refusal p (op : string) (order : list string) tid track e :
  tid ∈ order → tracks p !! tid = Some track → track_refuses track op = Some e →
  ∃ pre k post track' e',
    order = pre ++ k :: post ∧ (∀ t, t ∈ pre → accepts p op t)
    ∧ tracks p !! k = Some track' ∧ track_refuses track' op = Some e'.
Proof.
  intros Hin Hlook Href. induction order as [|a l IH]; [by apply elem_of_nil in Hin|].
  destruct (tracks p !! a) as [ta|] eqn:Ha.
  - destruct (track_refuses ta op) as [ea|] eqn:Hea.
    + exists [], a, l, ta, ea. split_and!; [done| |done..].
      intros t Ht. by apply elem_of_nil in Ht.
    + apply elem_of_cons in Hin as [->|Hin]; [congruence|].
      destruct (IH Hin) as (pre & k & post & track' & e' & -> & Hpre & Hk & He').
      exists (a :: pre), k, post, track', e'. split_and!; [done| |done..].
      intros t Ht. apply elem_of_cons in Ht as [->|Ht]; [|by apply Hpre].
      intros ta' Hta'. congruence.
  - apply elem_of_cons in Hin as [->|Hin]; [congruence|].
    destruct (IH Hin) as (pre & k & post & track' & e' & -> & Hpre & Hk & He').
    exists (a :: pre), k, post, track', e'. split_and!; [done| |done..].
    intros t Ht. apply elem_of_cons in Ht as [->|Ht]; [|by apply Hpre].
    intros ta' Hta'. congruence.
Qed.

Lemma AddSubscriber_all_accept p (op : string) (order : list string) :
  range_of (tracks p) order → (∀ tid, accepts p op tid) →
  let r := AddSubscriber op order p in
  outcome r = Done None
  ∧ attempts (trace r) = order
  ∧ ∀ tid track, tracks p !! tid = Some track →
      tracks (after r) !! tid = Some (subscribed op track).
Proof.
  intros Hrange Hacc r. apply range_of_spec in Hrange as [Hnd Hkeys].
  destruct (AddSubscriber_range_accepting op order [] p Hnd) as (evs & Hrun & Hatt);
    [by intros tid _|].
  unfold ret, outcome, after, trace in Hrun. simpl in Hrun. rewrite !app_nil_r in Hrun.
  apply AddSubscriber_wrap in Hrun as [Hrun Hat]. subst r.
  rewrite Hat, Hatt, Hrun. unfold outcome, after; simpl. split_and!.
  - done.
  - apply filter_all. intros k Hk. by apply Hkeys.
  - intros tid track Hlook. rewrite lookup_foldl_alter by done.
    rewrite decide_True; [by rewrite Hlook|]. apply Hkeys. by rewrite Hlook.
Qed.

Lemma AddSubscriber_first_refusal p (op : string) (pre post : list string) k track e :
  NoDup (pre ++ k :: post) →
  (∀ tid, tid ∈ pre → accepts p op tid) →
  tracks p !! k = Some track → track_refuses track op = Some e →
  let r := AddSubscriber op (pre ++ k :: post) p in
  outcome r = Done (Some e)
  ∧ attempts (trace r) = filter (λ tid, is_Some (tracks p !! tid)) pre ++ [k]
  ∧ (∀ tid track', tid ∈ pre → tracks p !! tid = Some track' →
       tracks (after r) !! tid = Some (subscribed op track'))
  ∧ (∀ tid, tid ∉ pre → tracks (after r) !! tid = tracks p !! tid).
Proof.
  intros Hnd Hacc Hk Href r.
  apply NoDup_app in Hnd as (Hpre & Hdisj & Hpost).
  assert (k ∉ pre) as Hkpre by (intros Hin; apply (Hdisj k Hin), list_elem_of_here).
  destruct (AddSubscriber_range_accepting op pre (k :: post) p Hpre Hacc)
    as (evs & Hrun & Hatt).
  set (m' := foldl (λ m k, alter (subscribed op) k m) (tracks p) pre) in *.
  assert (m' !! k = Some track) as Hk'.
  { subst m'. rewrite lookup_foldl_alter by done. by rewrite decide_False. }
  assert (AddSubscriber_range op (k :: post) (set_tracks m' p) =
            (Done (Some e), set_tracks (<[k := track]> m') p,
             [EvLog Debugw "subscribing to remoteTrack" None; EvTrackAddSubscriber k op]))
    as Htail.
  { cbn [AddSubscriber_range]. unfold bind, get, logw, emit, modify, track_AddSubscriber.
    simpl. rewrite Hk'. simpl. rewrite Href. reflexivity. }
  rewrite Htail in Hrun. unfold outcome, after, trace in Hrun. simpl in Hrun.
  apply AddSubscriber_wrap in Hrun as [Hrun Hat]. subst r.
  rewrite Hat, Hrun. unfold outcome, after; simpl. split_and!.
  - done.
  - rewrite attempts_app. simpl. by rewrite Hatt.
  - intros tid track' Hin Hlook. rewrite lookup_insert_ne by (by intros ->).
    subst m'. rewrite lookup_foldl_alter by done. rewrite decide_True by done.
    by rewrite Hlook.
  - intros tid Hnin. destruct (decide (k = tid)) as [<-|Hne].
    + by rewrite lookup_insert_eq, Hk.
    + rewrite lookup_insert_ne by done. subst m'.
      rewrite lookup_foldl_alter by done. by rewrite decide_False.
Qed.

(** C7. [AddSubscriber] visits the published tracks in the order the map
    iteration yields them and asks each to accept the target session. It
    returns nil exactly when every track accepts, and then every track has
    been asked and holds the new subscriber. When a track refuses, its error
    is returned; the tracks visited before it have been asked and stay
    subscribed, the refusing track is the last one asked, and the tracks
    after it are neither asked nor changed. *)
Theorem AddSubscriber_stops_at_first_refusal p (op : string) (order : list string) :
  range_of (tracks p) order →
  let r := AddSubscriber op order p in
  (outcome r = Done None ↔ ∀ tid, accepts p op tid)
  ∧ ((∀ tid, accepts p op tid) →
     attempts (trace r) = order
     ∧ ∀ tid track, tracks p !! tid = Some track →
         tracks (after r) !! tid = Some (subscribed op track))
  ∧ (∀ pre k post track e,
       order = pre ++ k :: post →
       (∀ tid, tid ∈ pre → accepts p op tid) →
       tracks p !! k = Some track → track_refuses track op = Some e →
       outcome r = Done (Some e)
       ∧ attempts (trace r) = pre ++ [k]
       ∧ (∀ tid track', tid ∈ pre → tracks p !! tid = Some track' →
            tracks (after r) !! tid = Some (subscribed op track'))
       ∧ (∀ tid, tid ∉ pre → tracks (after r) !! tid = tracks p !! tid)).
Proof.
  intros Hrange r. pose proof (range_of_spec _ _ Hrange) as [Hnd Hkeys].
  assert (∀ pre k post track e,
       order = pre ++ k :: post →
       (∀ tid, tid ∈ pre → accepts p op tid) →
       tracks p !! k = Some track → track_refuses track op = Some e →
       outcome r = Done (Some e)
       ∧ attempts (trace r) = pre ++ [k]
       ∧ (∀ tid track', tid ∈ pre → tracks p !! tid = Some track' →
            tracks (after r) !! tid = Some (subscribed op track'))
       ∧ (∀ tid, tid ∉ pre → tracks (after r) !! tid = tracks p !! tid)) as Hfail.
  { intros pre k post track e Horder Hacc Hk Href. subst r. rewrite Horder in *.
    destruct (AddSubscriber_first_refusal p op pre post k track e Hnd Hacc Hk Href)
      as (Hout & Hatt & Hsub & Hrest).
    split_and!; [done| |done..].
    rewrite Hatt. f_equal. apply filter_all. intros t Ht.
    apply Hkeys. rewrite elem_of_app. by left. }
  split_and!.
  - split.
    + intros Hout tid track Hlook.
      destruct (track_refuses track op) as [e|] eqn:Href; [exfalso|done].
      assert (tid ∈ order) as Hin by (apply Hkeys; by rewrite Hlook).
      destruct (first_refusal p op order tid track e Hin Hlook Href)
        as (pre & k & post & track' & e' & Horder & Hpre & Hk & He').
      destruct (Hfail pre k post track' e' Horder Hpre Hk He') as [Hout' _].
      congruence.
    + intros Hacc. by apply AddSubscriber_all_accept.
  - intros Hacc. by apply AddSubscriber_all_accept.
  - exact Hfail.
Qed.

(** ** Traces *)

Lemma writes_app (l1 l2 : list Event) : writes (l1 ++ l2) = writes l1 ++ writes l2.
Proof. induction l1 as [|e l1 IH]; [done|]. destruct e; simpl; by rewrite ?IH. Qed.

Lemma timeline_app (l1 l2 : list Event) : timeline (l1 ++ l2) = timeline l1 ++ timeline l2.
Proof. induction l1 as [|e l1 IH]; [done|]. destruct e; simpl; by rewrite ?IH. Qed.

Lemma logged_app (l1 l2 : list Event) : logged (l1 ++ l2) = logged l1 ++ logged l2.
Proof.
  induction l1 as [|e l1 IH]; [done|].
  destruct e as [? ? [?|]| | | | | | | | | | | | | | | | | | | | | |]; simpl; by rewrite ?IH.
Qed.

Lemma writes_timeline (evs : list Event) : writes (timeline evs) = writes evs.
Proof. induction evs as [|e evs IH]; [done|]. destruct e; simpl; by rewrite ?IH. Qed.

Lemma sleeps_timeline (evs : list Event) : sleeps (timeline evs) = sleeps evs.
Proof. induction evs as [|e evs IH]; [done|]. destruct e; simpl; by rewrite ?IH. Qed.

(** ** The binding burst *)

Lemma fold_add_chunks (h : Heap) (dts : list DownTrackPtr) (sd : list SourceDescriptionChunk) :
  fold_left (add_chunks h) dts sd = sd ++ bound_chunks h dts.
Proof.
  unfold bound_chunks, bound. revert sd.
  induction dts as [|dt dts IH]; intros sd; simpl.
  - by rewrite app_nil_r.
  - rewrite IH. unfold add_chunks, chunks_of.
    destruct (IsBound (h dt)) eqn:Hb; simpl.
    + rewrite filter_cons_True by done. simpl.
      destruct (CreateSourceDescriptionChunks (h dt)); simpl; by rewrite <- ?app_assoc.
    + rewrite filter_cons_False; [done|]. by rewrite Hb.
Qed.

(** One turn of the loop of the burst. *)
Lemma bindingReports_loop_step (fuel : nat) (batch : list Packet) (i : Z) p :
  let w := pc_WriteRTCP batch (peerConn p) in
  let p1 := set_peerConn w.2 p in
  let lg := match w.1 with
            | Some e => [EvLog Debugw "Sending track binding reports" (Some e)]
            | None => []
            end in
  bindingReports_loop (Datatypes.S fuel) batch i p =
    if (i >? 5)%Z then (Done tt, p1, EvWriteRTCP batch :: lg)
    else
      let r := bindingReports_loop fuel batch (i + 1)%Z p1 in
      (outcome r, after r, EvWriteRTCP batch :: lg ++ EvSleep 20 :: trace r).
Proof.
  intros w p1 lg. subst w p1 lg. cbn [bindingReports_loop].
  unfold bind, peerConn_WriteRTCP, logw, emit, ret. simpl.
  destruct (pc_WriteRTCP batch (peerConn p)).1 as [e|]; simpl;
    destruct (i >? 5)%Z; simpl; try done;
    by destruct (bindingReports_loop fuel batch (i + 1) _) as [[? ?] ?].
Qed.

(** The loop of the burst from counter [i]: [n = 6 - i] sleeps are left. *)
Lemma bindingReports_loop_run (n : nat) : ∀ (fuel : nat) (batch : list Packet) (i : Z) p,
  (i = 6 - Z.of_nat n)%Z → n < fuel →
  let r := bindingReports_loop fuel batch i p in
  outcome r = Done tt
  ∧ timeline (trace r) =
      EvWriteRTCP batch :: concat (replicate n [EvSleep 20; EvWriteRTCP batch])
  ∧ logged (trace r) = errors_of (write_results (Datatypes.S n) batch (peerConn p))
  ∧ set_peerConn (peerConn p) (after r) = p.
Proof.
  induction n as [|n IH]; intros fuel batch i p Hi Hfuel r; subst r;
    (destruct fuel as [|fuel]; [lia|]); rewrite bindingReports_loop_step.
  - assert ((i >? 5)%Z = true) as -> by lia.
    unfold outcome, after, trace, errors_of; simpl.
    destruct (pc_WriteRTCP batch (peerConn p)).1 as [e|]; simpl; by destruct p.
  - assert ((i >? 5)%Z = false) as -> by lia.
    set (w := pc_WriteRTCP batch (peerConn p)).
    destruct (IH fuel batch (i + 1)%Z (set_peerConn w.2 p)) as (Hout & Htl & Hlog & Hsame);
      [lia..|].
    cbv zeta.
    destruct (bindingReports_loop fuel batch (i + 1) (set_peerConn w.2 p)) as [[o p2] evs].
    unfold outcome, after, trace in *. cbn [fst snd] in *. subst o.
    split_and!.
    + done.
    + change (EvWriteRTCP batch :: ?l ++ ?k) with ([EvWriteRTCP batch] ++ l ++ k).
      rewrite !timeline_app. cbn [timeline app]. rewrite Htl.
      by destruct w.1.
    + change (EvWriteRTCP batch :: ?l ++ ?k) with ([EvWriteRTCP batch] ++ l ++ k).
      rewrite !logged_app. cbn [logged app]. rewrite Hlog.
      cbn [write_results]. fold w. unfold errors_of. by destruct w.1.
    + destruct p2, p. unfold set_peerConn in *. cbn in *.
      injection Hsame as -> -> -> -> -> -> -> -> -> -> -> ->. done.
Qed.

Lemma scheduleDownTrackBindingReports_run p (h : Heap) (streamId : string) (fuel : nat) :
  let pkts := [SourceDescription (bound_chunks h (downTracks p !!! streamId))] in
  let r := bindingReports_loop fuel pkts 0%Z p in
  scheduleDownTrackBindingReports h streamId fuel p =
    (outcome r, after r, EvRLock :: EvRUnlock :: EvGo "bindingReports" :: trace r).
Proof.
  intros pkts r. subst pkts r.
  unfold scheduleDownTrackBindingReports, bind, emit, get. simpl.
  rewrite fold_add_chunks. simpl.
  by destruct (bindingReports_loop fuel _ 0 p) as [[? ?] ?].
Qed.

(** C3 (amended). The burst builds one Source Description from the chunks
    of the down tracks of the stream that are bound when it starts, in the
    order of the stream's sequence, and writes that same packet to the
    transport seven times, with a sleep of 20 ms between two writes (six
    sleeps). It always runs to the end: a write that fails is logged, once
    per failure, and the loop goes on. Only the transport changes. *)
Theorem bindingReports_burst_writes_seven_times
    p (h : Heap) (streamId : string) (fuel : nat) :
  7 ≤ fuel →
  let r := scheduleDownTrackBindingReports h streamId fuel p in
  let pkts := [SourceDescription (bound_chunks h (downTracks p !!! streamId))] in
  outcome r = Done tt
  ∧ timeline (trace r) =
      EvWriteRTCP pkts :: concat (replicate 6 [EvSleep 20; EvWriteRTCP pkts])
  ∧ writes (trace r) = replicate 7 pkts
  ∧ sleeps (trace r) = replicate 6 20%Z
  ∧ logged (trace r) = errors_of (write_results 7 pkts (peerConn p))
  ∧ set_peerConn (peerConn p) (after r) = p.
Proof.
  intros Hfuel r pkts. subst r. rewrite scheduleDownTrackBindingReports_run. fold pkts.
  destruct (bindingReports_loop_run 6 fuel pkts 0%Z p) as (Hout & Htl & Hlog & Hsame);
    [lia..|].
  unfold outcome at 1, after at 1, trace at 1 2 3 4. cbn [fst snd timeline logged].
  assert (writes (trace (bindingReports_loop fuel pkts 0 p)) = replicate 7 pkts) as Hw.
  { rewrite <- writes_timeline, Htl. reflexivity. }
  assert (sleeps (trace (bindingReports_loop fuel pkts 0 p)) = replicate 6 20%Z) as Hs.
  { rewrite <- sleeps_timeline, Htl. reflexivity. }
  split_and!; done.
Qed.

(** ** The periodic report worker *)

Lemma bound_app (h : Heap) (l1 l2 : list DownTrackPtr) :
  bound h (l1 ++ l2) = bound h l1 ++ bound h l2.
Proof. unfold bound. apply filter_app. Qed.

Lemma sender_reports_app (h : Heap) (l1 l2 : list DownTrackPtr) :
  sender_reports h (l1 ++ l2) = sender_reports h l1 ++ sender_reports h l2.
Proof. unfold sender_reports. by rewrite bound_app, map_app. Qed.

Lemma bound_chunks_app (h : Heap) (l1 l2 : list DownTrackPtr) :
  bound_chunks h (l1 ++ l2) = bound_chunks h l1 ++ bound_chunks h l2.
Proof. unfold bound_chunks. by rewrite bound_app, map_app, concat_app. Qed.

Lemma fold_add_reports (h : Heap) (dts : list DownTrackPtr)
    (acc : list Packet * list SourceDescriptionChunk) :
  fold_left (add_reports h) dts acc =
    (acc.1 ++ sender_reports h dts, acc.2 ++ bound_chunks h dts).
Proof.
  revert acc. induction dts as [|dt dts IH]; intros [pkts sd]; simpl.
  - unfold sender_reports, bound_chunks. simpl. by rewrite !app_nil_r.
  - rewrite IH.
    change (dt :: dts) with ([dt] ++ dts).
    rewrite sender_reports_app, bound_chunks_app.
    unfold add_reports, sender_reports, bound_chunks, bound, chunks_of.
    destruct (IsBound (h dt)) eqn:Hb; simpl.
    + rewrite (filter_cons_True _ dt []) by done. rewrite filter_nil. simpl.
      rewrite app_nil_r.
      destruct (CreateSourceDescriptionChunks (h dt)); simpl;
        by rewrite <- ?app_assoc.
    + rewrite (filter_cons_False _ dt []) by (by rewrite Hb). by rewrite filter_nil.
Qed.

Lemma collect_reports_spec (h : Heap) (m : gmap string (list DownTrackPtr))
    (order : list string) :
  collect_reports h m order =
    (sender_reports h (visited m order), bound_chunks h (visited m order)).
Proof.
  unfold collect_reports.
  assert (∀ acc,
    fold_left (λ acc streamId, fold_left (add_reports h) (m !!! streamId) acc) order acc
    = (acc.1 ++ sender_reports h (visited m order),
       acc.2 ++ bound_chunks h (visited m order))) as Hgen.
  { induction order as [|s order IH]; intros [pkts sd]; simpl.
    - unfold visited, sender_reports, bound_chunks. simpl. by rewrite !app_nil_r.
    - rewrite fold_add_reports, IH. unfold visited. simpl.
      by rewrite sender_reports_app, bound_chunks_app, !app_assoc. }
  by rewrite Hgen.
Qed.

(** *** Batches *)

Lemma sdBatchSize_pos : 0 < sdBatchSize.
Proof. unfold sdBatchSize. lia. Qed.

Lemma sd_batches_fuel (f1 f2 : nat) (sd : list SourceDescriptionChunk) :
  length sd ≤ f1 → length sd ≤ f2 → sd_batches f1 sd = sd_batches f2 sd.
Proof.
  revert f2 sd. induction f1 as [|f1 IH]; intros f2 sd H1 H2.
  - destruct sd; [|simpl in H1; lia]. by destruct f2.
  - destruct sd as [|c sd]; [by destruct f2|].
    destruct f2 as [|f2]; [simpl in H2; lia|].
    cbn [sd_batches]. f_equal. apply IH.
    + rewrite length_drop. pose proof sdBatchSize_pos. simpl in *. lia.
    + rewrite length_drop. pose proof sdBatchSize_pos. simpl in *. lia.
Qed.

Lemma batches_cons (sd : list SourceDescriptionChunk) :
  sd ≠ [] → batches sd = take sdBatchSize sd :: batches (drop sdBatchSize sd).
Proof.
  intros Hne. unfold batches. destruct sd as [|c sd]; [done|].
  cbn [length sd_batches]. f_equal. apply sd_batches_fuel; [|done].
  rewrite length_drop. simpl. lia.
Qed.

Lemma batches_ind (P : list SourceDescriptionChunk → Prop) :
  P [] → (∀ sd, sd ≠ [] → P (drop sdBatchSize sd) → P sd) → ∀ sd, P sd.
Proof.
  intros Hnil Hstep sd. remember (length sd) as n eqn:Hn. revert sd Hn.
  induction n as [n IH] using lt_wf_ind. intros sd Hn.
  destruct sd as [|c sd]; [done|]. apply Hstep; [done|].
  apply (IH (length (drop sdBatchSize (c :: sd)))); [|done].
  rewrite length_drop. pose proof sdBatchSize_pos. simpl in *. lia.
Qed.

Lemma batches_concat (sd : list SourceDescriptionChunk) : concat (batches sd) = sd.
Proof.
  induction sd as [|sd Hne IH] using batches_ind; [done|].
  rewrite batches_cons by done. cbn [concat]. rewrite IH. apply take_drop.
Qed.

Lemma batches_sizes (sd : list SourceDescriptionChunk) :
  Forall (λ b, 0 < length b ≤ sdBatchSize) (batches sd).
Proof.
  induction sd as [|sd Hne IH] using batches_ind; [by constructor|].
  rewrite batches_cons by done. constructor; [|done].
  rewrite length_take. unfold sdBatchSize.
  destruct sd; [done|]. cbn [length]. lia.
Qed.

Lemma ceil_div_step (n : nat) :
  0 < n → ceil_div n sdBatchSize = Datatypes.S (ceil_div (n - sdBatchSize) sdBatchSize).
Proof.
  unfold ceil_div, sdBatchSize. intros Hn.
  destruct (decide (n < 20)) as [Hlt|Hge].
  - replace (n - 20) with 0 by lia.
    rewrite (Nat.div_small (0 + (20 - 1)) 20) by lia.
    symmetry. apply (Nat.div_unique (n + (20 - 1)) 20 1 (n - 1)); lia.
  - replace (n + (20 - 1)) with ((n - 20 + (20 - 1)) + 1 * 20) by lia.
    rewrite Nat.div_add by lia. lia.
Qed.

Lemma batches_length (sd : list SourceDescriptionChunk) :
  length (batches sd) = ceil_div (length sd) sdBatchSize.
Proof.
  induction sd as [|sd Hne IH] using batches_ind; [done|].
  rewrite batches_cons by done. cbn [length]. rewrite IH, length_drop.
  symmetry. apply ceil_div_step. destruct sd; [done|]. simpl. lia.
Qed.

Lemma compound_nil_pkts (bs : list (list SourceDescriptionChunk)) :
  compound [] bs = map (λ b, [SourceDescription b]) bs.
Proof. by destruct bs. Qed.

(** *** The sending loop *)

Lemma sendBatches_step (fuel : nat) (pkts : list Packet)
    (sd : list SourceDescriptionChunk) p :
  sd ≠ [] →
  let out := pkts ++ [SourceDescription (take sdBatchSize sd)] in
  let w := pc_WriteRTCP out (peerConn p) in
  let r := sendBatches fuel [] (drop sdBatchSize sd) (set_peerConn w.2 p) in
  sendBatches (Datatypes.S fuel) pkts sd p =
    match w.1 with
    | Some e =>
        if is_transport_closed e
        then (Done Returned, set_peerConn w.2 p, [EvWriteRTCP out])
        else (outcome r, after r,
              EvWriteRTCP out
                :: EvLog Errorw "could not send downtrack reports" (Some e) :: trace r)
    | None => (outcome r, after r, EvWriteRTCP out :: trace r)
    end.
Proof.
  intros Hne out w r. subst out w r. cbn [sendBatches].
  rewrite decide_True by (destruct sd; [done|simpl; lia]).
  assert (take (if decide (sdBatchSize < length sd) then sdBatchSize else length sd) sd
          = take sdBatchSize sd) as ->.
  { case_decide; [done|]. rewrite !take_ge; [done|lia|done]. }
  assert (drop (if decide (sdBatchSize < length sd) then sdBatchSize else length sd) sd
          = drop sdBatchSize sd) as ->.
  { case_decide; [done|]. rewrite !drop_ge; [done|lia|done]. }
  unfold bind, peerConn_WriteRTCP, logw, emit, ret. simpl.
  destruct (pc_WriteRTCP _ (peerConn p)).1 as [e|]; simpl.
  - destruct (is_transport_closed e); simpl; [done|].
    by destruct (sendBatches fuel [] _ _) as [[? ?] ?].
  - by destruct (sendBatches fuel [] _ _) as [[? ?] ?].
Qed.

Lemma sendBatches_nil (fuel : nat) (pkts : list Packet) p :
  sendBatches (Datatypes.S fuel) pkts [] p = (Done NextTick, p, []).
Proof. done. Qed.

Lemma set_peerConn_frame p p2 (t : T) :
  set_peerConn (peerConn (set_peerConn t p)) p2 = set_peerConn t p →
  set_peerConn (peerConn p) p2 = p.
Proof.
  destruct p2, p. unfold set_peerConn. cbn.
  intros Heq. injection Heq as -> -> -> -> -> -> -> -> -> -> -> ->. done.
Qed.

Lemma sendBatches_run (fuel : nat) : ∀ (pkts : list Packet)
    (sd : list SourceDescriptionChunk) p,
  length (batches sd) < fuel →
  let r := sendBatches fuel pkts sd p in
  (outcome r = Done NextTick ∨ outcome r = Done Returned)
  ∧ writes (trace r) `prefix_of` compound pkts (batches sd)
  ∧ (outcome r = Done NextTick → writes (trace r) = compound pkts (batches sd))
  ∧ (outcome r = Done Returned → writes (trace r) ≠ [])
  ∧ (∀ I : T → Prop, I (peerConn p) → stays_open I → outcome r = Done NextTick)
  ∧ set_peerConn (peerConn p) (after r) = p.
Proof.
  induction fuel as [|fuel IH]; intros pkts sd p Hfuel r; [lia|]. subst r.
  destruct (decide (sd = [])) as [->|Hne].
  - rewrite sendBatches_nil. unfold outcome, after, trace; simpl.
    split_and!; try done; [by left|by destruct p].
  - rewrite sendBatches_step by done. rewrite batches_cons in * by done.
    cbn [length compound] in *.
    set (out := pkts ++ [SourceDescription (take sdBatchSize sd)]).
    set (w := pc_WriteRTCP out (peerConn p)).
    destruct (IH [] (drop sdBatchSize sd) (set_peerConn w.2 p))
      as (Hout & Hpre & Hnext & Hret & Hnever & Hsame); [lia|].
    rewrite compound_nil_pkts in Hpre, Hnext.
    apply set_peerConn_frame in Hsame.
    destruct (sendBatches fuel [] (drop sdBatchSize sd) (set_peerConn w.2 p))
      as [[o p2] evs].
    unfold outcome, after, trace in *. cbn [fst snd] in *.
    destruct w.1 as [e|] eqn:Hw; [destruct (is_transport_closed e) eqn:He|];
      cbn [fst snd writes].
    + split_and!; try done.
      * by right.
      * apply prefix_cons, prefix_nil.
      * intros I HI Hopen. destruct (Hopen out (peerConn p) HI) as [_ Hnc].
        specialize (Hnc e Hw). congruence.
      * by destruct p.
    + split_and!; try done.
      * by apply prefix_cons.
      * intros Hn. by rewrite Hnext.
      * intros I HI Hopen. apply (Hnever I); [|done].
        by destruct (Hopen out (peerConn p) HI) as [? _].
    + split_and!; try done.
      * by apply prefix_cons.
      * intros Hn. by rewrite Hnext.
      * intros I HI Hopen. apply (Hnever I); [|done].
        by destruct (Hopen out (peerConn p) HI) as [? _].
Qed.

Lemma downTracksRTCPWorker_tick_run p (h : Heap) (order : list string) (fuel : nat) :
  let dts := visited (downTracks p) order in
  let r := sendBatches fuel (sender_reports h dts) (bound_chunks h dts) p in
  downTracksRTCPWorker_tick h order fuel p =
    (outcome r, after r, EvSleep 5000 :: EvRLock :: EvRUnlock :: trace r).
Proof.
  intros dts r. subst dts r. unfold downTracksRTCPWorker_tick, bind, emit, get. simpl.
  rewrite collect_reports_spec. simpl.
  by destruct (sendBatches fuel _ _ p) as [[? ?] ?].
Qed.

(** *** The order of the map iteration does not change what is visited *)

Lemma concat_Permutation {A} (l1 l2 : list (list A)) :
  l1 ≡ₚ l2 → concat l1 ≡ₚ concat l2.
Proof.
  induction 1 as [|x l l' _ IH|x y l|l l' l'' _ IH1 _ IH2]; simpl.
  - done.
  - by rewrite IH.
  - rewrite !app_assoc. by rewrite (comm app y x).
  - by etrans.
Qed.

Lemma visited_all (m : gmap string (list DownTrackPtr)) (order : list string) :
  range_of m order → visited m order ≡ₚ all_downTracks m.
Proof.
  unfold range_of, visited, all_downTracks. intros Hperm.
  apply concat_Permutation.
  change (map (λ streamId, m !!! streamId) order) with ((λ streamId, m !!! streamId) <$> order).
  rewrite Hperm, <- list_fmap_compose.
  erewrite list_fmap_ext; [done|].
  intros i [k v] Hi. simpl. apply list_elem_of_lookup_2, elem_of_map_to_list in Hi.
  by rewrite lookup_total_alt, Hi.
Qed.

Lemma compound_length (pkts : list Packet) (bs : list (list SourceDescriptionChunk)) :
  length (compound pkts bs) = length bs.
Proof. destruct bs; [done|]. simpl. by rewrite length_map. Qed.

Lemma one_chunk_each (h : Heap) (dts : list DownTrackPtr) :
  (∀ dt, dt ∈ dts → length (chunks_of h dt) = 1) →
  length (concat (map (chunks_of h) dts)) = length dts.
Proof.
  induction dts as [|dt dts IH]; intros Hone; [done|]. simpl.
  rewrite length_app, IH, Hone; [done|apply list_elem_of_here|].
  intros dt' Hdt'. by apply Hone, list_elem_of_further.
Qed.

(** *** The answers of the transport decide how a tick ends *)





(** The loop returns at the first write that the transport answers with
    [io.EOF] or [io.ErrClosedPipe], whichever it is, having written the
    compound packets up to that one; with no such answer it writes them all
    and goes on to the next tick. *)
Lemma sendBatches_answers (fuel : nat) : ∀ (pkts : list Packet)
    (sd : list SourceDescriptionChunk) p,
  length (batches sd) < fuel →
  let cs := compound pkts (batches sd) in
  let r := sendBatches fuel pkts sd p in
  match closed_at (relay_results cs (peerConn p)) with
  | Some k => outcome r = Done Returned ∧ writes (trace r) = take (Datatypes.S k) cs
  | None =>
      outcome r = Done NextTick ∧ writes (trace r) = cs
      ∧ peerConn (after r) = relay_transport cs (peerConn p)
  end.
Proof.
  induction fuel as [|fuel IH]; intros pkts sd p Hfuel cs r; [lia|]. subst cs r.
  destruct (decide (sd = [])) as [->|Hne].
  - by rewrite sendBatches_nil.
  - rewrite sendBatches_step by done. rewrite batches_cons in * by done.
    cbn [length compound relay_results closed_at] in *.
    set (out := pkts ++ [SourceDescription (take sdBatchSize sd)]).
    set (w := pc_WriteRTCP out (peerConn p)).
    specialize (IH [] (drop sdBatchSize sd) (set_peerConn w.2 p)).
    rewrite compound_nil_pkts in IH. cbv zeta in IH. simpl peerConn in IH.
    assert (length (batches (drop sdBatchSize sd)) < fuel) as Hfuel' by lia.
    specialize (IH Hfuel').
    cbn [relay_transport]. fold w.
    destruct (sendBatches fuel [] (drop sdBatchSize sd) (set_peerConn w.2 p))
      as [[o p2] evs].
    unfold outcome, after, trace in *. cbn [fst snd] in *.
    destruct w.1 as [e|] eqn:Hw; [destruct (is_transport_closed e) eqn:He|];
      cbn [fst snd writes]; [done| |];
      (destruct (closed_at _) as [k|]; simpl;
       [destruct IH as (Hout & Hwr)|destruct IH as (Hout & Hwr & Hrest)];
       rewrite ?Hwr; by split_and!).
Qed.

Lemma downTracksRTCPWorker_returned
    (h : Heap) (order : list string) (rest : list (Heap * list string)) (fuel : nat) p :
  outcome (downTracksRTCPWorker_tick h order fuel p) = Done Returned →
  outcome (downTracksRTCPWorker ((h, order) :: rest) fuel p) = Done tt
  ∧ writes (trace (downTracksRTCPWorker ((h, order) :: rest) fuel p))
    = writes (trace (downTracksRTCPWorker_tick h order fuel p)).
Proof.
  cbn [downTracksRTCPWorker]. unfold bind.
  destruct (downTracksRTCPWorker_tick h order fuel p) as [[o p1] e1].
  unfold outcome, trace. simpl. intros ->. simpl. by rewrite app_nil_r.
Qed.

(** C4 (amended). In a tick the worker gathers, from the down tracks that
    are bound, one sender report each and their source-description chunks,
    [K] chunks in all, and cuts the chunks into batches of 1 to 20. A tick
    that no transport-closed error cuts short writes one compound packet per
    batch, that is the number of chunks over 20 rounded up: none when
    nothing is bound, and the number of bound down tracks over 20 rounded up
    when each yields exactly one chunk. The first compound holds all the
    sender reports followed by the first batch, each later one a single
    Source Description. At the first write, whichever it is, that the
    transport answers with [io.EOF] or [io.ErrClosedPipe] the tick ends and
    the worker returns at once, without the ticks that would follow: the
    writes made are the compound packets up to that one. When no write is
    answered so, the tick writes them all and the worker goes on. The number
    of bound down tracks does not depend on the order in which the map is
    visited. *)
Theorem downTracksRTCPWorker_tick_writes_per_batch
    p (h : Heap) (order : list string) (fuel : nat) :
  range_of (downTracks p) order →
  let dts := bound h (visited (downTracks p) order) in
  let srs := map (λ dt, SenderReport (CreateSenderReport (h dt))) dts in
  let sd := concat (map (chunks_of h) dts) in
  ceil_div (length sd) sdBatchSize < fuel →
  let r := downTracksRTCPWorker_tick h order fuel p in
  length dts = length (bound h (all_downTracks (downTracks p)))
  ∧ length srs = length dts
  ∧ (outcome r = Done NextTick ∨ outcome r = Done Returned)
  ∧ (∀ I : T → Prop, I (peerConn p) → stays_open I → outcome r = Done NextTick)
  ∧ writes (trace r) `prefix_of` compound srs (batches sd)
  ∧ (outcome r = Done NextTick →
       writes (trace r) = compound srs (batches sd)
       ∧ length (writes (trace r)) = ceil_div (length sd) sdBatchSize)
  ∧ (dts = [] → writes (trace r) = [])
  ∧ concat (batches sd) = sd
  ∧ Forall (λ b, 0 < length b ≤ sdBatchSize) (batches sd)
  ∧ ((∀ dt, dt ∈ dts → length (chunks_of h dt) = 1) → length sd = length dts)
  ∧ (∀ k, closed_at (relay_results (compound srs (batches sd)) (peerConn p)) = Some k →
       outcome r = Done Returned
       ∧ writes (trace r) = take (Datatypes.S k) (compound srs (batches sd))
       ∧ ∀ rest : list (Heap * list string),
           outcome (downTracksRTCPWorker ((h, order) :: rest) fuel p) = Done tt
           ∧ writes (trace (downTracksRTCPWorker ((h, order) :: rest) fuel p))
             = take (Datatypes.S k) (compound srs (batches sd)))
  ∧ (closed_at (relay_results (compound srs (batches sd)) (peerConn p)) = None →
       outcome r = Done NextTick ∧ writes (trace r) = compound srs (batches sd)).
Proof.
  intros Hrange dts srs sd Hfuel r.
  assert (∀ rest : list (Heap * list string), outcome r = Done Returned →
            outcome (downTracksRTCPWorker ((h, order) :: rest) fuel p) = Done tt
            ∧ writes (trace (downTracksRTCPWorker ((h, order) :: rest) fuel p))
              = writes (trace r)) as Hworker.
  { intros rest. apply downTracksRTCPWorker_returned. }
  revert Hworker. subst r.
  rewrite downTracksRTCPWorker_tick_run.
  change (sender_reports h (visited (downTracks p) order)) with srs.
  change (bound_chunks h (visited (downTracks p) order)) with sd.
  rewrite <- batches_length in Hfuel.
  pose proof (sendBatches_answers fuel srs sd p Hfuel) as Hans. cbv zeta in Hans.
  destruct (sendBatches_run fuel srs sd p Hfuel)
    as (Hout & Hpre & Hnext & _ & Hnever & _).
  destruct (sendBatches fuel srs sd p) as [[o p2] evs].
  unfold outcome, after, trace in *. cbn [fst snd writes] in *.
  intros Hworker. split_and!.
  - unfold dts, bound. by rewrite (visited_all _ _ Hrange).
  - unfold srs. by rewrite length_map.
  - done.
  - done.
  - done.
  - intros Ho. rewrite (Hnext Ho). split; [done|].
    by rewrite compound_length, batches_length.
  - intros Hnil. assert (sd = []) as Hsd by (unfold sd; by rewrite Hnil).
    rewrite Hsd in Hpre. by apply prefix_nil_inv in Hpre.
  - apply batches_concat.
  - apply batches_sizes.
  - apply one_chunk_each.
  - intros k Hk. rewrite Hk in Hans. destruct Hans as [Ho Hw].
    split_and!; [done..|]. intros rest.
    destruct (Hworker rest Ho) as [-> ->]. by split.
  - intros Hk. rewrite Hk in Hans. by destruct Hans as (? & ? & _).
Qed.

(** ** The relay worker *)

Lemma emit_all_run (evs : list Event) p : emit_all evs p = (Done tt, p, evs).
Proof.
  induction evs as [|e evs IH]; [done|].
  cbn [emit_all]. unfold bind, emit. by rewrite IH.
Qed.

Lemma writes_logs (pkts : list Packet) :
  writes (map (λ _, EvLog Debugw "writing RTCP" None) pkts) = [].
Proof. by induction pkts. Qed.

Lemma rtcpSendWorker_step_empty (fuel : nat) p :
  chan_buf (rtcpCh p) = [] →
  rtcpSendWorker (Datatypes.S fuel) p =
    if chan_closed (rtcpCh p) then (Done tt, p, []) else (Blocked, p, []).
Proof.
  intros Hbuf. cbn [rtcpSendWorker]. unfold bind, get. rewrite Hbuf.
  by destruct (chan_closed (rtcpCh p)).
Qed.

Lemma rtcpSendWorker_step_cons (fuel : nat) p (pkts : list Packet) rest :
  chan_buf (rtcpCh p) = pkts :: rest →
  let p0 := set_rtcpCh {| chan_buf := rest; chan_closed := chan_closed (rtcpCh p);
                          chan_cap := chan_cap (rtcpCh p) |} p in
  let w := pc_WriteRTCP pkts (peerConn p) in
  let r := rtcpSendWorker fuel (set_peerConn w.2 p0) in
  rtcpSendWorker (Datatypes.S fuel) p =
    (outcome r, after r,
     map (λ _, EvLog Debugw "writing RTCP" None) pkts
       ++ EvWriteRTCP pkts
       :: match w.1 with
          | Some e => [EvLog Errorw "could not write RTCP to participant" (Some e)]
          | None => []
          end ++ trace r).
Proof.
  intros Hbuf p0 w r. subst p0 w r. cbn [rtcpSendWorker].
  unfold bind at 1, get at 1. rewrite Hbuf.
  unfold bind at 1 2, modify at 1. rewrite emit_all_run.
  unfold bind, peerConn_WriteRTCP, logw, emit, ret. cbn.
  destruct (pc_WriteRTCP pkts (peerConn p)).1 as [e|]; cbn;
    destruct (rtcpSendWorker fuel _) as [[? ?] ?]; cbn; by rewrite ?app_nil_r.
Qed.





End Properties.

(** * More of the session *)

Section MoreProperties.
Context {T S : Type} `{!PeerConnection T} `{!SignalConnection S}.

Abbreviation Participant := (Participant T S).
Abbreviation Go := (@Go T S).

Implicit Types (p q : Participant).

(** ** What a routine leaves alone *)

Lemma keeps_bind {A B X} (f : Participant → X) (m : Go A) (k : A → Go B) :
  keeps f m → (∀ a, keeps f (k a)) → keeps f (bind m k).
Proof.
  intros Hm Hk p. unfold bind. specialize (Hm p).
  destruct (m p) as [[o p1] e1]. unfold after in *. simpl in *.
  destruct o as [a| | |]; try done.
  specialize (Hk a p1). unfold after in Hk.
  destruct (k a p1) as [[o2 p2] e2]. simpl in *. congruence.
Qed.

Lemma keeps_leaf {A X} (f : Participant → X) (m : Go A) :
  (∀ p, f (after (m p)) = f p) → keeps f m.
Proof. done. Qed.

(** Takes a routine apart along its binds and branches; a leaf is settled by
    computation, or by what [f] is known to ignore. *)
Ltac keeps_auto :=
  repeat first
    [ progress intros
    | apply keeps_bind
    | match goal with
      | |- keeps _ (match ?x with _ => _ end) => destruct x
      | |- keeps _ (when ?b _) => unfold when
      | |- keeps _ (logw _ _ _) => unfold logw
      end
    | solve [apply keeps_leaf; intros ?; unfold after; simpl;
             first [reflexivity | match goal with H : ignores _ _ |- _ => apply H end]] ].

Section Footprints.
Context {X : Type} (f : Participant → X).

Lemma updateState_footprint st : ignores f set_state → keeps f (updateState st).
Proof. intros Hf p. rewrite updateState_run. unfold after; simpl. apply Hf. Qed.

Lemma Answer_footprint sdp :
  ignores f set_peerConn → ignores f set_sigConn → ignores f set_state →
  keeps f (Answer sdp).
Proof. intros Hpc Hsc Hst. unfold Answer. keeps_auto. Qed.

Lemma HandleNegotiate_footprint sd :
  ignores f set_peerConn → ignores f set_sigConn → keeps f (HandleNegotiate sd).
Proof. intros Hpc Hsc. unfold HandleNegotiate. keeps_auto. Qed.

Lemma SetRemoteDescription_footprint sdp :
  ignores f set_peerConn → keeps f (SetRemoteDescription sdp).
Proof. intros Hpc. unfold SetRemoteDescription. keeps_auto. Qed.

Lemma onICEConnectionStateChange_footprint ice :
  ignores f set_state → keeps f (onICEConnectionStateChange ice).
Proof.
  intros Hst. unfold onICEConnectionStateChange. keeps_auto.
Qed.

Lemma Start_footprint : ignores f set_once → keeps f Start.
Proof. intros Ho. unfold Start. keeps_auto. Qed.

Lemma Close_footprint :
  ignores f set_peerConn → ignores f set_state → ignores f set_rtcpCh →
  ignores f set_ctxErr → keeps f Close.
Proof.
  intros Hpc Hst Hch Hctx. unfold Close, close_rtcpCh, cancel.
  keeps_auto.
Qed.

Lemma AddSubscriber_range_footprint op order :
  ignores f set_tracks → keeps f (AddSubscriber_range op order).
Proof.
  intros Htr. induction order as [|tid rest IH]; cbn [AddSubscriber_range]; keeps_auto;
    apply IH.
Qed.

Lemma AddSubscriber_footprint op order : ignores f set_tracks → keeps f (AddSubscriber op order).
Proof.
  intros Htr. unfold AddSubscriber. keeps_auto. by apply AddSubscriber_range_footprint.
Qed.

Lemma RemoveSubscriber_range_footprint peerId order :
  ignores f set_tracks → keeps f (RemoveSubscriber_range peerId order).
Proof.
  intros Htr. induction order as [|tid rest IH]; cbn [RemoveSubscriber_range]; keeps_auto;
    apply IH.
Qed.

Lemma RemoveSubscriber_footprint peerId order :
  ignores f set_tracks → keeps f (RemoveSubscriber peerId order).
Proof.
  intros Htr. unfold RemoveSubscriber. keeps_auto. by apply RemoveSubscriber_range_footprint.
Qed.

Lemma handleTrackPublished_footprint track :
  ignores f set_tracks → ignores f set_sigConn → keeps f (handleTrackPublished track).
Proof. intros Htr Hsc. unfold handleTrackPublished, tracks_store, track_Start. keeps_auto. Qed.

Lemma publish_footprint pub :
  ignores f set_tracks → ignores f set_sigConn → keeps f (publish pub).
Proof.
  intros Htr Hsc. destruct pub; unfold publish, onMediaTrack, onDataChannel, tracks_store,
    track_Start; keeps_auto.
Qed.

Lemma addDownTrack_footprint streamId dt :
  ignores f set_downTracks → keeps f (addDownTrack streamId dt).
Proof. intros Hd. unfold addDownTrack. keeps_auto. Qed.

Lemma removeDownTrack_footprint streamId dt :
  ignores f set_downTracks → keeps f (removeDownTrack streamId dt).
Proof. intros Hd. unfold removeDownTrack. keeps_auto. Qed.

Lemma bindingReports_loop_footprint fuel batch i :
  ignores f set_peerConn → keeps f (bindingReports_loop fuel batch i).
Proof.
  intros Hpc. revert i. induction fuel as [|fuel IH]; intros i;
    cbn [bindingReports_loop]; keeps_auto; apply IH.
Qed.

Lemma scheduleDownTrackBindingReports_footprint h streamId fuel :
  ignores f set_peerConn → keeps f (scheduleDownTrackBindingReports h streamId fuel).
Proof.
  intros Hpc. unfold scheduleDownTrackBindingReports. keeps_auto.
  all: by apply bindingReports_loop_footprint.
Qed.

Lemma sendBatches_footprint fuel pkts sd :
  ignores f set_peerConn → keeps f (sendBatches fuel pkts sd).
Proof.
  intros Hpc. revert pkts sd. induction fuel as [|fuel IH]; intros pkts sd;
    cbn [sendBatches]; keeps_auto; apply IH.
Qed.

Lemma downTracksRTCPWorker_tick_footprint h order fuel :
  ignores f set_peerConn → keeps f (downTracksRTCPWorker_tick h order fuel).
Proof.
  intros Hpc. unfold downTracksRTCPWorker_tick. keeps_auto. all: by apply sendBatches_footprint.
Qed.

Lemma downTracksRTCPWorker_footprint ticks fuel :
  ignores f set_peerConn → keeps f (downTracksRTCPWorker ticks fuel).
Proof.
  intros Hpc. induction ticks as [|[h order] rest IH]; cbn [downTracksRTCPWorker];
    keeps_auto;
    first [apply IH | by apply sendBatches_footprint
          | by apply downTracksRTCPWorker_tick_footprint].
Qed.

Lemma emit_all_footprint evs : keeps f (emit_all evs).
Proof. intros p. by rewrite emit_all_run. Qed.

Lemma rtcpSendWorker_footprint fuel :
  ignores f set_peerConn → ignores f set_rtcpCh → keeps f (rtcpSendWorker fuel).
Proof.
  intros Hpc Hch. induction fuel as [|fuel IH]; cbn [rtcpSendWorker]; keeps_auto;
    first [apply emit_all_footprint | apply IH].
Qed.

Lemma send_rtcpCh_footprint pkts : ignores f set_rtcpCh → keeps f (send_rtcpCh pkts).
Proof. intros Hch. unfold send_rtcpCh. keeps_auto. Qed.

End Footprints.

(** Settles [keeps f m] for a routine [m] of the session, possibly followed
    by a [ret], and an [f] written out: the footprint of the routine applies,
    and [f] visibly ignores what the routine writes. *)
Ltac keeps_routine :=
  first
    [ apply Answer_footprint | apply HandleNegotiate_footprint
    | apply SetRemoteDescription_footprint | apply onICEConnectionStateChange_footprint
    | apply Start_footprint | apply Close_footprint | apply AddSubscriber_footprint
    | apply RemoveSubscriber_footprint | apply publish_footprint
    | apply addDownTrack_footprint | apply removeDownTrack_footprint
    | apply scheduleDownTrackBindingReports_footprint
    | apply downTracksRTCPWorker_tick_footprint | apply downTracksRTCPWorker_footprint
    | apply rtcpSendWorker_footprint | apply send_rtcpCh_footprint
    | apply updateState_footprint ];
  intros ? ?; reflexivity.

Ltac keeps_exec :=
  first [ keeps_routine
        | apply keeps_bind; [keeps_routine | intros ? ?; reflexivity] ].

(** ** Steps of the loops over the registry *)

Lemma AddSubscriber_range_skip (op tid : string) (rest : list string) p :
  tracks p !! tid = None →
  AddSubscriber_range op (tid :: rest) p = AddSubscriber_range op rest p.
Proof.
  intros Hlook. cbn [AddSubscriber_range]. unfold bind, get. rewrite Hlook.
  by destruct (AddSubscriber_range op rest p) as [[? ?] ?].
Qed.

Lemma AddSubscriber_range_step (op tid : string) (rest : list string) p track :
  tracks p !! tid = Some track →
  let r := track_AddSubscriber track op in
  let p1 := set_tracks (<[tid := r.1]> (tracks p)) p in
  let evs := [EvLog Debugw "subscribing to remoteTrack" None; EvTrackAddSubscriber tid op] in
  AddSubscriber_range op (tid :: rest) p =
    match r.2 with
    | Some e => (Done (Some e), p1, evs)
    | None =>
        (outcome (AddSubscriber_range op rest p1), after (AddSubscriber_range op rest p1),
         evs ++ trace (AddSubscriber_range op rest p1))
    end.
Proof.
  intros Hlook r p1 evs. subst r p1 evs. cbn [AddSubscriber_range].
  unfold bind at 1, get at 1. rewrite Hlook.
  unfold bind, logw, emit, modify, ret. simpl.
  destruct (track_AddSubscriber track op).2; [done|].
  by destruct (AddSubscriber_range op rest _) as [[? ?] ?].
Qed.

Lemma RemoveSubscriber_range_skip (peerId tid : string) (rest : list string) p :
  tracks p !! tid = None →
  RemoveSubscriber_range peerId (tid :: rest) p = RemoveSubscriber_range peerId rest p.
Proof.
  intros Hlook. cbn [RemoveSubscriber_range]. unfold bind, get. rewrite Hlook.
  by destruct (RemoveSubscriber_range peerId rest p) as [[? ?] ?].
Qed.

Lemma RemoveSubscriber_range_step (peerId tid : string) (rest : list string) p track :
  tracks p !! tid = Some track →
  RemoveSubscriber_range peerId (tid :: rest) p =
    RemoveSubscriber_range peerId rest
      (set_tracks (<[tid := unsubscribed peerId track]> (tracks p)) p).
Proof.
  intros Hlook. cbn [RemoveSubscriber_range].
  unfold bind at 1, get at 1. rewrite Hlook. unfold bind, modify. simpl.
  by destruct (RemoveSubscriber_range peerId rest _) as [[? ?] ?].
Qed.

(** ** What every session keeps *)

Lemma after_bind_ret' {A} (m : Go A) p : after (bind m (λ _, ret tt) p) = after (m p).
Proof. unfold bind, ret. destruct (m p) as [[o p1] e1]. by destruct o. Qed.

Lemma invariant_transfer p q :
  ctxErr q = ctxErr p →
  chan_closed (rtcpCh q) = chan_closed (rtcpCh p) →
  (state q = ParticipantInfo_DISCONNECTED → state p = ParticipantInfo_DISCONNECTED) →
  length (chan_buf (rtcpCh q)) ≤ chan_cap (rtcpCh q) →
  keyed q →
  invariant p → invariant q.
Proof.
  intros Hctx Hclosed Hstate Hcap Hkeys [Hq Hc Hd _ _].
  split; rewrite ?Hctx, ?Hclosed; auto.
Qed.

Lemma keyed_store p (tid : string) (track : PublishedTrack) :
  keyed p → track_ID track = tid → keyed (set_tracks (<[tid := track]> (tracks p)) p).
Proof.
  intros Hkeys Hid tid' track'. simpl. destruct (decide (tid = tid')) as [<-|Hne].
  - rewrite lookup_insert_eq. by intros [= <-].
  - rewrite lookup_insert_ne by done. apply Hkeys.
Qed.

Lemma AddSubscriber_range_keyed (op : string) (order : list string) p :
  keyed p → keyed (after (AddSubscriber_range op order p)).
Proof.
  revert p. induction order as [|tid rest IH]; intros p Hkeys; [done|].
  destruct (tracks p !! tid) as [track|] eqn:Hlook.
  - rewrite (AddSubscriber_range_step op tid rest p track Hlook). cbv zeta.
    assert (keyed (set_tracks (<[tid := (track_AddSubscriber track op).1]> (tracks p)) p))
      as Hkeys1.
    { apply keyed_store; [done|]. unfold track_AddSubscriber.
      destruct (track_refuses track op); simpl; by apply Hkeys. }
    destruct (track_AddSubscriber track op).2; [done|]. by apply IH.
  - rewrite AddSubscriber_range_skip by done. by apply IH.
Qed.

Lemma RemoveSubscriber_range_keyed (peerId : string) (order : list string) p :
  keyed p → keyed (after (RemoveSubscriber_range peerId order p)).
Proof.
  revert p. induction order as [|tid rest IH]; intros p Hkeys; [done|].
  destruct (tracks p !! tid) as [track|] eqn:Hlook.
  - rewrite (RemoveSubscriber_range_step peerId tid rest p track Hlook).
    apply IH, keyed_store; [done|]. simpl. by apply Hkeys.
  - rewrite RemoveSubscriber_range_skip by done. by apply IH.
Qed.

Lemma AddSubscriber_after (op : string) (order : list string) p :
  after (AddSubscriber op order p) = after (AddSubscriber_range op order p).
Proof.
  unfold AddSubscriber, bind, emit, ret. simpl.
  destruct (AddSubscriber_range op order p) as [[o p1] e1]. by destruct o.
Qed.

Lemma RemoveSubscriber_after (peerId : string) (order : list string) p :
  after (RemoveSubscriber peerId order p) = after (RemoveSubscriber_range peerId order p).
Proof.
  unfold RemoveSubscriber, bind, emit. simpl.
  destruct (RemoveSubscriber_range peerId order p) as [[o p1] e1]. by destruct o.
Qed.

Lemma publish_keyed (pub : Publication) p : keyed p → keyed (after (publish pub p)).
Proof.
  intros Hkeys. destruct pub as [tid refuses|dc tid refuses]; simpl.
  - rewrite onMediaTrack_run. unfold after; simpl.
    intros tid' track'. simpl. apply (keyed_store p tid (NewMediaTrack tid refuses)); done.
  - destruct (decide (dc_Label dc = placeholderDataChannel)) as [Hl|Hl].
    + by rewrite onDataChannel_private.
    + rewrite onDataChannel_run by done. unfold after; simpl.
      intros tid' track'. simpl. apply (keyed_store p tid (NewDataTrack tid refuses)); done.
Qed.

(** The relay worker takes batches out of the queue and touches nothing else
    of the session's life. *)
Lemma rtcpSendWorker_life (fuel : nat) : ∀ p,
  let q := after (rtcpSendWorker fuel p) in
  ctxErr q = ctxErr p ∧ state q = state p ∧ tracks q = tracks p
  ∧ chan_closed (rtcpCh q) = chan_closed (rtcpCh p)
  ∧ chan_cap (rtcpCh q) = chan_cap (rtcpCh p)
  ∧ length (chan_buf (rtcpCh q)) ≤ length (chan_buf (rtcpCh p)).
Proof.
  induction fuel as [|fuel IH]; intros p q; subst q; [done|].
  destruct (chan_buf (rtcpCh p)) as [|pkts rest] eqn:Hbuf.
  - rewrite rtcpSendWorker_step_empty by done.
    destruct (chan_closed (rtcpCh p)) eqn:Hc; unfold after; simpl;
      rewrite ?Hc, Hbuf; by split_and!.
  - rewrite (rtcpSendWorker_step_cons fuel p pkts rest Hbuf). cbv zeta.
    match goal with |- context [rtcpSendWorker fuel ?p1] => specialize (IH p1) end.
    cbv zeta in IH.
    destruct (rtcpSendWorker fuel _) as [[o q] evs]. unfold after in *. simpl in *.
    destruct IH as (-> & -> & -> & -> & -> & Hlen).
    split_and!; try done. lia.
Qed.

Lemma exec_keeps_invariant (o : Operation) p : invariant p → invariant (after (exec o p)).
Proof.
  intros Hinv.
  assert (∀ q, (ctxErr q, state q, rtcpCh q, tracks q) = (ctxErr p, state p, rtcpCh p, tracks p)
               → invariant q) as Hsame.
  { intros q [= Hctx Hst Hch Htr]. destruct Hinv as [? ? ? Hcap Hkeys].
    apply (invariant_transfer p q); rewrite ?Hch, ?Hst; try done;
      first [by split | unfold keyed; by rewrite Htr]. }
  assert (∀ q, (ctxErr q, state q, rtcpCh q) = (ctxErr p, state p, rtcpCh p)
               → keyed q → invariant q) as Hregistry.
  { intros q [= Hctx Hst Hch] Hkeys. destruct Hinv as [? ? ? Hcap ?].
    apply (invariant_transfer p q); rewrite ?Hch, ?Hst; try done; by split. }
  assert (∀ q, (ctxErr q, rtcpCh q, tracks q) = (ctxErr p, rtcpCh p, tracks p)
               → (state q = state p ∨ state q ≠ ParticipantInfo_DISCONNECTED)
               → invariant q) as Hstate.
  { intros q [= Hctx Hch Htr] Hst. destruct Hinv as [? ? ? Hcap Hkeys].
    apply (invariant_transfer p q); rewrite ?Hch; try done;
      first [by split | unfold keyed; by rewrite Htr | by destruct Hst as [->|Hst]]. }
  destruct o as [sdp|sd|sdp|ice| | |op order|peerId order|pub|streamId dt|streamId dt
                |h streamId fuel|h order fuel|fuel|pkts]; cbn [exec].
  - apply Hstate.
    + apply (λ H, H p). change (keeps (λ q, (ctxErr q, rtcpCh q, tracks q))
                                  (bind (Answer sdp) (λ _, ret tt))). keeps_exec.
    + rewrite after_bind_ret'. destruct (Answer_state p sdp) as [->|[_ ->]]; [by left|by right].
  - apply Hsame, (λ H, H p).
    change (keeps (λ q, (ctxErr q, state q, rtcpCh q, tracks q))
              (bind (HandleNegotiate sd) (λ _, ret tt))). keeps_exec.
  - apply Hsame, (λ H, H p).
    change (keeps (λ q, (ctxErr q, state q, rtcpCh q, tracks q))
              (bind (SetRemoteDescription sdp) (λ _, ret tt))). keeps_exec.
  - apply Hstate.
    + apply (λ H, H p). change (keeps (λ q, (ctxErr q, rtcpCh q, tracks q))
                                  (onICEConnectionStateChange ice)). keeps_exec.
    + rewrite onICEConnectionStateChange_state. case_decide; [by right|by left].
  - apply Hsame, (λ H, H p).
    change (keeps (λ q, (ctxErr q, state q, rtcpCh q, tracks q)) Start). keeps_exec.
  - rewrite after_bind_ret'. destruct (ctxErr p) as [e|] eqn:Hctx.
    + by rewrite (Close_cancelled p e).
    + assert (chan_closed (rtcpCh p) = false) as Hch.
      { destruct (chan_closed (rtcpCh p)) eqn:Hc; [|done].
        destruct Hinv as [[Hq _] _ _ _ _]. by destruct (Hq Hc). }
      rewrite Close_run by done. unfold after; simpl.
      destruct Hinv as [? ? ? Hcap Hkeys]. split; simpl; try done.
      * by right.
  - apply Hregistry.
    + apply (λ H, H p). change (keeps (λ q, (ctxErr q, state q, rtcpCh q))
                                  (bind (AddSubscriber op order) (λ _, ret tt))). keeps_exec.
    + rewrite after_bind_ret', AddSubscriber_after. apply AddSubscriber_range_keyed, Hinv.
  - apply Hregistry.
    + apply (λ H, H p). change (keeps (λ q, (ctxErr q, state q, rtcpCh q))
                                  (RemoveSubscriber peerId order)). keeps_exec.
    + rewrite RemoveSubscriber_after. apply RemoveSubscriber_range_keyed, Hinv.
  - apply Hregistry.
    + apply (λ H, H p). change (keeps (λ q, (ctxErr q, state q, rtcpCh q)) (publish pub)).
      apply publish_footprint; intros ? ?; reflexivity.
    + apply publish_keyed, Hinv.
  - apply Hsame, (λ H, H p).
    change (keeps (λ q, (ctxErr q, state q, rtcpCh q, tracks q)) (addDownTrack streamId dt)).
    keeps_exec.
  - apply Hsame, (λ H, H p).
    change (keeps (λ q, (ctxErr q, state q, rtcpCh q, tracks q)) (removeDownTrack streamId dt)).
    keeps_exec.
  - apply Hsame, (λ H, H p).
    change (keeps (λ q, (ctxErr q, state q, rtcpCh q, tracks q))
              (scheduleDownTrackBindingReports h streamId fuel)). keeps_exec.
  - apply Hsame, (λ H, H p).
    change (keeps (λ q, (ctxErr q, state q, rtcpCh q, tracks q))
              (bind (downTracksRTCPWorker_tick h order fuel) (λ _, ret tt))). keeps_exec.
  - destruct (rtcpSendWorker_life fuel p) as (Hctx & Hst & Htr & Hcl & Hcap & Hlen).
    destruct Hinv as [? ? ? Hcap' Hkeys].
    apply (invariant_transfer p); try done;
      first [by rewrite Hst | rewrite Hcap; lia | unfold keyed; by rewrite Htr | by split].
  - unfold send_rtcpCh, bind, get, modify, blocked, panic. simpl.
    destruct (chan_closed (rtcpCh p)) eqn:Hcl; simpl; [done|].
    case_decide as Hroom; simpl; [|done].
    destruct Hinv as [? ? ? Hcap Hkeys]. split; simpl; try done.
    + by rewrite <- Hcl.
    + rewrite length_app. simpl. lia.
Qed.

(** Reads [f (after (exec o p)) = f p] off the footprint of the routine. *)
Ltac exec_keeps f :=
  match goal with
  | |- context [after (exec ?o ?p)] =>
      let H := fresh "Hkept" in
      assert (f (after (exec o p)) = f p) as H
        by (apply (λ K : keeps f (exec o), K p); cbn [exec]; keeps_exec);
      cbv beta in H
  end.

Lemma Close_panics p :
  ctxErr p = None → chan_closed (rtcpCh p) = true →
  Close p = (Panic "close of closed channel", p, []).
Proof.
  intros Hctx Hc. unfold Close, close_rtcpCh, bind, get, panic. simpl.
  rewrite Hctx. simpl. by rewrite Hc.
Qed.

Lemma NewParticipant_invariant (pc : T) (sc : S) (name guid : string) :
  invariant (NewParticipant pc sc name guid).
Proof.
  split; simpl; try done.
  - by left.
  - lia.
Qed.

Lemma with_observers_invariant p : invariant p → invariant (with_observers p).
Proof. intros [? ? ? ? ?]. by split. Qed.

Lemma exec_all_keeps_invariant (ops : list Operation) : ∀ p,
  invariant p → invariant (exec_all ops p).
Proof.
  induction ops as [|o rest IH]; intros p Hinv; [done|].
  cbn [exec_all]. by apply IH, exec_keeps_invariant.
Qed.

(** X1. Whatever routines run on a session made by [NewParticipant], one
    after another and in any number, with or without the observers
    registered: the queue is closed exactly when the context is cancelled,
    the context's error is nil or [context.Canceled], a Disconnected session
    is a cancelled one, the queue never holds more than its capacity of 10
    batches, and every published track is stored under its own id. *)
Theorem session_invariant (pc : T) (sc : S) (name guid : string) (observed : bool)
    (ops : list Operation) :
  let p0 := NewParticipant pc sc name guid in
  let q := exec_all ops (if observed then with_observers p0 else p0) in
  (chan_closed (rtcpCh q) = true ↔ ctxErr q ≠ None)
  ∧ (ctxErr q = None ∨ ctxErr q = Some context_Canceled)
  ∧ (state q = ParticipantInfo_DISCONNECTED → ctxErr q ≠ None)
  ∧ length (chan_buf (rtcpCh q)) ≤ 10
  ∧ chan_cap (rtcpCh q) = 10
  ∧ (∀ tid track, tracks q !! tid = Some track → track_ID track = tid).
Proof.
  intros p0 q.
  assert (invariant q ∧ chan_cap (rtcpCh q) = 10) as [[Hq Hc Hd Hcap Hkeys] Hten].
  { subst q. split.
    - apply exec_all_keeps_invariant.
      destruct observed; [apply with_observers_invariant|]; apply NewParticipant_invariant.
    - assert (chan_cap (rtcpCh (if observed then with_observers p0 else p0)) = 10) as Hp
        by by destruct observed.
      revert Hp. generalize (if observed then with_observers p0 else p0).
      induction ops as [|o rest IH]; intros p Hp; [done|].
      cbn [exec_all]. apply IH. rewrite <- Hp.
      destruct o as [sdp|sd|sdp|ice| | |op order|peerId order|pub|streamId dt|streamId dt
                |h streamId fuel|h order fuel|fuel|pkts];
        try (exec_keeps (λ q, chan_cap (rtcpCh q)); exact Hkept).
      + cbn [exec]. rewrite after_bind_ret'. destruct (ctxErr p) as [e|] eqn:Hctx.
        * by rewrite (Close_cancelled p e).
        * destruct (chan_closed (rtcpCh p)) eqn:Hc;
            [by rewrite Close_panics|by rewrite Close_run].
      + cbn [exec]. by destruct (rtcpSendWorker_life fuel p) as (_ & _ & _ & _ & -> & _).
      + cbn [exec]. unfold send_rtcpCh, bind, get, modify, blocked, panic. simpl.
        destruct (chan_closed (rtcpCh p)); [done|]. by case_decide. }
  rewrite Hten in Hcap. by split_and!.
Qed.

Lemma exec_cancelled (o : Operation) p (e : error) :
  ctxErr p = Some e →
  ctxErr (after (exec o p)) = Some e
  ∧ chan_closed (rtcpCh (after (exec o p))) = chan_closed (rtcpCh p).
Proof.
  intros Hctx. rewrite <- Hctx.
  destruct o as [sdp|sd|sdp|ice| | |op order|peerId order|pub|streamId dt|streamId dt
                |h streamId fuel|h order fuel|fuel|pkts];
    try (exec_keeps (λ q, (ctxErr q, rtcpCh q)); pose proof (f_equal fst Hkept) as Hk1;
         pose proof (f_equal snd Hkept) as Hk2; cbn [fst snd] in Hk1, Hk2;
         by rewrite Hk1, Hk2).
  - cbn [exec]. rewrite after_bind_ret'. by rewrite (Close_cancelled p e).
  - cbn [exec]. by destruct (rtcpSendWorker_life fuel p) as (-> & _ & _ & -> & _).
  - cbn [exec]. unfold send_rtcpCh, bind, get, modify, blocked, panic. simpl.
    destruct (chan_closed (rtcpCh p)) eqn:Hc; [done|]. case_decide; simpl; by rewrite ?Hc.
Qed.

Lemma exec_all_cancelled (ops : list Operation) : ∀ p (e : error),
  ctxErr p = Some e →
  ctxErr (exec_all ops p) = Some e
  ∧ chan_closed (rtcpCh (exec_all ops p)) = chan_closed (rtcpCh p).
Proof.
  induction ops as [|o rest IH]; intros p e Hctx; [done|].
  cbn [exec_all]. destruct (exec_cancelled o p e Hctx) as [Hctx1 Hc1].
  destruct (IH _ e Hctx1) as [-> ->]. done.
Qed.

(** X2. [Close] is final. Once a [Close] has gone through, whatever routines
    run afterwards, the context stays cancelled and the queue stays closed:
    every later [Close] returns [context.Canceled] and does nothing, and a
    producer that sends on the queue panics. *)
Theorem Close_is_final p (ops : list Operation) (pkts : list Packet) :
  ctxErr p = None → chan_closed (rtcpCh p) = false →
  let q := exec_all ops (after (Close p)) in
  ctxErr q = Some context_Canceled
  ∧ chan_closed (rtcpCh q) = true
  ∧ Close q = (Done (Some context_Canceled), q, [])
  ∧ send_rtcpCh pkts q = (Panic "send on closed channel", q, []).
Proof.
  intros Hctx Hopen q.
  destruct (exec_all_cancelled ops (after (Close p)) context_Canceled) as [Hq Hc].
  { by rewrite Close_run. }
  fold q in Hq, Hc. rewrite Close_run in Hc by done. unfold after in Hc; simpl in Hc.
  split_and!; try done.
  - by apply Close_cancelled.
  - unfold send_rtcpCh, bind, get, panic. simpl. by rewrite Hc.
Qed.

Lemma exec_once (o : Operation) p : once p = true → once (after (exec o p)) = true.
Proof.
  intros Honce. rewrite <- Honce.
  destruct o as [sdp|sd|sdp|ice| | |op order|peerId order|pub|streamId dt|streamId dt
                |h streamId fuel|h order fuel|fuel|pkts];
    try (exec_keeps (λ q, once q); exact Hkept).
  cbn [exec]. unfold Start, bind, get. simpl. by rewrite Honce.
Qed.

Lemma exec_all_once (ops : list Operation) : ∀ p, once p = true → once (exec_all ops p) = true.
Proof.
  induction ops as [|o rest IH]; intros p Honce; [done|].
  cbn [exec_all]. by apply IH, exec_once.
Qed.

(** X3. [Start] spawns the two workers the first time it is called, and
    never again: whatever routines run after a [Start], a later [Start]
    returns at once, spawns nothing and changes nothing. [Start] does not
    look at the context: it spawns the workers also on a closed session. *)
Theorem Start_spawns_the_workers_once p (ops : list Operation) :
  Start p =
    (Done tt, (if once p then p else set_once true p),
     if once p then [] else [EvGo "rtcpSendWorker"; EvGo "downTracksRTCPWorker"])
  ∧ let q := exec_all ops (after (Start p)) in Start q = (Done tt, q, []).
Proof.
  assert (∀ p', Start p' =
            (Done tt, (if once p' then p' else set_once true p'),
             if once p' then [] else [EvGo "rtcpSendWorker"; EvGo "downTracksRTCPWorker"]))
    as Hrun.
  { intros p'. unfold Start, bind, get. simpl. by destruct (once p'). }
  split; [apply Hrun|]. intros q.
  assert (once q = true) as Honce.
  { apply exec_all_once. rewrite Hrun. unfold after; simpl. by destruct (once p) eqn:Ho. }
  by rewrite Hrun, Honce.
Qed.

(** ** The registry of down tracks *)

Lemma filter_commute {A} (P Q : A → Prop) `{!∀ x, Decision (P x), !∀ x, Decision (Q x)}
    (l : list A) :
  filter P (filter Q l) = filter Q (filter P l).
Proof.
  induction l as [|x l IH]; [done|].
  rewrite !filter_cons. destruct (decide (Q x)), (decide (P x));
    rewrite ?filter_cons; repeat case_decide; try done; by rewrite IH.
Qed.

Lemma filter_idemp {A} (P : A → Prop) `{!∀ x, Decision (P x)} (l : list A) :
  filter P (filter P l) = filter P l.
Proof. apply filter_all. intros x Hx. by apply list_elem_of_filter in Hx as [? _]. Qed.

(** X4. Removing a down track right after adding it is as removing it: the
    new handle goes, and so does every earlier occurrence of it. When the
    handle was not in the stream's sequence, every stream's sequence reads
    as before the two calls; the stream id stays a key of the map. *)
Theorem addDownTrack_then_removeDownTrack p (streamId : string) (dt : DownTrackPtr) :
  let q := after (removeDownTrack streamId dt (after (addDownTrack streamId dt p))) in
  q = after (removeDownTrack streamId dt p)
  ∧ is_Some (downTracks q !! streamId)
  ∧ (dt ∉ downTracks p !!! streamId →
     ∀ s : string, downTracks q !!! s = downTracks p !!! s).
Proof.
  intros q. subst q. rewrite !removeDownTrack_run.
  unfold addDownTrack, bind, get, modify, emit, after. simpl.
  rewrite lookup_total_insert_eq, insert_insert_eq, filter_app.
  rewrite filter_cons_False, filter_nil, app_nil_r by (intros Hne; by apply Hne).
  split_and!; [done|by rewrite lookup_insert_eq|].
  intros Hnew s. destruct (decide (s = streamId)) as [->|Hne].
  - rewrite lookup_total_insert_eq. apply filter_all. intros t Ht ->. done.
  - by rewrite lookup_total_insert_ne.
Qed.

(** X5. Removing a down track twice is as removing it once, and two
    removals, of the same stream or not, can be made in either order. *)
Theorem removeDownTrack_idempotent_commutes p (s1 s2 : string) (d1 d2 : DownTrackPtr) :
  after (removeDownTrack s1 d1 (after (removeDownTrack s1 d1 p)))
    = after (removeDownTrack s1 d1 p)
  ∧ after (removeDownTrack s1 d1 (after (removeDownTrack s2 d2 p)))
    = after (removeDownTrack s2 d2 (after (removeDownTrack s1 d1 p))).
Proof.
  rewrite !removeDownTrack_run. unfold after. simpl. split.
  - by rewrite lookup_total_insert_eq, insert_insert_eq, filter_idemp.
  - unfold set_downTracks. simpl. f_equal.
    destruct (decide (s1 = s2)) as [->|Hne].
    + by rewrite !lookup_total_insert_eq, !insert_insert_eq, filter_commute.
    + rewrite !lookup_total_insert_ne by done. by apply insert_insert_ne.
Qed.

(** ** The binding burst when nothing is bound *)

Lemma bound_none (h : Heap) (dts : list DownTrackPtr) :
  (∀ dt, dt ∈ dts → IsBound (h dt) = false) → bound h dts = [].
Proof.
  intros Hnone. unfold bound. induction dts as [|dt dts IH]; [done|].
  rewrite filter_cons_False.
  - apply IH. intros dt' Hin. apply Hnone. by apply list_elem_of_further.
  - rewrite (Hnone dt) by apply list_elem_of_here. done.
Qed.

(** X6. The binding burst is not skipped when there is nothing to report:
    for a stream none of whose down tracks is bound, an unknown stream id
    included, it still makes its seven writes, each of one Source
    Description packet without chunks. *)
Theorem bindingReports_burst_with_nothing_bound p (h : Heap) (streamId : string) (fuel : nat) :
  (∀ dt, dt ∈ downTracks p !!! streamId → IsBound (h dt) = false) → 6 < fuel →
  let r := scheduleDownTrackBindingReports h streamId fuel p in
  outcome r = Done tt
  ∧ writes (trace r) = replicate 7 [SourceDescription []]
  ∧ sleeps (trace r) = replicate 6 20%Z.
Proof.
  intros Hnone Hfuel r. subst r. rewrite scheduleDownTrackBindingReports_run. cbv zeta.
  unfold bound_chunks. rewrite (bound_none h _ Hnone). simpl concat.
  destruct (bindingReports_loop_run 6 fuel [SourceDescription []] 0%Z p)
    as (Hout & Htl & _); [done|done|].
  cbv zeta in Hout, Htl. unfold outcome, trace in *. simpl in *.
  split; [done|].
  rewrite <- writes_timeline, <- sleeps_timeline. simpl. by rewrite Htl.
Qed.

(** ** Negotiation *)

Lemma HandleNegotiate_run p (sd : SessionDescription) :
  let set := Answer_SetRemoteDescription p sd in
  let create := Answer_CreateAnswer p sd in
  let loc := Answer_SetLocalDescription p sd in
  let answer := create.1.1 in
  let msg := SignalResponse_Negotiate answer in
  HandleNegotiate sd p =
    match set.1 with
    | Some e =>
        (Done (Some (errors_Wrap e "could not set remote description")),
         set_peerConn set.2 p, [EvSetRemoteDescription sd])
    | None =>
        if decide (sd_Type sd = SDPTypeOffer) then
          match create.1.2 with
          | Some e =>
              (Done (Some (errors_Wrap e "could not create answer")),
               set_peerConn create.2 p, [EvSetRemoteDescription sd; EvCreateAnswer])
          | None =>
              match loc.1 with
              | Some e =>
                  (Done (Some (errors_Wrap e "could not set local description")),
                   set_peerConn loc.2 p,
                   [EvSetRemoteDescription sd; EvCreateAnswer; EvSetLocalDescription answer])
              | None =>
                  (Done (sc_WriteResponse msg (sigConn p)).1,
                   set_sigConn (sc_WriteResponse msg (sigConn p)).2 (set_peerConn loc.2 p),
                   [EvSetRemoteDescription sd; EvCreateAnswer; EvSetLocalDescription answer;
                    EvWriteResponse msg])
              end
          end
        else (Done None, set_peerConn set.2 p, [EvSetRemoteDescription sd])
    end.
Proof.
  unfold Answer_SetLocalDescription, Answer_CreateAnswer, Answer_SetRemoteDescription.
  cbv zeta.
  unfold HandleNegotiate, bind, peerConn_SetRemoteDescription, peerConn_CreateAnswer,
    peerConn_SetLocalDescription, sigConn_WriteResponse, ret; simpl.
  destruct (pc_SetRemoteDescription sd (peerConn p)).1; simpl; [done|].
  case_decide; simpl; [|done].
  destruct (pc_CreateAnswer _).1.2; simpl; [done|].
  destruct (pc_SetLocalDescription _ _).1; simpl; done.
Qed.

Lemma SetRemoteDescription_run p (sdp : SessionDescription) :
  let set := Answer_SetRemoteDescription p sdp in
  SetRemoteDescription sdp p =
    (Done match set.1 with
          | Some e => Some (errors_Wrap e "could not set remote description")
          | None => None
          end,
     set_peerConn set.2 p,
     [EvLog Debugw "setting remote description" None; EvSetRemoteDescription sdp]).
Proof.
  unfold Answer_SetRemoteDescription. cbv zeta.
  unfold SetRemoteDescription, bind, logw, emit, peerConn_SetRemoteDescription, ret; simpl.
  by destruct (pc_SetRemoteDescription sdp (peerConn p)).1.
Qed.

(** X7. [HandleNegotiate] answers offers only. It never moves the session's
    state, never touches the context, the queue and the registries, and
    never registers the renegotiation handler. It writes at most one
    signaling message, a Negotiate message that carries the answer the
    transport created, and only for an offer; on an offer, a nil result means
    that this message was written. On a description that is not an offer it
    does what [SetRemoteDescription] does, but for the log line: one call of
    the transport, whose error comes back wrapped. *)
Theorem HandleNegotiate_answers_offers_only p (sd : SessionDescription) :
  let r := HandleNegotiate sd p in
  let answer := (Answer_CreateAnswer p sd).1.1 in
  ((state (after r), ctxErr (after r), rtcpCh (after r), tracks (after r),
    downTracks (after r), once (after r))
     = (state p, ctxErr p, rtcpCh p, tracks p, downTracks p, once p))
  ∧ (EvOnNegotiationNeeded ∉ trace r)
  ∧ (responses (trace r) = [] ∨ responses (trace r) = [SignalResponse_Negotiate answer])
  ∧ (responses (trace r) ≠ [] → sd_Type sd = SDPTypeOffer)
  ∧ (sd_Type sd = SDPTypeOffer → outcome r = Done None →
     responses (trace r) = [SignalResponse_Negotiate answer])
  ∧ (sd_Type sd ≠ SDPTypeOffer →
     trace r = [EvSetRemoteDescription sd]
     ∧ outcome r = outcome (SetRemoteDescription sd p)
     ∧ after r = after (SetRemoteDescription sd p)
     ∧ trace (SetRemoteDescription sd p)
       = EvLog Debugw "setting remote description" None :: trace r).
Proof.
  intros r answer. subst r answer.
  rewrite HandleNegotiate_run, SetRemoteDescription_run. cbv zeta.
  destruct (Answer_SetRemoteDescription p sd).1 as [e1|];
    [|destruct (decide (sd_Type sd = SDPTypeOffer)) as [Hoffer|Hoffer];
      [destruct (Answer_CreateAnswer p sd).1.2 as [e2|];
       [|destruct (Answer_SetLocalDescription p sd).1 as [e3|]]|]];
    unfold outcome, after, trace; simpl;
    (split_and!; [done|not_in_trace|by (left + right)|done..| ]);
    try (intros Hne; by split_and!);
    try (intros Hne; by destruct (Hne Hoffer)).
Qed.

Lemma Answer_run p (sdp : SessionDescription) :
  (Answer_SetRemoteDescription p sdp).1 = None →
  (Answer_CreateAnswer p sdp).1.2 = None →
  (Answer_SetLocalDescription p sdp).1 = None →
  let answer := (Answer_CreateAnswer p sdp).1.1 in
  let armed := set_sigConn (Answer_WriteResponse p sdp).2
                 (set_peerConn (pc_OnNegotiationNeeded (Answer_SetLocalDescription p sdp).2) p) in
  Answer sdp p =
    (Done (answer, (Answer_WriteResponse p sdp).1),
     (if decide (state p = ParticipantInfo_JOINING)
      then set_state ParticipantInfo_JOINED armed else armed),
     [EvSetRemoteDescription sdp; EvCreateAnswer; EvSetLocalDescription answer;
      EvOnNegotiationNeeded; EvWriteResponse (SignalResponse_Answer answer)]
       ++ (if decide (state p = ParticipantInfo_JOINING)
           then notification p ParticipantInfo_JOINED else [])).
Proof.
  unfold Answer_WriteResponse, Answer_SetLocalDescription, Answer_CreateAnswer,
    Answer_SetRemoteDescription.
  intros H1 H2 H3. cbv zeta.
  unfold Answer, bind, get, peerConn_SetRemoteDescription, peerConn_CreateAnswer,
    peerConn_SetLocalDescription, peerConn_OnNegotiationNeeded, sigConn_WriteResponse; simpl.
  rewrite H1; simpl. rewrite H2; simpl. rewrite H3; simpl.
  destruct (decide (state p = ParticipantInfo_JOINING)) as [Hj|Hj]; simpl; [|done].
  rewrite updateState_run. simpl. unfold notification. simpl. by rewrite app_nil_r.
Qed.

(** X8. [Answer] registers the renegotiation handler and writes to the
    signaling channel only once the transport has taken the offer, created
    the answer and set it: then the handler is registered first, exactly one
    Answer message with the created answer is written, and a Joining session
    becomes Joined also when that write fails, the write's error being
    returned all the same. When one of the three steps fails, no handler is
    registered and nothing is written to the signaling channel. *)
Theorem Answer_arms_renegotiation_then_answers p (sdp : SessionDescription) :
  let r := Answer sdp p in
  let answer := (Answer_CreateAnswer p sdp).1.1 in
  let steps_succeed :=
    (Answer_SetRemoteDescription p sdp).1 = None
    ∧ (Answer_CreateAnswer p sdp).1.2 = None
    ∧ (Answer_SetLocalDescription p sdp).1 = None in
  (steps_succeed →
     outcome r = Done (answer, (Answer_WriteResponse p sdp).1)
     ∧ trace r =
         [EvSetRemoteDescription sdp; EvCreateAnswer; EvSetLocalDescription answer;
          EvOnNegotiationNeeded; EvWriteResponse (SignalResponse_Answer answer)]
           ++ (if decide (state p = ParticipantInfo_JOINING)
               then notification p ParticipantInfo_JOINED else [])
     ∧ (state p = ParticipantInfo_JOINING → state (after r) = ParticipantInfo_JOINED))
  ∧ (¬ steps_succeed →
     (EvOnNegotiationNeeded ∉ trace r) ∧ responses (trace r) = []
     ∧ sigConn (after r) = sigConn p
     ∧ ∃ a e, outcome r = Done (a, Some e)).
Proof.
  intros r answer steps_succeed. subst r answer steps_succeed. split.
  - intros (H1 & H2 & H3). rewrite (Answer_run p sdp H1 H2 H3). cbv zeta.
    unfold outcome, after, trace. simpl. split_and!; [done..|].
    intros Hj. by rewrite decide_True.
  - intros Hfail.
    destruct (Answer_cases p sdp)
      as [[e H1]|[[H1 [e H2]]|[(H1 & H2 & e & H3)|(H1 & H2 & H3)]]].
    + rewrite (Answer_SetRemoteDescription_fails p sdp e H1).
      unfold outcome, after, trace; simpl. split_and!; [not_in_trace|done..|by eexists _, _].
    + rewrite (Answer_CreateAnswer_fails p sdp e H1 H2).
      unfold outcome, after, trace; simpl. split_and!; [not_in_trace|done..|by eexists _, _].
    + rewrite (Answer_SetLocalDescription_fails p sdp e H1 H2 H3).
      unfold outcome, after, trace; simpl. split_and!; [not_in_trace|done..|by eexists _, _].
    + by destruct Hfail.
Qed.

(** X9. The answer and the ICE connection can come in either order: when
    both [Answer] and the handler's call for the Connected state have run,
    the session is Active. [Answer] moves a session to Joined only from
    Joining, so it does not take back a session that is already Active. *)
Theorem Answer_and_ICE_connected_in_either_order p (sdp : SessionDescription) :
  state (after (onICEConnectionStateChange ICEConnectionStateConnected (after (Answer sdp p))))
    = ParticipantInfo_ACTIVE
  ∧ state (after (Answer sdp (after (onICEConnectionStateChange ICEConnectionStateConnected p))))
    = ParticipantInfo_ACTIVE.
Proof.
  assert (∀ q, state (after (onICEConnectionStateChange ICEConnectionStateConnected q))
               = ParticipantInfo_ACTIVE) as Hice.
  { intros q. rewrite onICEConnectionStateChange_state. by rewrite decide_True. }
  split; [apply Hice|].
  destruct (Answer_state (after (onICEConnectionStateChange ICEConnectionStateConnected p)) sdp)
    as [->|[Hj _]]; [apply Hice|].
  by rewrite Hice in Hj.
Qed.


(** ** Subscribers *)

Lemma unsubscribed_idemp (peerId : string) (t : PublishedTrack) :
  unsubscribed peerId (unsubscribed peerId t) = unsubscribed peerId t.
Proof. unfold unsubscribed. simpl. by rewrite filter_idemp. Qed.

Lemma unsubscribed_subscribed (op : string) (t : PublishedTrack) :
  unsubscribed op (subscribed op t) = unsubscribed op t.
Proof.
  unfold unsubscribed, subscribed. simpl.
  rewrite filter_app, filter_cons_False, filter_nil, app_nil_r; [done|].
  intros Hne. by apply Hne.
Qed.

Lemma unsubscribed_absent (peerId : string) (t : PublishedTrack) :
  peerId ∉ track_subscribers t → unsubscribed peerId t = t.
Proof.
  intros Hnot. destruct t as [tid kind subs refuses]. unfold unsubscribed. simpl in *.
  f_equal. apply filter_all. intros x Hx ->. done.
Qed.

Lemma set_tracks_set_tracks (m1 m2 : gmap string PublishedTrack) p :
  set_tracks m1 (set_tracks m2 p) = set_tracks m1 p.
Proof. done. Qed.

Lemma RemoveSubscriber_range_run (peerId : string) (order : list string) : ∀ p,
  let r := RemoveSubscriber_range peerId order p in
  outcome r = Done tt ∧ trace r = []
  ∧ after r = set_tracks (tracks (after r)) p
  ∧ ∀ tid, tracks (after r) !! tid =
      (if decide (tid ∈ order) then unsubscribed peerId <$> tracks p !! tid
       else tracks p !! tid).
Proof.
  induction order as [|tid0 rest IH]; intros p r; subst r.
  - unfold outcome, after, trace. simpl. split_and!; try done.
    by rewrite set_tracks_same.
  - destruct (tracks p !! tid0) as [track|] eqn:Hlook.
    + rewrite (RemoveSubscriber_range_step peerId tid0 rest p track Hlook).
      destruct (IH (set_tracks (<[tid0 := unsubscribed peerId track]> (tracks p)) p))
        as (Hout & Htr & Hframe & Htracks).
      cbv zeta in *. split_and!; [done|done|by rewrite Hframe at 1|].
      intros tid. rewrite Htracks. simpl.
      destruct (decide (tid = tid0)) as [->|Hne].
      * rewrite lookup_insert_eq, Hlook, (decide_True (P := tid0 ∈ tid0 :: rest))
          by apply list_elem_of_here.
        case_decide; simpl; by rewrite ?unsubscribed_idemp.
      * rewrite lookup_insert_ne by done.
        destruct (decide (tid ∈ rest)) as [Hin|Hin].
        -- rewrite decide_True; [done|]. by apply list_elem_of_further.
        -- rewrite decide_False; [done|]. intros [?|?]%elem_of_cons; done.
    + rewrite RemoveSubscriber_range_skip by done.
      destruct (IH p) as (Hout & Htr & Hframe & Htracks).
      cbv zeta in *. split_and!; [done..|].
      intros tid. rewrite Htracks.
      destruct (decide (tid = tid0)) as [->|Hne].
      * rewrite Hlook. simpl. by repeat case_decide.
      * destruct (decide (tid ∈ rest)) as [Hin|Hin].
        -- rewrite decide_True; [done|]. by apply list_elem_of_further.
        -- rewrite decide_False; [done|]. intros [?|?]%elem_of_cons; done.
Qed.

Lemma RemoveSubscriber_run p (peerId : string) (order : list string) :
  range_of (tracks p) order →
  RemoveSubscriber peerId order p =
    (Done tt, set_tracks (unsubscribed peerId <$> tracks p) p, [EvRLock; EvRUnlock]).
Proof.
  intros [Hnodup Hkeys]%range_of_spec.
  destruct (RemoveSubscriber_range_run peerId order p) as (Hout & Htr & Hframe & Htracks).
  cbv zeta in *.
  assert (tracks (after (RemoveSubscriber_range peerId order p))
          = unsubscribed peerId <$> tracks p) as Hmap.
  { apply map_eq. intros tid. rewrite Htracks, lookup_fmap. case_decide as Hin; [done|].
    destruct (tracks p !! tid) eqn:Hlook; [|done]. destruct Hin. by apply Hkeys. }
  unfold RemoveSubscriber, bind, emit. simpl.
  rewrite <- Hmap, <- Hframe.
  destruct (RemoveSubscriber_range peerId order p) as [[o p1] e1].
  unfold outcome, after, trace in *. simpl in *. by subst.
Qed.

(** X10. [RemoveSubscriber] reaches every published track, in whatever
    order the map is visited: it returns with the read lock released, every
    track of the registry has dropped the peer, so that no track holds it
    any more, and nothing else of the session has changed. *)
Theorem RemoveSubscriber_reaches_every_track p (peerId : string) (order : list string) :
  range_of (tracks p) order →
  let r := RemoveSubscriber peerId order p in
  outcome r = Done tt
  ∧ trace r = [EvRLock; EvRUnlock]
  ∧ after r = set_tracks (unsubscribed peerId <$> tracks p) p
  ∧ nobody_holds peerId (after r).
Proof.
  intros Hrange r. subst r. rewrite RemoveSubscriber_run by done.
  unfold outcome, after, trace. simpl. split_and!; try done.
  intros tid track. simpl. rewrite lookup_fmap. intros Hlook.
  destruct (tracks p !! tid) as [t|]; [|done]. injection Hlook as <-. simpl.
  intros Hin%list_elem_of_filter. by destruct Hin as [Hne _].
Qed.

Lemma AddSubscriber_range_unsubscribed (op : string) (order : list string) : ∀ p,
  let r := AddSubscriber_range op order p in
  after r = set_tracks (tracks (after r)) p
  ∧ ∀ tid, unsubscribed op <$> tracks (after r) !! tid = unsubscribed op <$> tracks p !! tid.
Proof.
  induction order as [|tid0 rest IH]; intros p r; subst r.
  - unfold after. simpl. split; [by rewrite set_tracks_same|done].
  - destruct (tracks p !! tid0) as [track|] eqn:Hlook.
    + rewrite (AddSubscriber_range_step op tid0 rest p track Hlook). cbv zeta.
      assert (∀ tid, unsubscribed op
                       <$> <[tid0 := (track_AddSubscriber track op).1]> (tracks p) !! tid
                     = unsubscribed op <$> tracks p !! tid) as Hins.
      { intros tid. destruct (decide (tid = tid0)) as [->|Hne].
        - rewrite lookup_insert_eq, Hlook. simpl. unfold track_AddSubscriber.
          destruct (track_refuses track op); simpl; by rewrite ?unsubscribed_subscribed.
        - by rewrite lookup_insert_ne. }
      destruct (track_AddSubscriber track op).2.
      * unfold after. simpl. split; [done|apply Hins].
      * destruct (IH (set_tracks (<[tid0 := (track_AddSubscriber track op).1]> (tracks p)) p))
          as [Hframe Htracks].
        cbv zeta in *. unfold after at 1 3 4. simpl. split; [by rewrite Hframe at 1|].
        intros tid. by rewrite Htracks.
    + rewrite AddSubscriber_range_skip by done. apply IH.
Qed.

(** X11. [RemoveSubscriber] undoes [AddSubscriber], also one that stopped
    half way at a track that refused: for a peer that no track held before,
    adding it (the tracks visited in any order) and then removing it leaves
    the session exactly as it was. *)
Theorem RemoveSubscriber_undoes_AddSubscriber p (op : string) (order1 order2 : list string) :
  nobody_holds op p →
  let q := after (AddSubscriber op order1 p) in
  range_of (tracks q) order2 →
  after (RemoveSubscriber op order2 q) = p.
Proof.
  intros Hfree q Hrange. rewrite RemoveSubscriber_run by done. unfold after at 1. simpl.
  subst q. rewrite AddSubscriber_after in *.
  destruct (AddSubscriber_range_unsubscribed op order1 p) as [Hframe Htracks].
  cbv zeta in *.
  assert (unsubscribed op <$> tracks (after (AddSubscriber_range op order1 p)) = tracks p)
    as ->.
  { apply map_eq. intros tid. rewrite lookup_fmap, Htracks.
    destruct (tracks p !! tid) as [t|] eqn:Hlook; [|done]. simpl.
    f_equal. apply unsubscribed_absent. by apply (Hfree tid). }
  by rewrite Hframe, set_tracks_set_tracks, set_tracks_same.
Qed.

(** ** Publications *)

Lemma responses_app (l1 l2 : list Event) :
  responses (l1 ++ l2) = responses l1 ++ responses l2.
Proof. induction l1 as [|[] l1 IH]; simpl; by rewrite ?IH. Qed.

Lemma publish_run (pub : Publication) p :
  let r := publish pub p in
  outcome r = Done tt
  ∧ tracks (after r) =
      match published pub with
      | Some t => <[track_ID t := t]> (tracks p)
      | None => tracks p
      end
  ∧ responses (trace r) =
      match published pub with Some t => [confirmation t] | None => [] end.
Proof.
  destruct pub as [tid refuses|dc tid refuses]; cbn [publish published]; cbv zeta.
  - rewrite onMediaTrack_run. unfold outcome, after, trace. simpl.
    split_and!; [done..|]. by destruct (OnTrackPublished p).
  - case_decide as Hlabel.
    + by rewrite onDataChannel_private.
    + rewrite onDataChannel_run by done. unfold outcome, after, trace. simpl.
      split_and!; [done..|]. by destruct (OnTrackPublished p).
Qed.

(** X12. A run of publications, media tracks and data channels mixed: every
    handler returns; the publisher gets one confirmation per track, in the
    order of publication, and none for a private data channel; the ids of
    the registry afterwards are those it had and those of the new tracks; a
    track of the registry is one it held before or a new one under its own
    id; and when the new ids differ from one another, each new track is
    stored under its id, taking the place of a track that had that id. *)
Theorem publish_all_registers_and_confirms (pubs : list Publication) : ∀ p,
  let r := publish_all pubs p in
  let new := omap published pubs in
  outcome r = Done tt
  ∧ responses (trace r) = confirmation <$> new
  ∧ dom (tracks (after r)) =@{gset string} dom (tracks p) ∪ list_to_set (track_ID <$> new)
  ∧ (∀ tid track, tracks (after r) !! tid = Some track →
       tracks p !! tid = Some track ∨ (track ∈ new ∧ track_ID track = tid))
  ∧ (NoDup (track_ID <$> new) →
     ∀ track, track ∈ new → tracks (after r) !! track_ID track = Some track).
Proof.
  induction pubs as [|pub rest IH]; intros p; cbv zeta.
  - unfold outcome, after, trace. simpl. split_and!; try done.
    + by rewrite (right_id_L ∅ (∪)).
    + by left.
    + intros _ track Hin. by apply elem_of_nil in Hin.
  - destruct (publish_run pub p) as (Hout1 & Htr1 & Hresp1). cbv zeta in *.
    cbn [publish_all]. unfold bind.
    destruct (publish pub p) as [[o1 p1] e1]. unfold outcome, after, trace in *. simpl in *.
    subst o1.
    destruct (IH p1) as (Hout & Hresp & Hdom & Hold & Hnew). cbv zeta in *.
    destruct (publish_all rest p1) as [[o2 p2] e2].
    unfold outcome, after, trace in *. simpl in *.
    rewrite responses_app, Hresp1, Hresp, Hdom, Htr1.
    destruct (published pub) as [t|]; simpl.
    + split_and!; try done.
      * by rewrite dom_insert_L, (comm_L (∪) {[track_ID t]}), (assoc_L (∪)).
      * intros tid track Hlook. destruct (Hold tid track Hlook) as [Hp1|[Hin Hid]].
        -- rewrite Htr1 in Hp1. destruct (decide (track_ID t = tid)) as [<-|Hne].
           ++ rewrite lookup_insert_eq in Hp1. injection Hp1 as <-.
              right. split; [apply list_elem_of_here|done].
           ++ rewrite lookup_insert_ne in Hp1 by done. by left.
        -- right. split; [by apply list_elem_of_further|done].
      * intros [Hfresh Hnodup]%NoDup_cons track [->|Hin]%elem_of_cons; [|by apply Hnew].
        assert (is_Some (tracks p2 !! track_ID t)) as [t' Ht'].
        { apply (elem_of_dom (D := gset string)). rewrite Hdom, Htr1, dom_insert_L.
          by apply elem_of_union_l, elem_of_union_l, elem_of_singleton. }
        destruct (Hold _ _ Ht') as [Hp1|[Hin Hid]].
        -- rewrite Htr1, lookup_insert_eq in Hp1. by injection Hp1 as <-.
        -- destruct Hfresh. rewrite <- Hid. by apply list_elem_of_fmap_2.
    + split_and!; try done.
      intros tid track Hlook. destruct (Hold tid track Hlook) as [Hp1|?]; [|by right].
      left. by rewrite <- Htr1.
Qed.

(** ** ToProto *)

Lemma ToProto_fold {TrackInfo} (f : PublishedTrack → TrackInfo) (m : gmap string PublishedTrack)
    (order : list string) (acc : list TrackInfo) :
  fold_left (λ tracks_ tid,
               match m !! tid with
               | Some t => tracks_ ++ [f t]
               | None => tracks_
               end) order acc
  = acc ++ omap (λ tid, f <$> m !! tid) order.
Proof.
  revert acc. induction order as [|tid rest IH]; intros acc; simpl.
  - by rewrite app_nil_r.
  - rewrite IH. destruct (m !! tid); simpl; [|done]. by rewrite <- app_assoc.
Qed.

Lemma omap_lookup_keys {V W} (f : V → W) (m : gmap string V) :
  omap (λ k, f <$> m !! k) (map_to_list m).*1 = f <$> (map_to_list m).*2.
Proof.
  assert (∀ l : list (string * V), (∀ k v, (k, v) ∈ l → m !! k = Some v) →
            omap (λ k, f <$> m !! k) l.*1 = f <$> l.*2) as Hgen.
  { induction l as [|[k v] l IH]; intros Hl; [done|]. simpl.
    rewrite (Hl k v) by apply list_elem_of_here. simpl. f_equal.
    apply IH. intros k' v' Hin. by apply Hl, list_elem_of_further. }
  apply Hgen. intros k v. by rewrite elem_of_map_to_list.
Qed.

(** X13. [ToProto] describes the session as it is: its id, name and state,
    and one descriptor for every published track and no other, whatever the
    order in which the map is visited. *)
Theorem ToProto_lists_every_track {TrackInfo} (TrackToProto : PublishedTrack → TrackInfo)
    (order : list string) p :
  range_of (tracks p) order →
  let info := ToProto TrackToProto order p in
  Sid info = id p ∧ Name info = name p ∧ State info = state p
  ∧ Tracks info ≡ₚ TrackToProto <$> (map_to_list (tracks p)).*2
  ∧ length (Tracks info) = size (tracks p).
Proof.
  intros Hrange info. subst info. unfold ToProto. simpl.
  rewrite ToProto_fold. simpl.
  assert (omap (λ tid, TrackToProto <$> tracks p !! tid) order
          ≡ₚ TrackToProto <$> (map_to_list (tracks p)).*2) as Hperm.
  { unfold range_of in Hrange. rewrite Hrange. by rewrite omap_lookup_keys. }
  split_and!; try done.
  rewrite Hperm, !length_fmap. apply length_map_to_list.
Qed.

(** ** The workers *)

Lemma logged_logs (pkts : list Packet) :
  logged (map (λ _, EvLog Debugw "writing RTCP" None) pkts) = [].
Proof. by induction pkts. Qed.

(** X14. The relay worker writes the batches it finds in the queue, oldest
    first, one transport write for each, and empties the queue; a write that
    fails is logged and does not stop it. With the queue empty it returns if
    the queue is closed, and goes on waiting if it is open: it ends only
    through [Close]. *)
Theorem rtcpSendWorker_relays_in_order_then_waits (buf : list (list Packet)) :
  ∀ (fuel : nat) p,
  chan_buf (rtcpCh p) = buf → length buf < fuel →
  let r := rtcpSendWorker fuel p in
  outcome r = (if chan_closed (rtcpCh p) then Done tt else Blocked)
  ∧ writes (trace r) = buf
  ∧ logged (trace r) = errors_of (relay_results buf (peerConn p))
  ∧ chan_buf (rtcpCh (after r)) = []
  ∧ chan_closed (rtcpCh (after r)) = chan_closed (rtcpCh p).
Proof.
  induction buf as [|pkts buf IH]; intros fuel p Hbuf Hfuel r; subst r;
    (destruct fuel as [|fuel]; [simpl in Hfuel; lia|]).
  - rewrite rtcpSendWorker_step_empty by done.
    destruct (chan_closed (rtcpCh p)) eqn:Hc; unfold outcome, after, trace; simpl;
      by split_and!.
  - rewrite (rtcpSendWorker_step_cons fuel p pkts buf) by done. cbv zeta.
    set (p1 := set_peerConn _ _).
    destruct (IH fuel p1) as (Hout & Hw & Hlog & Hb & Hc);
      [done|simpl in Hfuel; lia|].
    destruct (rtcpSendWorker fuel p1) as [[o p2] evs].
    unfold outcome, after, trace in *. cbn [fst snd] in *. subst o.
    split_and!; try done.
    + rewrite writes_app, writes_logs. cbn [writes app].
      rewrite writes_app, Hw. by destruct (pc_WriteRTCP pkts (peerConn p)).1.
    + rewrite logged_app, logged_logs. cbn [logged app relay_results]. rewrite logged_app, Hlog.
      unfold errors_of. subst p1. simpl.
      by destruct (pc_WriteRTCP pkts (peerConn p)).1.
Qed.

Lemma sleeps_app (l1 l2 : list Event) : sleeps (l1 ++ l2) = sleeps l1 ++ sleeps l2.
Proof. induction l1 as [|[] l1 IH]; simpl; by rewrite ?IH. Qed.

Lemma sendBatches_open (I : T → Prop) (fuel : nat) : ∀ (pkts : list Packet)
    (sd : list SourceDescriptionChunk) p,
  stays_open I → I (peerConn p) → length (batches sd) < fuel →
  let r := sendBatches fuel pkts sd p in
  outcome r = Done NextTick
  ∧ I (peerConn (after r))
  ∧ sleeps (trace r) = []
  ∧ writes (trace r) = compound pkts (batches sd)
  ∧ set_peerConn (peerConn p) (after r) = p.
Proof.
  induction fuel as [|fuel IH]; intros pkts sd p Hopen HI Hfuel r; [lia|]. subst r.
  destruct (decide (sd = [])) as [->|Hne].
  - rewrite sendBatches_nil. unfold outcome, after, trace; simpl.
    split_and!; try done. by destruct p.
  - rewrite sendBatches_step by done. rewrite batches_cons in * by done.
    cbn [length compound] in *.
    set (out := pkts ++ [SourceDescription (take sdBatchSize sd)]).
    set (w := pc_WriteRTCP out (peerConn p)).
    destruct (Hopen out (peerConn p) HI) as [HI1 Hnc]. fold w in HI1, Hnc.
    destruct (IH [] (drop sdBatchSize sd) (set_peerConn w.2 p))
      as (Hout & HI2 & Hsl & Hwr & Hsame); [done|done|lia|].
    rewrite compound_nil_pkts in Hwr.
    apply set_peerConn_frame in Hsame.
    destruct (sendBatches fuel [] (drop sdBatchSize sd) (set_peerConn w.2 p))
      as [[o p2] evs].
    unfold outcome, after, trace in *. cbn [fst snd] in *.
    destruct w.1 as [e|] eqn:Hw; [rewrite (Hnc e eq_refl)|];
      cbn [fst snd writes sleeps]; rewrite Hwr; by split_and!.
Qed.

(** X15. The periodic report worker does not return while the transport
    stays open: on a transport that answers no write with [io.EOF] or
    [io.ErrClosedPipe] it goes through every tick it is given, sleeping 5
    seconds before each, writes the compound packets of every tick in order,
    other write errors notwithstanding, and is still running afterwards. It
    leaves the session as it is but for the transport. *)
Theorem downTracksRTCPWorker_runs_while_the_transport_is_open (I : T → Prop)
    (ticks : list (Heap * list string)) (fuel : nat) : ∀ p,
  stays_open I → I (peerConn p) →
  (∀ h order, (h, order) ∈ ticks →
     length (batches (bound_chunks h (visited (downTracks p) order))) < fuel) →
  let r := downTracksRTCPWorker ticks fuel p in
  outcome r = OutOfFuel
  ∧ sleeps (trace r) = replicate (length ticks) 5000%Z
  ∧ writes (trace r) =
      concat ((λ tick : Heap * list string,
                 let dts := visited (downTracks p) tick.2 in
                 compound (sender_reports tick.1 dts) (batches (bound_chunks tick.1 dts)))
              <$> ticks)
  ∧ set_peerConn (peerConn p) (after r) = p.
Proof.
  induction ticks as [|[h order] rest IH]; intros p Hopen HI Hfuel r; subst r.
  - unfold outcome, after, trace. simpl. split_and!; try done. by destruct p.
  - cbn [downTracksRTCPWorker]. unfold bind. rewrite downTracksRTCPWorker_tick_run. cbv zeta.
    destruct (sendBatches_open I fuel
                (sender_reports h (visited (downTracks p) order))
                (bound_chunks h (visited (downTracks p) order)) p)
      as (Hout1 & HI1 & Hsl1 & Hwr1 & Hsame1);
      [done|done|apply Hfuel, list_elem_of_here|].
    destruct (sendBatches fuel _ _ p) as [[o1 p1] e1].
    unfold outcome, after, trace in *. cbn [fst snd] in *. subst o1.
    assert (downTracks p1 = downTracks p) as Hdt by by rewrite <- Hsame1.
    destruct (IH p1) as (Hout & Hsl & Hwr & Hsame); [done|done| |].
    { intros h' order' Hin. rewrite Hdt. by apply Hfuel, list_elem_of_further. }
    destruct (downTracksRTCPWorker rest fuel p1) as [[o2 p2] e2].
    unfold outcome, after, trace in *. cbn [fst snd] in *. subst o2.
    split_and!; try done.
    + cbn [sleeps app length replicate]. by rewrite sleeps_app, Hsl1, Hsl.
    + cbn [writes app fmap list_fmap concat fst snd]. rewrite writes_app, Hwr1, Hwr.
      by rewrite Hdt.
    + rewrite <- Hsame1 at 2. rewrite <- Hsame. by destruct p2.
Qed.

(** ** The session lock *)





















(** ** What each routine does, and what it leaves to the others *)







(** ** The binding burst after a change of the registry *)

Lemma burst_writes p (h : Heap) (streamId : string) (fuel : nat) :
  6 < fuel →
  writes (trace (scheduleDownTrackBindingReports h streamId fuel p))
    = replicate 7 [SourceDescription (bound_chunks h (downTracks p !!! streamId))].
Proof.
  intros Hfuel. rewrite scheduleDownTrackBindingReports_run. cbv zeta.
  destruct (bindingReports_loop_run 6 fuel
              [SourceDescription (bound_chunks h (downTracks p !!! streamId))] 0%Z p)
    as (_ & Htl & _); [done|done|].
  cbv zeta in Htl. unfold trace in *. simpl in *.
  rewrite <- writes_timeline. simpl. by rewrite Htl.
Qed.

Lemma bound_chunks_one (h : Heap) (dt : DownTrackPtr) :
  bound_chunks h [dt] = (if IsBound (h dt) then chunks_of h dt else []).
Proof.
  unfold bound_chunks, bound. rewrite filter_cons.
  destruct (IsBound (h dt)); case_decide; try done. simpl. by rewrite app_nil_r.
Qed.

(** X18. The binding burst reports the down tracks of the moment it starts.
    Started for a stream after [addDownTrack], as the new down track's bind
    hook does, its packet ends with the chunks of the new down track if that
    one is bound, after those of the stream's other bound down tracks;
    started after [removeDownTrack] it carries nothing of the removed down
    track; and a burst for another stream is as it was before the change. *)
Theorem burst_reports_the_registry_of_the_moment p (h : Heap) (streamId : string)
    (dt : DownTrackPtr) (fuel : nat) :
  6 < fuel →
  let dts := downTracks p !!! streamId in
  let burst := λ s q, writes (trace (scheduleDownTrackBindingReports h s fuel q)) in
  burst streamId (after (addDownTrack streamId dt p))
    = replicate 7 [SourceDescription
                     (bound_chunks h dts ++ (if IsBound (h dt) then chunks_of h dt else []))]
  ∧ burst streamId (after (removeDownTrack streamId dt p))
    = replicate 7 [SourceDescription (bound_chunks h (filter (λ t, t ≠ dt) dts))]
  ∧ ∀ s, s ≠ streamId →
      burst s (after (addDownTrack streamId dt p)) = burst s p
      ∧ burst s (after (removeDownTrack streamId dt p)) = burst s p.
Proof.
  intros Hfuel dts burst. subst dts burst. cbv beta.
  rewrite !burst_writes by done. rewrite removeDownTrack_run.
  unfold addDownTrack, bind, get, modify, emit, after. simpl.
  rewrite !lookup_total_insert_eq, bound_chunks_app, bound_chunks_one.
  split_and!; [done..|].
  intros s Hne. rewrite !burst_writes by done. simpl.
  by rewrite !lookup_total_insert_ne.
Qed.

End MoreProperties.

(** * The theorems at work on the scripted collaborators *)

(** ** C1 *)



(** ** C2 *)



(** ** C3 *)

(** C3 fails as stated: the burst writes seven times, not six. *)
Lemma bindingReports_burst_is_not_six_writes :
  length (writes (trace (scheduleDownTrackBindingReports (rtcfakes.heap 1) "cam" 7
                           (rtcfakes.subscribed_to 2 [])))) = 7
  ∧ length (writes (trace (scheduleDownTrackBindingReports (rtcfakes.heap 1) "cam" 7
                             (rtcfakes.subscribed_to 2 [])))) ≠ 6.
Proof. vm_compute. split; [done|lia]. Qed.

Lemma bindingReports_burst_writes_seven_times_witness :
  writes (trace (scheduleDownTrackBindingReports (rtcfakes.heap_bound_below 2) "cam" 7
                   (rtcfakes.subscribed_to 2 [Some (errors_New "srtp not ready")])))
    = replicate 7 [SourceDescription [rtcfakes.chunk 1%positive]]
  ∧ logged (trace (scheduleDownTrackBindingReports (rtcfakes.heap_bound_below 2) "cam" 7
                     (rtcfakes.subscribed_to 2 [Some (errors_New "srtp not ready")])))
    = [errors_New "srtp not ready"].
Proof.
  destruct (bindingReports_burst_writes_seven_times
              (rtcfakes.subscribed_to 2 [Some (errors_New "srtp not ready")])
              (rtcfakes.heap_bound_below 2) "cam" 7)
    as (_ & _ & Hwrites & _ & Hlogged & _); [lia|].
  split; [exact Hwrites|exact Hlogged].
Defined.

(** ** C4 *)

(** C4 fails as stated. Eleven bound down tracks with two chunks each make 22
    chunks, so the tick writes twice where 11 over 20 rounded up is one; and
    with 21 bound down tracks of one chunk each, a first write answered with
    [io.EOF] ends the worker after one write where 21 over 20 rounded up is
    two. *)
Lemma tick_writes_differ_from_ceil_of_down_tracks :
  length (bound (rtcfakes.heap 2) (all_downTracks (downTracks (rtcfakes.subscribed_to 10 [])))) = 11
  ∧ length (writes (trace (downTracksRTCPWorker_tick (rtcfakes.heap 2) ["cam"; "mic"] 5
                             (rtcfakes.subscribed_to 10 [])))) = 2
  ∧ ceil_div 11 sdBatchSize = 1
  ∧ length (bound (rtcfakes.heap 1)
              (all_downTracks (downTracks (rtcfakes.subscribed_to 20 [Some io_EOF])))) = 21
  ∧ length (writes (trace (downTracksRTCPWorker_tick (rtcfakes.heap 1) ["cam"; "mic"] 5
                             (rtcfakes.subscribed_to 20 [Some io_EOF])))) = 1
  ∧ ceil_div 21 sdBatchSize = 2.
Proof. vm_compute. done. Qed.

Lemma fake_open_script_stays_open : stays_open rtcfakes.open_script.
Proof.
  intros out t Hopen. unfold rtcfakes.open_script in *. simpl. unfold rtcfakes.WriteRTCP.
  destruct (rtcfakes.WriteRTCPReturns t) as [|r rest] eqn:Hscript; simpl.
  - rewrite Hscript. split; [done|]. intros e He. discriminate He.
  - apply Forall_cons in Hopen as [Hr Hrest]. split; [done|]. intros e He. by apply Hr.
Qed.

Lemma downTracksRTCPWorker_tick_writes_per_batch_witness :
  outcome (downTracksRTCPWorker_tick (rtcfakes.heap 1) ["cam"; "mic"] 3
             (rtcfakes.subscribed_to 20 [Some (errors_New "congested")])) = Done NextTick
  ∧ length (writes (trace (downTracksRTCPWorker_tick (rtcfakes.heap 1) ["cam"; "mic"] 3
                             (rtcfakes.subscribed_to 20 [Some (errors_New "congested")])))) = 2
  ∧ outcome (downTracksRTCPWorker_tick (rtcfakes.heap 1) ["cam"; "mic"] 4
               (rtcfakes.subscribed_to 40 [None; Some io_EOF])) = Done Returned
  ∧ length (writes (trace (downTracksRTCPWorker_tick (rtcfakes.heap 1) ["cam"; "mic"] 4
                             (rtcfakes.subscribed_to 40 [None; Some io_EOF])))) = 2
  ∧ outcome (downTracksRTCPWorker
               [(rtcfakes.heap 1, ["cam"; "mic"]); (rtcfakes.heap 1, ["cam"; "mic"])] 4
               (rtcfakes.subscribed_to 40 [None; Some io_EOF])) = Done tt.
Proof.
  destruct (downTracksRTCPWorker_tick_writes_per_batch
              (rtcfakes.subscribed_to 20 [Some (errors_New "congested")])
              (rtcfakes.heap 1) ["cam"; "mic"] 3)
    as (_ & _ & _ & Hopen & _ & Hnext & _).
  - unfold range_of. vm_compute. reflexivity.
  - vm_compute. lia.
  - assert (outcome (downTracksRTCPWorker_tick (rtcfakes.heap 1) ["cam"; "mic"] 3
                       (rtcfakes.subscribed_to 20 [Some (errors_New "congested")]))
            = Done NextTick) as Hout.
    { apply (Hopen rtcfakes.open_script); [|exact fake_open_script_stays_open].
      repeat constructor. intros e He. injection He as <-. reflexivity. }
    destruct (downTracksRTCPWorker_tick_writes_per_batch
                (rtcfakes.subscribed_to 40 [None; Some io_EOF])
                (rtcfakes.heap 1) ["cam"; "mic"] 4)
      as (_ & _ & _ & _ & _ & _ & _ & _ & _ & _ & Hclosed & _).
    + unfold range_of. vm_compute. reflexivity.
    + vm_compute. lia.
    + destruct (Hclosed 1) as (Hreturned & Hwrites & Hworker); [vm_compute; reflexivity|].
      destruct (Hworker [(rtcfakes.heap 1, ["cam"; "mic"])]) as [Hdone _].
      split_and!; [exact Hout| |exact Hreturned| |exact Hdone].
      * destruct (Hnext Hout) as [_ Hlen]. exact Hlen.
      * rewrite Hwrites. vm_compute. reflexivity.
Defined.

(** ** C5 *)

Lemma Close_guarded_then_tears_down_witness :
  Close rtcfakes.disconnected = (Done (Some context_Canceled), rtcfakes.disconnected, [])
  ∧ trace (Close rtcfakes.fresh) =
      [EvCloseChan; EvGoOnStateChange ParticipantInfo_JOINING; EvOnClose; EvCancel;
       EvPeerConnClose]
  ∧ state (after (Close rtcfakes.fresh)) = ParticipantInfo_DISCONNECTED.
Proof.
  split_and!.
  - destruct (Close_guarded_then_tears_down rtcfakes.disconnected) as [Hcancelled _].
    apply (Hcancelled context_Canceled). reflexivity.
  - destruct (Close_guarded_then_tears_down rtcfakes.fresh) as [_ Hclose].
    destruct (Hclose eq_refl eq_refl) as (Hrun & _). rewrite Hrun. reflexivity.
  - destruct (Close_guarded_then_tears_down rtcfakes.fresh) as [_ Hclose].
    destruct (Hclose eq_refl eq_refl) as (Hrun & _ & Hstate & _). rewrite Hrun.
    exact Hstate.
Defined.

(** ** C6 *)

Lemma Answer_failure_keeps_state_success_joins_witness :
  (outcome (Answer rtcfakes.offer rtcfakes.rejecting_offer)
     = Done (zeroSessionDescription, Some (errors_New "invalid offer"))
   ∧ state (after (Answer rtcfakes.offer rtcfakes.rejecting_offer)) = ParticipantInfo_JOINING)
  ∧ (outcome (Answer rtcfakes.offer rtcfakes.failing_CreateAnswer)
       = Done (zeroSessionDescription,
               Some (errors_Wrap (errors_New "no codecs") "could not create answer"))
     ∧ state (after (Answer rtcfakes.offer rtcfakes.failing_CreateAnswer)) = ParticipantInfo_JOINING)
  ∧ (outcome (Answer rtcfakes.offer rtcfakes.failing_SetLocalDescription)
       = Done (rtcfakes.answer,
               Some (errors_Wrap (errors_New "wrong state") "could not set local description"))
     ∧ state (after (Answer rtcfakes.offer rtcfakes.failing_SetLocalDescription))
       = ParticipantInfo_JOINING)
  ∧ state (after (Answer rtcfakes.offer rtcfakes.fresh)) = ParticipantInfo_JOINED.
Proof.
  split; [|split; [|split]].
  - destruct (Answer_failure_keeps_state_success_joins rtcfakes.rejecting_offer rtcfakes.offer)
      as (H1 & _).
    destruct (H1 (errors_New "invalid offer")) as (Hout & Hstate & _); [reflexivity|].
    split; [exact Hout|exact Hstate].
  - destruct (Answer_failure_keeps_state_success_joins rtcfakes.failing_CreateAnswer rtcfakes.offer)
      as (_ & H2 & _).
    destruct (H2 (errors_New "no codecs")) as (Hout & Hstate & _); [reflexivity..|].
    split; [exact Hout|exact Hstate].
  - destruct (Answer_failure_keeps_state_success_joins rtcfakes.failing_SetLocalDescription
                rtcfakes.offer) as (_ & _ & H3 & _).
    destruct (H3 (errors_New "wrong state")) as (Hout & Hstate & _); [reflexivity..|].
    split; [exact Hout|exact Hstate].
  - destruct (Answer_failure_keeps_state_success_joins rtcfakes.fresh rtcfakes.offer)
      as (_ & _ & _ & H4).
    apply (H4 rtcfakes.answer); reflexivity.
Defined.

(** ** C7 *)

Lemma publishing_accepts_carol (tid : string) : accepts rtcfakes.publishing "PA_carol" tid.
Proof.
  intros track Hlook. apply elem_of_map_to_list in Hlook. vm_compute in Hlook.
  repeat (apply elem_of_cons in Hlook; destruct Hlook as [Hlook|Hlook];
          [injection Hlook as -> ->; reflexivity|]).
  by apply elem_of_nil in Hlook.
Qed.

Lemma AddSubscriber_stops_at_first_refusal_witness :
  outcome (AddSubscriber "PA_bob" ["TR_audio"; "TR_video"; "TR_chat"] rtcfakes.publishing)
    = Done (Some (errors_New "no transceiver"))
  ∧ attempts (trace (AddSubscriber "PA_bob" ["TR_audio"; "TR_video"; "TR_chat"]
                       rtcfakes.publishing))
    = ["TR_audio"; "TR_video"]
  ∧ track_subscribers
      <$> tracks (after (AddSubscriber "PA_bob" ["TR_audio"; "TR_video"; "TR_chat"]
                           rtcfakes.publishing)) !! "TR_audio"
    = Some ["PA_bob"]
  ∧ tracks (after (AddSubscriber "PA_bob" ["TR_audio"; "TR_video"; "TR_chat"]
                     rtcfakes.publishing)) !! "TR_chat"
    = tracks rtcfakes.publishing !! "TR_chat"
  ∧ outcome (AddSubscriber "PA_carol" ["TR_video"; "TR_chat"; "TR_audio"] rtcfakes.publishing)
    = Done None
  ∧ attempts (trace (AddSubscriber "PA_carol" ["TR_video"; "TR_chat"; "TR_audio"]
                       rtcfakes.publishing))
    = ["TR_video"; "TR_chat"; "TR_audio"].
Proof.
  destruct (AddSubscriber_stops_at_first_refusal rtcfakes.publishing "PA_bob"
              ["TR_audio"; "TR_video"; "TR_chat"]) as (_ & _ & Hrefusal).
  { unfold range_of. vm_compute. symmetry.
    apply (Permutation_cons_app ["TR_audio"; "TR_video"] [] "TR_chat"). reflexivity. }
  destruct (Hrefusal ["TR_audio"] "TR_video" ["TR_chat"]
              (NewMediaTrack "TR_video" rtcfakes.closed_to_bob) (errors_New "no transceiver"))
    as (Hout & Hattempts & Hbefore & Hrest).
  - reflexivity.
  - intros tid Htid track Htrack. apply list_elem_of_singleton in Htid. subst tid.
    vm_compute in Htrack. injection Htrack as <-. reflexivity.
  - reflexivity.
  - reflexivity.
  - destruct (AddSubscriber_stops_at_first_refusal rtcfakes.publishing "PA_carol"
                ["TR_video"; "TR_chat"; "TR_audio"]) as (Hnil & Hall & _).
    { unfold range_of. vm_compute.
      apply (Permutation_cons_app ["TR_chat"; "TR_audio"] [] "TR_video"). reflexivity. }
    destruct (Hall publishing_accepts_carol) as [Hattempts' _].
    split_and!.
    + exact Hout.
    + exact Hattempts.
    + rewrite (Hbefore "TR_audio" (NewMediaTrack "TR_audio" rtcfakes.open_to_all));
        [reflexivity|apply list_elem_of_here|reflexivity].
    + apply Hrest. intros Hin. apply list_elem_of_singleton in Hin. discriminate Hin.
    + apply Hnil. exact publishing_accepts_carol.
    + exact Hattempts'.
Defined.

(** ** C8 *)

Lemma onDataChannel_ignores_private_publishes_others_witness :
  onDataChannel {| dc_Label := "_private" |} "TR_private" rtcfakes.open_to_all rtcfakes.fresh
    = (Done tt, rtcfakes.fresh, [])
  ∧ trace (onDataChannel {| dc_Label := "chat" |} "TR_chat" rtcfakes.open_to_all rtcfakes.fresh)
    = [EvLog Debugw "dataChannel added" None;
       EvLock; EvTracksStore "TR_chat"; EvUnlock; EvTrackStart "TR_chat";
       EvLock; EvTracksStore "TR_chat"; EvUnlock; EvTrackStart "TR_chat";
       EvWriteResponse (SignalResponse_TrackPublished "TR_chat" DataTrackKind);
       EvGoOnTrackPublished "TR_chat"].
Proof.
  split.
  - destruct (onDataChannel_ignores_private_publishes_others rtcfakes.fresh
                {| dc_Label := "_private" |} "TR_private" rtcfakes.open_to_all) as [Hprivate _].
    apply Hprivate. reflexivity.
  - destruct (onDataChannel_ignores_private_publishes_others rtcfakes.fresh
                {| dc_Label := "chat" |} "TR_chat" rtcfakes.open_to_all) as [_ Hother].
    destruct Hother as (_ & _ & Htrace); [discriminate|]. exact Htrace.
Defined.

(** ** C10 *)

Lemma removeDownTrack_filters_one_stream_witness :
  downTracks (after (removeDownTrack "cam" 1%positive rtcfakes.with_repeated_handle)) !!! "cam"
    = [2%positive; 3%positive]
  ∧ downTracks (after (removeDownTrack "cam" 1%positive rtcfakes.with_repeated_handle)) !! "mic"
    = Some [1%positive]
  ∧ downTracks (after (removeDownTrack "cam" 4%positive rtcfakes.with_repeated_handle)) !!! "cam"
    = [1%positive; 2%positive; 1%positive; 3%positive].
Proof.
  split_and!.
  - destruct (removeDownTrack_filters_one_stream rtcfakes.with_repeated_handle "cam" 1%positive)
      as (_ & Hnew & _). etrans; [exact Hnew|reflexivity].
  - destruct (removeDownTrack_filters_one_stream rtcfakes.with_repeated_handle "cam" 1%positive)
      as (_ & _ & _ & _ & _ & Hothers & _).
    etrans; [apply (Hothers "mic"); discriminate|reflexivity].
  - destruct (removeDownTrack_filters_one_stream rtcfakes.with_repeated_handle "cam" 4%positive)
      as (_ & _ & _ & _ & _ & _ & _ & Habsent).
    etrans; [apply Habsent|reflexivity].
    vm_compute. intros Hin.
    repeat (apply elem_of_cons in Hin; destruct Hin as [Hin|Hin]; [discriminate Hin|]).
    by apply elem_of_nil in Hin.
Defined.

(** ** The life of a session *)

Lemma Close_is_final_witness :
  ctxErr (exec_all [OpICEConnectionStateChange ICEConnectionStateConnected; OpStart; OpClose;
                    OpRelay 3]
            (after (Close rtcfakes.fresh))) = Some context_Canceled
  ∧ outcome (send_rtcpCh [Feedback 7]
               (exec_all [OpICEConnectionStateChange ICEConnectionStateConnected; OpStart;
                          OpClose; OpRelay 3]
                  (after (Close rtcfakes.fresh)))) = Panic "send on closed channel".
Proof.
  destruct (Close_is_final rtcfakes.fresh
              [OpICEConnectionStateChange ICEConnectionStateConnected; OpStart; OpClose;
               OpRelay 3] [Feedback 7]) as (Hctx & _ & _ & Hsend).
  - reflexivity.
  - reflexivity.
  - split; [exact Hctx|]. rewrite Hsend. reflexivity.
Defined.

(** ** The registry of down tracks *)

Lemma addDownTrack_then_removeDownTrack_witness :
  downTracks (after (removeDownTrack "cam" 4%positive
                       (after (addDownTrack "cam" 4%positive rtcfakes.with_repeated_handle))))
    !!! "cam"
  = [1%positive; 2%positive; 1%positive; 3%positive].
Proof.
  destruct (addDownTrack_then_removeDownTrack rtcfakes.with_repeated_handle "cam" 4%positive)
    as (_ & _ & Hsame).
  etrans; [apply Hsame|reflexivity].
  vm_compute. intros Hin.
  repeat (apply elem_of_cons in Hin; destruct Hin as [Hin|Hin]; [discriminate Hin|]).
  by apply elem_of_nil in Hin.
Defined.

Lemma bindingReports_burst_with_nothing_bound_witness :
  writes (trace (scheduleDownTrackBindingReports (rtcfakes.heap 1) "screen" 7
                   (rtcfakes.subscribed_to 2 [])))
  = replicate 7 [SourceDescription []].
Proof.
  destruct (bindingReports_burst_with_nothing_bound (rtcfakes.subscribed_to 2 [])
              (rtcfakes.heap 1) "screen" 7) as (_ & Hwrites & _).
  - intros dt Hin. vm_compute in Hin. by apply elem_of_nil in Hin.
  - lia.
  - exact Hwrites.
Defined.

Lemma burst_reports_the_registry_of_the_moment_witness :
  writes (trace (scheduleDownTrackBindingReports (rtcfakes.heap 1) "cam" 7
                   (after (addDownTrack "cam" 9%positive (rtcfakes.subscribed_to 2 [])))))
  = replicate 7 [SourceDescription
                   [rtcfakes.chunk 1%positive; rtcfakes.chunk 2%positive;
                    rtcfakes.chunk 9%positive]].
Proof.
  destruct (burst_reports_the_registry_of_the_moment (rtcfakes.subscribed_to 2 [])
              (rtcfakes.heap 1) "cam" 9%positive 7) as (Hadded & _).
  - lia.
  - etrans; [exact Hadded|reflexivity].
Defined.

(** ** Negotiation *)

Lemma HandleNegotiate_answers_offers_only_witness :
  responses (trace (HandleNegotiate rtcfakes.offer rtcfakes.fresh))
    = [SignalResponse_Negotiate rtcfakes.answer]
  ∧ trace (HandleNegotiate rtcfakes.answer rtcfakes.fresh)
    = [EvSetRemoteDescription rtcfakes.answer].
Proof.
  split.
  - destruct (HandleNegotiate_answers_offers_only rtcfakes.fresh rtcfakes.offer)
      as (_ & _ & _ & _ & Hoffer & _).
    apply Hoffer; reflexivity.
  - destruct (HandleNegotiate_answers_offers_only rtcfakes.fresh rtcfakes.answer)
      as (_ & _ & _ & _ & _ & Hother).
    destruct Hother as (Htrace & _); [discriminate|]. exact Htrace.
Defined.

Lemma Answer_arms_renegotiation_then_answers_witness :
  (outcome (Answer rtcfakes.offer rtcfakes.with_broken_signaling)
     = Done (rtcfakes.answer, Some (errors_New "broken pipe"))
   ∧ state (after (Answer rtcfakes.offer rtcfakes.with_broken_signaling))
     = ParticipantInfo_JOINED)
  ∧ responses (trace (Answer rtcfakes.offer rtcfakes.failing_SetLocalDescription)) = [].
Proof.
  split.
  - destruct (Answer_arms_renegotiation_then_answers rtcfakes.with_broken_signaling
                rtcfakes.offer) as [Hsteps _].
    destruct Hsteps as (Hout & _ & Hstate); [split_and!; reflexivity|].
    split; [exact Hout|]. apply Hstate. reflexivity.
  - destruct (Answer_arms_renegotiation_then_answers rtcfakes.failing_SetLocalDescription
                rtcfakes.offer) as [_ Hfail].
    destruct Hfail as (_ & Hnone & _); [|exact Hnone].
    intros (_ & _ & Hlocal). discriminate Hlocal.
Defined.

(** ** Subscribers *)

Lemma RemoveSubscriber_reaches_every_track_witness :
  trace (RemoveSubscriber "PA_carol" ["TR_chat"; "TR_audio"; "TR_video"]
           rtcfakes.watched_by_carol) = [EvRLock; EvRUnlock]
  ∧ nobody_holds "PA_carol"
      (after (RemoveSubscriber "PA_carol" ["TR_chat"; "TR_audio"; "TR_video"]
                rtcfakes.watched_by_carol)).
Proof.
  destruct (RemoveSubscriber_reaches_every_track rtcfakes.watched_by_carol "PA_carol"
              ["TR_chat"; "TR_audio"; "TR_video"]) as (_ & Htrace & _ & Hnobody).
  - unfold range_of. vm_compute. reflexivity.
  - split; [exact Htrace|exact Hnobody].
Defined.

Lemma publishing_is_new_to_bob : nobody_holds "PA_bob" rtcfakes.publishing.
Proof.
  intros tid track Hlook. apply elem_of_map_to_list in Hlook. vm_compute in Hlook.
  repeat (apply elem_of_cons in Hlook; destruct Hlook as [Hlook|Hlook];
          [injection Hlook as -> ->; apply not_elem_of_nil|]).
  by apply elem_of_nil in Hlook.
Qed.

Lemma RemoveSubscriber_undoes_AddSubscriber_witness :
  after (RemoveSubscriber "PA_bob" ["TR_chat"; "TR_audio"; "TR_video"]
           (after (AddSubscriber "PA_bob" ["TR_audio"; "TR_video"; "TR_chat"]
                     rtcfakes.publishing)))
  = rtcfakes.publishing.
Proof.
  apply (RemoveSubscriber_undoes_AddSubscriber rtcfakes.publishing "PA_bob"
           ["TR_audio"; "TR_video"; "TR_chat"] ["TR_chat"; "TR_audio"; "TR_video"]).
  - exact publishing_is_new_to_bob.
  - unfold range_of. vm_compute. reflexivity.
Defined.

(** ** Publications and ToProto *)

Lemma publish_all_registers_and_confirms_witness :
  tracks (after (publish_all
                   [MediaPublication "TR_audio" rtcfakes.open_to_all;
                    DataPublication {| dc_Label := "_private" |} "TR_private"
                      rtcfakes.open_to_all;
                    DataPublication {| dc_Label := "chat" |} "TR_chat" rtcfakes.open_to_all]
                   rtcfakes.fresh)) !! "TR_chat"
  = Some (NewDataTrack "TR_chat" rtcfakes.open_to_all).
Proof.
  destruct (publish_all_registers_and_confirms
              [MediaPublication "TR_audio" rtcfakes.open_to_all;
               DataPublication {| dc_Label := "_private" |} "TR_private" rtcfakes.open_to_all;
               DataPublication {| dc_Label := "chat" |} "TR_chat" rtcfakes.open_to_all]
              rtcfakes.fresh) as (_ & _ & _ & _ & Hnew).
  refine (Hnew _ (NewDataTrack "TR_chat" rtcfakes.open_to_all) _).
  - vm_compute. apply NoDup_cons_2.
    + intros Hin. apply list_elem_of_singleton in Hin. discriminate Hin.
    + apply NoDup_cons_2; [apply not_elem_of_nil|apply NoDup_nil_2].
  - apply list_elem_of_further, list_elem_of_here.
Defined.

Lemma ToProto_lists_every_track_witness :
  length (Tracks (ToProto track_ID ["TR_chat"; "TR_audio"; "TR_video"] rtcfakes.publishing))
  = 3.
Proof.
  destruct (ToProto_lists_every_track track_ID ["TR_chat"; "TR_audio"; "TR_video"]
              rtcfakes.publishing) as (_ & _ & _ & _ & Hlength).
  - unfold range_of. vm_compute. reflexivity.
  - etrans; [exact Hlength|reflexivity].
Defined.

(** ** The workers *)

Lemma rtcpSendWorker_relays_in_order_then_waits_witness :
  outcome (rtcpSendWorker 2 rtcfakes.with_feedback) = Blocked
  ∧ writes (trace (rtcpSendWorker 2 rtcfakes.with_feedback)) = [[Feedback 7]].
Proof.
  destruct (rtcpSendWorker_relays_in_order_then_waits [[Feedback 7]] 2 rtcfakes.with_feedback)
    as (Hout & Hwrites & _).
  - reflexivity.
  - simpl. lia.
  - split; [exact Hout|exact Hwrites].
Defined.

Lemma downTracksRTCPWorker_runs_while_the_transport_is_open_witness :
  outcome (downTracksRTCPWorker
             [(rtcfakes.heap 1, ["cam"; "mic"]); (rtcfakes.heap 1, ["mic"; "cam"])] 3
             (rtcfakes.subscribed_to 2 [Some (errors_New "congested")])) = OutOfFuel
  ∧ sleeps (trace (downTracksRTCPWorker
                     [(rtcfakes.heap 1, ["cam"; "mic"]); (rtcfakes.heap 1, ["mic"; "cam"])] 3
                     (rtcfakes.subscribed_to 2 [Some (errors_New "congested")])))
    = [5000%Z; 5000%Z].
Proof.
  destruct (downTracksRTCPWorker_runs_while_the_transport_is_open rtcfakes.open_script
              [(rtcfakes.heap 1, ["cam"; "mic"]); (rtcfakes.heap 1, ["mic"; "cam"])] 3
              (rtcfakes.subscribed_to 2 [Some (errors_New "congested")]))
    as (Hout & Hsleeps & _).
  - exact fake_open_script_stays_open.
  - repeat constructor. intros e He. injection He as <-. reflexivity.
  - intros h order Hin.
    repeat (apply elem_of_cons in Hin; destruct Hin as [Hin|Hin];
            [injection Hin as -> ->; vm_compute; lia|]).
    by apply elem_of_nil in Hin.
  - split; [exact Hout|exact Hsleeps].
Defined.
